(** * local_damage.h: local and gradient-enhanced isotropic damage laws

    A shallow embedding of [src/local_damage.h] and the properties of its
    material laws.

    Conventions of the embedding.

    - [double] is read as a real number ([R]): the development is about the
      algorithm in exact arithmetic.  Rounding, infinities and NaN of
      binary64 are outside that model; the norm, whose constructor divides
      by expressions that can be zero, is read a second time over binary64
      in [Binary64].
    - [int] sizes and point indices are natural numbers.
    - An [Eigen::VectorXd] is the list of its coefficients; an
      [Eigen::MatrixXd] is its shape together with its coefficients in
      column-major order, which is how Eigen stores them and how
      [Eigen::Map] reads them back.
    - The header is compiled with assertions on.  A failed [assert] of the
      header and a failed run-time check of a container (index out of
      bounds, operands of different shapes) both stop the program; they are
      the two values of [failure], and every operation that can stop
      returns a [result].
    - interfaces.h supplies [Constraint], [Dim::Q] and the elasticity
      matrix [C]; the first is read off the [switch] of [T3D], the second
      follows the specification, the third is a parameter. *)

From Stdlib Require Import Reals Lra Lia List Arith PeanoNat Bool
  Permutation.
From Stdlib Require PrimFloat.
Import ListNotations.

Open Scope R_scope.

(** ** Fatal errors *)

Inductive failure : Type :=
| AssertFailed   (* an [assert (...)] written in local_damage.h *)
| EigenAssert.   (* a bounds or shape check of a container *)

Inductive result (A : Type) : Type :=
| Ok (a : A)
| Abort (f : failure).

Arguments Ok {A} a.
Arguments Abort {A} f.

Definition bind {A B : Type} (r : result A) (k : A -> result B) : result B :=
  match r with
  | Ok a => k a
  | Abort f => Abort f
  end.

Notation "x <- e ;; k" := (bind e (fun x => k))
  (at level 61, e at next level, right associativity).
Notation "' p <- e ;; k" := (bind e (fun p => k))
  (at level 61, p pattern, e at next level, right associativity).

Definition cassert (b : bool) : result unit :=
  if b then Ok tt else Abort AssertFailed.

Definition eigen_assert (b : bool) : result unit :=
  if b then Ok tt else Abort EigenAssert.

(** ** The part of Eigen the header uses *)

Module Eigen.

Definition VectorXd : Type := list R.

Record MatrixXd : Type := mkMatrix {
  rows : nat;
  cols : nat;
  data : list R     (* column-major: coefficient (i, j) is at [j * rows + i] *)
}.

Definition size (m : MatrixXd) : nat := (rows m * cols m)%nat.

(** Class invariant of a dense matrix: it stores [rows * cols] values. *)
Definition wf (m : MatrixXd) : Prop := length (data m) = size m.

Definition coeff (m : MatrixXd) (i j : nat) : R :=
  nth (j * rows m + i) (data m) 0.

Fixpoint zip_with (f : R -> R -> R) (u v : list R) : list R :=
  match u, v with
  | x :: u', y :: v' => f x y :: zip_with f u' v'
  | _, _ => []
  end.

Fixpoint update (v : list R) (i : nat) (x : R) : list R :=
  match v, i with
  | [], _ => []
  | _ :: v', O => x :: v'
  | y :: v', S i' => y :: update v' i' x
  end.

Definition sum_upto (n : nat) (f : nat -> R) : R :=
  fold_right Rplus 0 (map f (seq 0 n)).

(** [Matrix(r, c)] filled coefficient by coefficient. *)
Definition tabulate (r c : nat) (f : nat -> nat -> R) : MatrixXd :=
  mkMatrix r c (flat_map (fun j => map (fun i => f i j) (seq 0 r)) (seq 0 c)).

(** [m.setZero()] on an [r x c] matrix. *)
Definition Zero (r c : nat) : MatrixXd := mkMatrix r c (repeat 0 (r * c)).

(** [Matrix::Identity()] of size [n]. *)
Definition Identity (n : nat) : MatrixXd :=
  tabulate n n (fun i j => if Nat.eqb i j then 1 else 0).

(** [m(i, j) = x]. *)
Definition set_coeff (m : MatrixXd) (i j : nat) (x : R) : MatrixXd :=
  mkMatrix (rows m) (cols m) (update (data m) (j * rows m + i) x).

(** [s * m]. *)
Definition scale (s : R) (m : MatrixXd) : MatrixXd :=
  mkMatrix (rows m) (cols m) (map (Rmult s) (data m)).

(** [-m]. *)
Definition opp (m : MatrixXd) : MatrixXd :=
  mkMatrix (rows m) (cols m) (map Ropp (data m)).

(** [a - b]; Eigen checks that the shapes agree. *)
Definition sub (a b : MatrixXd) : result MatrixXd :=
  _ <- eigen_assert (Nat.eqb (rows a) (rows b) && Nat.eqb (cols a) (cols b)) ;;
  Ok (mkMatrix (rows a) (cols a) (zip_with Rminus (data a) (data b))).

(** [m * v]; Eigen checks [m.cols() == v.size()]. *)
Definition mat_vec (m : MatrixXd) (v : VectorXd) : result VectorXd :=
  _ <- eigen_assert (Nat.eqb (cols m) (length v)) ;;
  Ok (map (fun i => sum_upto (cols m) (fun j => coeff m i j * nth j v 0))
          (seq 0 (rows m))).

(** [m.transpose() * v]; Eigen checks [m.rows() == v.size()]. *)
Definition transpose_vec (m : MatrixXd) (v : VectorXd) : result VectorXd :=
  _ <- eigen_assert (Nat.eqb (rows m) (length v)) ;;
  Ok (map (fun j => sum_upto (rows m) (fun i => coeff m i j * nth i v 0))
          (seq 0 (cols m))).

(** [s * v] and [v * s]. *)
Definition vscale (s : R) (v : VectorXd) : VectorXd := map (Rmult s) v.
Definition vtimes (v : VectorXd) (s : R) : VectorXd := map (fun x => x * s) v.

(** [u + v] on vectors of one fixed size. *)
Definition vadd (u v : VectorXd) : VectorXd := zip_with Rplus u v.

(** [u * w.transpose()]: the outer product, of shape [u.size() x w.size()]. *)
Definition outer (u w : VectorXd) : MatrixXd :=
  tabulate (length u) (length w) (fun i j => nth i u 0 * nth j w 0).

(** A vector passed where a [MatrixXd] is expected: one column. *)
Definition as_matrix (v : VectorXd) : MatrixXd := mkMatrix (length v) 1 v.

(** [v[i]], with Eigen's bounds check. *)
Definition get (v : VectorXd) (i : nat) : result R :=
  match nth_error v i with
  | Some x => Ok x
  | None => Abort EigenAssert
  end.

(** [v[i] = x], with Eigen's bounds check. *)
Definition set (v : VectorXd) (i : nat) (x : R) : result VectorXd :=
  _ <- eigen_assert (Nat.ltb i (length v)) ;;
  Ok (update v i x).

(** [v.segment(start, n)] read as a value. *)
Definition segment (v : VectorXd) (start n : nat) : result VectorXd :=
  _ <- eigen_assert (Nat.leb (start + n) (length v)) ;;
  Ok (firstn n (skipn start v)).

(** [v.segment(start, n) = src]; a block cannot be resized by assignment,
    so [src] must hold [n] values. *)
Definition set_segment (v : VectorXd) (start n : nat) (src : VectorXd)
  : result VectorXd :=
  _ <- eigen_assert (Nat.leb (start + n) (length v)) ;;
  _ <- eigen_assert (Nat.eqb (length src) n) ;;
  Ok (firstn start v ++ src ++ skipn (start + n) v).

(** [v.setZero(n)]: resize to [n] and fill with zeros. *)
Definition setZero (n : nat) : VectorXd := repeat 0 n.

(** [v.resize(n)].  In Eigen this does nothing when the size is unchanged;
    otherwise it frees the old block and allocates a new one, whose
    coefficients it leaves uninitialised (only [setZero] and the like fill
    them).  [heap k] stands for whatever the allocator left at offset [k]
    of the new block. *)
Definition resize (heap : nat -> R) (v : VectorXd) (n : nat) : VectorXd :=
  if Nat.eqb (length v) n then v else map heap (seq 0 n).

End Eigen.

(** ** interfaces.h *)

(** The cases of the [switch] in [T3D]. *)
Inductive Constraint : Type :=
| UNIAXIAL_STRAIN
| UNIAXIAL_STRESS
| PLANE_STRAIN
| PLANE_STRESS
| FULL.

Module Dim.

(** Modelled from the spec: [Dim::Q] is declared in interfaces.h, which is
    not part of the sources at hand.  Section 3 gives the reduced strain
    dimension of the five constraint cases as 1, 1, 3, 3 and 6. *)
Definition Q (c : Constraint) : nat :=
  match c with
  | UNIAXIAL_STRAIN => 1
  | UNIAXIAL_STRESS => 1
  | PLANE_STRAIN => 3
  | PLANE_STRESS => 3
  | FULL => 6
  end.

End Dim.

(** The elasticity matrix [C(E, nu, c)] is built by interfaces.h; the laws
    take it as given. *)
Definition elasticity : Type := R -> R -> Constraint -> Eigen.MatrixXd.

(** ** DamageLawExponential *)

Module DamageLawExponential.

Record t : Type := new { _k0 : R; _a : R; _b : R }.

Definition evaluate (law : t) (k : R) : R * R :=
  if Rle_dec k (_k0 law) then (0, 0)
  else
    let omega :=
      1 - _k0 law / k * (1 - _a law + _a law * exp (_b law * (_k0 law - k))) in
    let domega :=
      _k0 law / k * ((1 / k + _b law) * _a law * exp (_b law * (_k0 law - k))
                     + (1 - _a law) / k) in
    (omega, domega).

End DamageLawExponential.

(** ** Invariants of the strain in Voigt form *)

Definition InvariantI1 (v : Eigen.VectorXd) : R * Eigen.VectorXd :=
  let I1 := nth 0 v 0 + nth 1 v 0 + nth 2 v 0 in
  (I1, [1; 1; 1; 0; 0; 0]).

Definition InvariantJ2 (v : Eigen.VectorXd) : R * Eigen.VectorXd :=
  let v0 := nth 0 v 0 in
  let v1 := nth 1 v 0 in
  let v2 := nth 2 v 0 in
  let v3 := nth 3 v 0 in
  let v4 := nth 4 v 0 in
  let v5 := nth 5 v 0 in
  let J2 :=
    ((v0 - v1) * (v0 - v1) + (v1 - v2) * (v1 - v2) + (v2 - v0) * (v2 - v0)) / 6
    + 0.25 * (v3 * v3 + v4 * v4 + v5 * v5) in
  (J2, [(2 * v0 - v1 - v2) / 3;
        (2 * v1 - v2 - v0) / 3;
        (2 * v2 - v0 - v1) / 3;
        0.5 * v3;
        0.5 * v4;
        0.5 * v5]).

(** ** The transformation of the reduced strain to 3D *)

Definition T3D (nu : R) (c : Constraint) : Eigen.MatrixXd :=
  let T := Eigen.Zero 6 (Dim.Q c) in
  match c with
  | UNIAXIAL_STRAIN =>
      Eigen.set_coeff T 0 0 1
  | UNIAXIAL_STRESS =>
      let T := Eigen.set_coeff T 0 0 1 in
      let T := Eigen.set_coeff T 1 0 (- nu) in
      Eigen.set_coeff T 2 0 (- nu)
  | PLANE_STRAIN =>
      let T := Eigen.set_coeff T 0 0 1 in
      let T := Eigen.set_coeff T 1 1 1 in
      Eigen.set_coeff T 5 2 1
  | PLANE_STRESS =>
      let T := Eigen.set_coeff T 0 0 1 in
      let T := Eigen.set_coeff T 1 1 1 in
      let T := Eigen.set_coeff T 2 0 (nu / (nu - 1)) in
      let T := Eigen.set_coeff T 2 1 (nu / (nu - 1)) in
      Eigen.set_coeff T 5 2 1
  | FULL =>
      Eigen.Identity 6
  end.

(** ** ModMisesEeq *)

Module ModMisesEeq.

Record t : Type := mk {
  _K1 : R;
  _K2 : R;
  _nu : R;
  _c : Constraint;
  _T3D : Eigen.MatrixXd
}.

(** At [nu = 1/2], [nu = -1] or [k = 0] a divisor is zero: the doubles
    of the code are then infinities or NaN, and the real numbers here carry
    no information about them. *)
Definition new (k nu : R) (c : Constraint) : t :=
  mk ((k - 1) / (2 * k * (1 - 2 * nu)))
     (3 / (k * (1 + nu) * (1 + nu)))
     nu
     c
     (T3D nu c).

Definition evaluate (m : t) (strain : Eigen.VectorXd)
  : result (R * Eigen.VectorXd) :=
  (* transformation to 3D and invariants *)
  strain3D <- Eigen.mat_vec (_T3D m) strain ;;
  let '(I1, dI1) := InvariantI1 strain3D in
  let '(J2, dJ2) := InvariantJ2 strain3D in
  (* actual modified mises norm *)
  let A := sqrt (_K1 m * _K1 m * I1 * I1 + _K2 m * J2) + 1e-14 in
  let eeq := _K1 m * I1 + A in
  let deeq_dI1 := _K1 m + _K1 m * _K1 m * I1 / A in
  let deeq_dJ2 := _K2 m / (2 * A) in
  (* derivative in 3D and transformation back *)
  let deeq := Eigen.vadd (Eigen.vscale deeq_dI1 dI1) (Eigen.vscale deeq_dJ2 dJ2) in
  back <- Eigen.transpose_vec (_T3D m) deeq ;;
  Ok (eeq, back).

End ModMisesEeq.

(** ** LocalDamage *)

Module LocalDamage.

Record t : Type := mk {
  _C : Eigen.MatrixXd;
  _omega : DamageLawExponential.t;
  _eeq : ModMisesEeq.t;
  _kappa : Eigen.VectorXd
}.

Definition new (C : elasticity) (E nu : R) (c : Constraint)
               (ft alpha gf k : R) : t :=
  mk (C E nu c)
     (DamageLawExponential.new (ft / E) alpha (ft / gf))
     (ModMisesEeq.new k nu c)
     [].

Definition with_kappa (law : t) (kappa : Eigen.VectorXd) : t :=
  mk (_C law) (_omega law) (_eeq law) kappa.

(** [_kappa.resize(n)] is Eigen's plain resize: see [Eigen.resize]. *)
Definition resize (heap : nat -> R) (law : t) (n : nat) : t :=
  with_kappa law (Eigen.resize heap (_kappa law) n).

Definition qdim (law : t) : nat := Eigen.rows (_C law).

Definition evaluate_kappa (eeq kappa : R) : R * R :=
  if Rge_dec eeq kappa then (eeq, 1) else (kappa, 0).

(** [evaluate] is not a [const] member: it returns the object it leaves
    behind next to the pair of stress and tangent. *)
Definition evaluate (law : t) (strain : Eigen.VectorXd) (i : nat)
  : result (t * (Eigen.VectorXd * Eigen.MatrixXd)) :=
  '(eeq, deeq) <- ModMisesEeq.evaluate (_eeq law) strain ;;
  stored <- Eigen.get (_kappa law) i ;;
  let '(kappa, dkappa) := evaluate_kappa eeq stored in
  let '(omega, domega) := DamageLawExponential.evaluate (_omega law) kappa in
  stress <- Eigen.mat_vec (Eigen.scale (1 - omega) (_C law)) strain ;;
  Cstrain <- Eigen.mat_vec (_C law) strain ;;
  tangent <-
    Eigen.sub (Eigen.scale (1 - omega) (_C law))
              (Eigen.outer (Eigen.vtimes (Eigen.vtimes Cstrain domega) dkappa)
                           deeq) ;;
  Ok (law, (stress, tangent)).

Definition update (law : t) (strain : Eigen.VectorXd) (i : nat) : result t :=
  '(eeq, _) <- ModMisesEeq.evaluate (_eeq law) strain ;;
  stored <- Eigen.get (_kappa law) i ;;
  let kappa := fst (evaluate_kappa eeq stored) in
  kappa' <- Eigen.set (_kappa law) i kappa ;;
  Ok (with_kappa law kappa').

End LocalDamage.

(** ** QValues *)

Module QValues.

Record t : Type := mk {
  _rows : nat;
  _cols : nat;
  data : Eigen.VectorXd
}.

(** [QValues() = default], value-initialised. *)
Definition default : t := mk 0 0 [].

(** [QValues(rows, cols)]; [cols] is 1 when left out. *)
Definition new (rows cols : nat) : t := mk rows cols [].

Definition with_data (q : t) (d : Eigen.VectorXd) : t :=
  mk (_rows q) (_cols q) d.

Definition Resize (q : t) (n : nat) : t :=
  with_data q (Eigen.setZero (n * _rows q * _cols q)).

(** [Set(double value, int i)]. *)
Definition SetScalar (q : t) (value : R) (i : nat) : result t :=
  _ <- cassert (Nat.eqb (_rows q) 1) ;;
  _ <- cassert (Nat.eqb (_cols q) 1) ;;
  d <- Eigen.set (data q) i value ;;
  Ok (with_data q d).

(** [Set(Eigen::MatrixXd value, int i)]. *)
Definition SetMatrix (q : t) (value : Eigen.MatrixXd) (i : nat) : result t :=
  _ <- cassert (Nat.eqb (Eigen.rows value) (_rows q)) ;;
  _ <- cassert (Nat.eqb (Eigen.cols value) (_cols q)) ;;
  d <- Eigen.set_segment (data q) (_rows q * _cols q * i) (_rows q * _cols q)
                         (Eigen.data value) ;;
  Ok (with_data q d).

Definition GetScalar (q : t) (i : nat) : result R :=
  _ <- cassert (Nat.eqb (_rows q) 1) ;;
  _ <- cassert (Nat.eqb (_cols q) 1) ;;
  Eigen.get (data q) i.

Definition Get (q : t) (i : nat) : result Eigen.MatrixXd :=
  ip_values <- Eigen.segment (data q) (_rows q * _cols q * i) (_rows q * _cols q) ;;
  Ok (Eigen.mkMatrix (_rows q) (_cols q) ip_values).

End QValues.

(** ** The output quantities *)

Inductive Q : Type :=
| SIGMA
| DSIGMA_DEPS
| EEQ
| DEEQ
| DSIGMA_DE
| LAST.

Definition Q_index (what : Q) : nat :=
  match what with
  | SIGMA => 1
  | DSIGMA_DEPS => 2
  | EEQ => 3
  | DEEQ => 4
  | DSIGMA_DE => 5
  | LAST => 6
  end.

(** A [std::vector<QValues>] indexed by [Q]. *)
Definition outputs : Type := list QValues.t.

Fixpoint replace_nth (out : outputs) (n : nat) (q : QValues.t) : outputs :=
  match out, n with
  | [], _ => []
  | _ :: out', O => q :: out'
  | p :: out', S n' => p :: replace_nth out' n' q
  end.

(** [out[what]], read.  Indexing a [std::vector] past its size is
    undefined; the model stops there. *)
Definition output (out : outputs) (what : Q) : result QValues.t :=
  match nth_error out (Q_index what) with
  | Some q => Ok q
  | None => Abort EigenAssert
  end.

(** [out[what] = q]. *)
Definition set_output (out : outputs) (what : Q) (q : QValues.t) : result outputs :=
  _ <- output out what ;;
  Ok (replace_nth out (Q_index what) q).

(** [out[what].Set(value, i)] and its scalar overload. *)
Definition output_Set (out : outputs) (what : Q) (value : Eigen.MatrixXd) (i : nat)
  : result outputs :=
  q <- output out what ;;
  q' <- QValues.SetMatrix q value i ;;
  Ok (replace_nth out (Q_index what) q').

Definition output_SetScalar (out : outputs) (what : Q) (value : R) (i : nat)
  : result outputs :=
  q <- output out what ;;
  q' <- QValues.SetScalar q value i ;;
  Ok (replace_nth out (Q_index what) q').

(** ** GradientDamage *)

Module GradientDamage.

Record t : Type := mk {
  _C : Eigen.MatrixXd;
  _omega : DamageLawExponential.t;
  _strain_norm : ModMisesEeq.t;
  _kappa : QValues.t      (* history values *)
}.

Definition new (C : elasticity) (E nu : R) (c : Constraint)
               (ft alpha beta k : R) : t :=
  mk (C E nu c)
     (DamageLawExponential.new (ft / E) alpha beta)
     (ModMisesEeq.new k nu c)
     (QValues.new 1 1).

Definition with_kappa (law : t) (kappa : QValues.t) : t :=
  mk (_C law) (_omega law) (_strain_norm law) kappa.

Definition AllocateOutputs (law : t) (out : outputs) : result outputs :=
  let q := Eigen.rows (_C law) in
  out <- set_output out EEQ (QValues.new 1 1) ;;
  out <- set_output out DEEQ (QValues.new q 1) ;;
  out <- set_output out SIGMA (QValues.new q 1) ;;
  out <- set_output out DSIGMA_DE (QValues.new q 1) ;;
  set_output out DSIGMA_DEPS (QValues.new q q).

Definition resize (law : t) (n : nat) : t :=
  with_kappa law (QValues.Resize (_kappa law) n).

Definition qdim (law : t) : nat := Eigen.rows (_C law).

Definition evaluate_kappa (eeq kappa : R) : R * R :=
  if Rge_dec eeq kappa then (eeq, 1) else (kappa, 0).

(** [evaluate] is not a [const] member: it returns the object it leaves
    behind next to the outputs it has written. *)
Definition evaluate (law : t) (strain : Eigen.VectorXd) (e : R)
                    (out : outputs) (i : nat) : result (t * outputs) :=
  stored <- QValues.GetScalar (_kappa law) i ;;
  let '(kappa, dkappa) := evaluate_kappa e stored in
  let '(omega, domega) := DamageLawExponential.evaluate (_omega law) kappa in
  '(eeq, deeq) <- ModMisesEeq.evaluate (_strain_norm law) strain ;;
  out <- output_SetScalar out EEQ eeq i ;;
  sigma <- Eigen.mat_vec (Eigen.scale (1 - omega) (_C law)) strain ;;
  out <- output_Set out SIGMA (Eigen.as_matrix sigma) i ;;
  out <- output_Set out DEEQ (Eigen.as_matrix deeq) i ;;
  mCstrain <- Eigen.mat_vec (Eigen.opp (_C law)) strain ;;
  out <- output_Set out DSIGMA_DE
           (Eigen.as_matrix (Eigen.vtimes (Eigen.vtimes mCstrain domega) dkappa)) i ;;
  out <- output_Set out DSIGMA_DEPS (Eigen.scale (1 - omega) (_C law)) i ;;
  Ok (law, out).

Definition update (law : t) (strain : Eigen.VectorXd) (neeq : R) (i : nat)
  : result t :=
  stored <- QValues.GetScalar (_kappa law) i ;;
  kappa' <- QValues.SetScalar (_kappa law) (fst (evaluate_kappa neeq stored)) i ;;
  Ok (with_kappa law kappa').

End GradientDamage.


(** ** IpLoop *)

Module IpLoop.

(** The loop holds the law by reference and is the only one to call it
    here; the record carries the state of that one law object. *)
Record t : Type := mk {
  _law : GradientDamage.t;
  _outputs : outputs;
  _n : nat
}.

Definition new (law : GradientDamage.t) : result t :=
  out <- GradientDamage.AllocateOutputs law
           (repeat QValues.default (Q_index LAST)) ;;
  Ok (mk law out 0).

Definition resize (loop : t) (n : nat) : t :=
  mk (GradientDamage.resize (_law loop) n)
     (map (fun qvalues => QValues.Resize qvalues n) (_outputs loop))
     n.

(** The body of [for (int i = 0; i < _n; ++i)], from index [i] on, with
    [count] points left. *)
Fixpoint evaluate_from (law : GradientDamage.t) (q : nat)
         (all_strains all_neeq : Eigen.VectorXd) (out : outputs)
         (i count : nat) : result (GradientDamage.t * outputs) :=
  match count with
  | O => Ok (law, out)
  | S count' =>
      strain <- Eigen.segment all_strains (i * q) q ;;
      neeq <- Eigen.get all_neeq i ;;
      '(law', out') <- GradientDamage.evaluate law strain neeq out i ;;
      evaluate_from law' q all_strains all_neeq out' (S i) count'
  end.

Definition evaluate (loop : t) (all_strains all_neeq : Eigen.VectorXd)
  : result t :=
  let q := GradientDamage.qdim (_law loop) in
  '(law, out) <- evaluate_from (_law loop) q all_strains all_neeq
                               (_outputs loop) 0 (_n loop) ;;
  Ok (mk law out (_n loop)).

Fixpoint update_from (law : GradientDamage.t) (q : nat)
         (all_strains all_neeq : Eigen.VectorXd)
         (i count : nat) : result GradientDamage.t :=
  match count with
  | O => Ok law
  | S count' =>
      strain <- Eigen.segment all_strains (i * q) q ;;
      neeq <- Eigen.get all_neeq i ;;
      law' <- GradientDamage.update law strain neeq i ;;
      update_from law' q all_strains all_neeq (S i) count'
  end.

Definition update (loop : t) (all_strains all_neeq : Eigen.VectorXd)
  : result t :=
  let q := GradientDamage.qdim (_law loop) in
  law <- update_from (_law loop) q all_strains all_neeq 0 (_n loop) ;;
  Ok (mk law (_outputs loop) (_n loop)).

End IpLoop.

(** ** Runs of several updates *)

(** The calls [update (strain, i)] of a load history, in order. *)
Fixpoint local_updates (law : LocalDamage.t)
                       (calls : list (Eigen.VectorXd * nat))
  : result LocalDamage.t :=
  match calls with
  | [] => Ok law
  | (strain, i) :: rest =>
      law' <- LocalDamage.update law strain i ;;
      local_updates law' rest
  end.

(** The calls [update (strain, neeq, i)] of a load history, in order. *)
Fixpoint gradient_updates (law : GradientDamage.t)
                          (calls : list (Eigen.VectorXd * R * nat))
  : result GradientDamage.t :=
  match calls with
  | [] => Ok law
  | (strain, neeq, i) :: rest =>
      law' <- GradientDamage.update law strain neeq i ;;
      gradient_updates law' rest
  end.

(** ** What the callers guarantee *)

(** The quantity [q] has the declared shape [r x c] and the block of point
    [i] lies inside its storage. *)
Definition has_room (q : QValues.t) (r c i : nat) : Prop :=
  QValues._rows q = r /\ QValues._cols q = c /\
  (r * c * i + r * c <= length (QValues.data q))%nat.

Definition room (out : outputs) (what : Q) (r c i : nat) : Prop :=
  exists q, output out what = Ok q /\ has_room q r c i.

(** The transformation of the norm is 6 x n and the strain has n
    components. *)
Definition norm_accepts (m : ModMisesEeq.t) (strain : Eigen.VectorXd) : Prop :=
  Eigen.rows (ModMisesEeq._T3D m) = 6%nat /\
  Eigen.cols (ModMisesEeq._T3D m) = length strain.

(** What [LocalDamage::evaluate (strain, i)] and [update] rely on: point
    [i] is allocated, and the strain has the dimension of the norm and of
    the columns of [C]. *)
Definition local_ready (law : LocalDamage.t) (strain : Eigen.VectorXd)
           (i : nat) : Prop :=
  (i < length (LocalDamage._kappa law))%nat /\
  norm_accepts (LocalDamage._eeq law) strain /\
  Eigen.cols (LocalDamage._C law) = length strain.

(** The five outputs as [AllocateOutputs] shapes them, with point [i]
    allocated; [qd] is the dimension of the strain. *)
Definition outputs_ready (law : GradientDamage.t) (out : outputs)
           (qd i : nat) : Prop :=
  let C := GradientDamage._C law in
  room out EEQ 1 1 i /\
  room out SIGMA (Eigen.rows C) 1 i /\
  room out DEEQ qd 1 i /\
  room out DSIGMA_DE (Eigen.rows C) 1 i /\
  room out DSIGMA_DEPS (Eigen.rows C) (Eigen.cols C) i.

(** What [GradientDamage::evaluate (strain, e, out, i)] relies on. *)
Definition gradient_ready (law : GradientDamage.t) (out : outputs)
           (strain : Eigen.VectorXd) (i : nat) : Prop :=
  has_room (GradientDamage._kappa law) 1 1 i /\
  norm_accepts (GradientDamage._strain_norm law) strain /\
  Eigen.wf (GradientDamage._C law) /\
  Eigen.cols (GradientDamage._C law) = length strain /\
  outputs_ready law out (length strain) i.

(** The state the driver is in after [resize (n)]: a square dense [C] of
    the dimension of the norm, and law and outputs sized for [n] points. *)
Definition driver_sized (law : GradientDamage.t) (out : outputs) (n : nat)
  : Prop :=
  let C := GradientDamage._C law in
  Eigen.wf C /\
  Eigen.rows C = Eigen.cols C /\
  Eigen.rows (ModMisesEeq._T3D (GradientDamage._strain_norm law)) = 6%nat /\
  Eigen.cols (ModMisesEeq._T3D (GradientDamage._strain_norm law)) = Eigen.rows C /\
  forall i, (i < n)%nat ->
            has_room (GradientDamage._kappa law) 1 1 i /\
            outputs_ready law out (Eigen.rows C) i.

(** ** The softening curve *)

(** The bracket [1 - a + a exp (b (k0 - k))] of the softening curve. *)
Definition softening (k0 a b k : R) : R := 1 - a + a * exp (b * (k0 - k)).

(** ** A uniaxial example *)

(** A 1 x 1 stiffness, as in the uniaxial end-to-end scenario. *)
Definition uniaxial_C : elasticity := fun E _ _ => Eigen.mkMatrix 1 1 [E].

(** The local law of the end-to-end scenario: E = 1000, nu = 0.2, uniaxial
    strain, ft = 1, alpha = 0.99, gf = 10, k = 10. *)
Definition scenario_local : LocalDamage.t :=
  LocalDamage.new uniaxial_C 1000 0.2 UNIAXIAL_STRAIN 1 0.99 10 10.

(** A gradient law with the same parameters and beta = 0.1. *)
Definition scenario_gradient : GradientDamage.t :=
  GradientDamage.new uniaxial_C 1000 0.2 UNIAXIAL_STRAIN 1 0.99 0.1 10.

(** The driver of the gradient law, sized for one integration point. *)
Definition scenario_loop : result IpLoop.t :=
  loop <- IpLoop.new scenario_gradient ;;
  Ok (IpLoop.resize loop 1).

(** ** Reading the outputs *)

(** [out[what].Get(i)]: the block of point [i] of one output quantity. *)
Definition block (out : outputs) (what : Q) (i : nat) : result Eigen.MatrixXd :=
  q <- output out what ;;
  QValues.Get q i.

(** [IpLoop::Get (what)]: the flat array of one output.  [at] throws
    [std::out_of_range] for an index past the vector; [None] stands for
    that exception. *)
Definition IpLoop_Get (loop : IpLoop.t) (what : Q) : option Eigen.VectorXd :=
  option_map QValues.data (nth_error (IpLoop._outputs loop) (Q_index what)).

(** The five blocks of point [i] hold the response of the law to [strain]
    and to the nonlocal strain [e], as [GradientDamage::evaluate] computes
    it from the stored kappa of that point. *)
Definition holds_response (law : GradientDamage.t) (strain : Eigen.VectorXd)
           (e : R) (out : outputs) (i : nat) : Prop :=
  exists stored eeq deeq sigma mCstrain,
    QValues.GetScalar (GradientDamage._kappa law) i = Ok stored /\
    ModMisesEeq.evaluate (GradientDamage._strain_norm law) strain = Ok (eeq, deeq) /\
    let kd := GradientDamage.evaluate_kappa e stored in
    let od := DamageLawExponential.evaluate (GradientDamage._omega law) (fst kd) in
    Eigen.mat_vec (Eigen.scale (1 - fst od) (GradientDamage._C law)) strain
    = Ok sigma /\
    Eigen.mat_vec (Eigen.opp (GradientDamage._C law)) strain = Ok mCstrain /\
    block out EEQ i = Ok (Eigen.mkMatrix 1 1 [eeq]) /\
    block out SIGMA i = Ok (Eigen.as_matrix sigma) /\
    block out DEEQ i = Ok (Eigen.as_matrix deeq) /\
    block out DSIGMA_DE i
    = Ok (Eigen.as_matrix (Eigen.vtimes (Eigen.vtimes mCstrain (snd od)) (snd kd))) /\
    block out DSIGMA_DEPS i
    = Ok (Eigen.scale (1 - fst od) (GradientDamage._C law)).

(** The declared shape and the storage size of each output. *)
Definition sizes (out : outputs) : list (nat * nat * nat) :=
  map (fun q => (QValues._rows q, QValues._cols q, length (QValues.data q))) out.

(** ** Vocabulary of the statements *)

(** Parameters of the damage law in their physical ranges: a positive
    threshold, a residual fraction between 0 and 1, a softening rate that
    is not negative. *)
Definition admissible (law : DamageLawExponential.t) : Prop :=
  0 < DamageLawExponential._k0 law /\
  0 <= DamageLawExponential._a law <= 1 /\
  0 <= DamageLawExponential._b law.

(** The scalar product of two vectors. *)
Definition dot (u v : Eigen.VectorXd) : R :=
  fold_right Rplus 0 (Eigen.zip_with Rmult u v).

(** The kappa that a list of update calls drives point [j] to, from the
    value [stored]: each call at [j] takes the larger of its nonlocal
    strain and the value so far. *)
Fixpoint driven (calls : list (Eigen.VectorXd * R * nat)) (j : nat) (stored : R)
  : R :=
  match calls with
  | [] => stored
  | (_, neeq, i) :: rest =>
      driven rest j (if Nat.eqb i j then Rmax neeq stored else stored)
  end.

(** ** The norm over binary64 *)

(** The constructor of [ModMisesEeq] divides by [2 k (1 - 2 nu)] and by
    [k (1 + nu) (1 + nu)].  Where a divisor is zero the doubles of the code
    give an infinity or a NaN, which the real numbers above do not carry:
    there the value of [ModMisesEeq.new] says nothing about the code.
    [Binary64] reads the norm and the loading function a second time, over
    IEEE 754 binary64 with round to nearest, each operation rounded on its
    own and in the order of the source; a product of a matrix and a vector
    accumulates from zero, column after column. *)
Module Binary64.

Import PrimFloat.
Local Open Scope float_scope.

Definition VectorXd : Type := list float.

Record MatrixXd : Type := mkMatrix {
  rows : nat;
  cols : nat;
  data : list float
}.

Definition coeff (m : MatrixXd) (i j : nat) : float :=
  nth (j * rows m + i) (data m) 0.

Fixpoint update (v : list float) (i : nat) (x : float) : list float :=
  match v, i with
  | [], _ => []
  | _ :: v', O => x :: v'
  | y :: v', S i' => y :: update v' i' x
  end.

Definition sum_upto (n : nat) (f : nat -> float) : float :=
  fold_left (fun acc j => acc + f j) (seq 0 n) 0.

Definition tabulate (r c : nat) (f : nat -> nat -> float) : MatrixXd :=
  mkMatrix r c (flat_map (fun j => map (fun i => f i j) (seq 0 r)) (seq 0 c)).

Definition Zero (r c : nat) : MatrixXd := mkMatrix r c (repeat 0 (r * c)).

Definition Identity (n : nat) : MatrixXd :=
  tabulate n n (fun i j => if Nat.eqb i j then 1 else 0).

Definition set_coeff (m : MatrixXd) (i j : nat) (x : float) : MatrixXd :=
  mkMatrix (rows m) (cols m) (update (data m) (j * rows m + i) x).

Definition mat_vec (m : MatrixXd) (v : VectorXd) : result VectorXd :=
  _ <- eigen_assert (Nat.eqb (cols m) (length v)) ;;
  Ok (map (fun i => sum_upto (cols m) (fun j => coeff m i j * nth j v 0))
          (seq 0 (rows m))).

Definition transpose_vec (m : MatrixXd) (v : VectorXd) : result VectorXd :=
  _ <- eigen_assert (Nat.eqb (rows m) (length v)) ;;
  Ok (map (fun j => sum_upto (rows m) (fun i => coeff m i j * nth i v 0))
          (seq 0 (cols m))).

Definition vscale (s : float) (v : VectorXd) : VectorXd :=
  map (fun x => s * x) v.

Fixpoint vadd (u v : VectorXd) : VectorXd :=
  match u, v with
  | x :: u', y :: v' => (x + y) :: vadd u' v'
  | _, _ => []
  end.

Definition InvariantI1 (v : VectorXd) : float * VectorXd :=
  let I1 := nth 0 v 0 + nth 1 v 0 + nth 2 v 0 in
  (I1, [1; 1; 1; 0; 0; 0]).

Definition InvariantJ2 (v : VectorXd) : float * VectorXd :=
  let v0 := nth 0 v 0 in
  let v1 := nth 1 v 0 in
  let v2 := nth 2 v 0 in
  let v3 := nth 3 v 0 in
  let v4 := nth 4 v 0 in
  let v5 := nth 5 v 0 in
  let J2 :=
    ((v0 - v1) * (v0 - v1) + (v1 - v2) * (v1 - v2) + (v2 - v0) * (v2 - v0)) / 6
    + 0.25 * (v3 * v3 + v4 * v4 + v5 * v5) in
  (J2, [(2 * v0 - v1 - v2) / 3;
        (2 * v1 - v2 - v0) / 3;
        (2 * v2 - v0 - v1) / 3;
        0.5 * v3;
        0.5 * v4;
        0.5 * v5]).

Definition T3D (nu : float) (c : Constraint) : MatrixXd :=
  let T := Zero 6 (Dim.Q c) in
  match c with
  | UNIAXIAL_STRAIN =>
      set_coeff T 0 0 1
  | UNIAXIAL_STRESS =>
      let T := set_coeff T 0 0 1 in
      let T := set_coeff T 1 0 (- nu) in
      set_coeff T 2 0 (- nu)
  | PLANE_STRAIN =>
      let T := set_coeff T 0 0 1 in
      let T := set_coeff T 1 1 1 in
      set_coeff T 5 2 1
  | PLANE_STRESS =>
      let T := set_coeff T 0 0 1 in
      let T := set_coeff T 1 1 1 in
      let T := set_coeff T 2 0 (nu / (nu - 1)) in
      let T := set_coeff T 2 1 (nu / (nu - 1)) in
      set_coeff T 5 2 1
  | FULL =>
      Identity 6
  end.

Module ModMisesEeq.

Record t : Type := mk {
  _K1 : float;
  _K2 : float;
  _nu : float;
  _c : Constraint;
  _T3D : MatrixXd
}.

Definition new (k nu : float) (c : Constraint) : t :=
  mk ((k - 1) / (2 * k * (1 - 2 * nu)))
     (3 / (k * (1 + nu) * (1 + nu)))
     nu
     c
     (T3D nu c).

Definition evaluate (m : t) (strain : VectorXd) : result (float * VectorXd) :=
  strain3D <- mat_vec (_T3D m) strain ;;
  let '(I1, dI1) := InvariantI1 strain3D in
  let '(J2, dJ2) := InvariantJ2 strain3D in
  let A := sqrt (_K1 m * _K1 m * I1 * I1 + _K2 m * J2) + 1e-14 in
  let eeq := _K1 m * I1 + A in
  let deeq_dI1 := _K1 m + _K1 m * _K1 m * I1 / A in
  let deeq_dJ2 := _K2 m / (2 * A) in
  let deeq := vadd (vscale deeq_dI1 dI1) (vscale deeq_dJ2 dJ2) in
  back <- transpose_vec (_T3D m) deeq ;;
  Ok (eeq, back).

End ModMisesEeq.

(** [eeq >= kappa] on doubles is false when either side is a NaN. *)
Definition evaluate_kappa (eeq kappa : float) : float * float :=
  if PrimFloat.leb kappa eeq then (eeq, 1) else (kappa, 0).

End Binary64.

(** * Properties *)

(** ** The error monad *)

Lemma bind_Ok {A B : Type} (e : result A) (k : A -> result B) (b : B) :
  bind e k = Ok b -> exists a, e = Ok a /\ k a = Ok b.
Proof.
  destruct e as [a | f]; simpl; intros H.
  - exists a; split; [reflexivity | exact H].
  - discriminate H.
Qed.

Lemma cassert_Ok (b : bool) (u : unit) : cassert b = Ok u -> b = true.
Proof. destruct b; simpl; [reflexivity | discriminate]. Qed.

Lemma eigen_assert_Ok (b : bool) (u : unit) : eigen_assert b = Ok u -> b = true.
Proof. destruct b; simpl; [reflexivity | discriminate]. Qed.

(** Runs the embedding on given inputs, leaving real arithmetic alone. *)
Tactic Notation "run" :=
  cbv -[Rplus Rmult Rminus Ropp Rinv Rdiv IZR sqrt exp Rge_dec Rle_dec].
Tactic Notation "run" "in" hyp(H) :=
  cbv -[Rplus Rmult Rminus Ropp Rinv Rdiv IZR sqrt exp Rge_dec Rle_dec] in H.

(** Splits a hypothesis [x <- e ;; k = Ok b] into its two steps. *)
Ltac bind_inv H :=
  let a := fresh "a" in
  let Ha := fresh "Hstep" in
  apply bind_Ok in H; destruct H as [a [Ha H]].

(** ** Lists as Eigen vectors *)

Lemma update_length (v : list R) (i : nat) (x : R) :
  length (Eigen.update v i x) = length v.
Proof.
  revert i; induction v as [| y v IH]; intros [| i]; simpl; auto.
Qed.

Lemma nth_update_same (v : list R) (i : nat) (x : R) :
  (i < length v)%nat -> nth i (Eigen.update v i x) 0 = x.
Proof.
  revert i; induction v as [| y v IH]; intros [| i]; simpl; intros H;
    try lia; auto.
  apply IH; lia.
Qed.

Lemma nth_update_other (v : list R) (i j : nat) (x : R) :
  i <> j -> nth j (Eigen.update v i x) 0 = nth j v 0.
Proof.
  revert i j; induction v as [| y v IH]; intros [| i] [| j] H; simpl; auto;
    try contradiction.
Qed.

Lemma get_Ok (v : Eigen.VectorXd) (i : nat) (x : R) :
  Eigen.get v i = Ok x -> (i < length v)%nat /\ nth i v 0 = x.
Proof.
  unfold Eigen.get.
  destruct (nth_error v i) as [y |] eqn:E; [| discriminate].
  intros H; injection H as <-.
  split.
  - apply nth_error_Some; congruence.
  - apply nth_error_nth; exact E.
Qed.

Lemma get_in_range (v : Eigen.VectorXd) (i : nat) :
  (i < length v)%nat -> Eigen.get v i = Ok (nth i v 0).
Proof.
  intros H; unfold Eigen.get.
  rewrite (nth_error_nth' v 0 H); reflexivity.
Qed.

Lemma set_Ok (v : Eigen.VectorXd) (i : nat) (x : R) (v' : Eigen.VectorXd) :
  Eigen.set v i x = Ok v' -> (i < length v)%nat /\ v' = Eigen.update v i x.
Proof.
  unfold Eigen.set; intros H.
  bind_inv H.
  apply eigen_assert_Ok in Hstep; apply Nat.ltb_lt in Hstep.
  injection H as <-; auto.
Qed.

Lemma set_in_range (v : Eigen.VectorXd) (i : nat) (x : R) :
  (i < length v)%nat -> Eigen.set v i x = Ok (Eigen.update v i x).
Proof.
  intros H; unfold Eigen.set.
  apply Nat.ltb_lt in H; rewrite H; reflexivity.
Qed.

(** Writing back the value that is already stored changes nothing. *)
Lemma update_same_value (v : list R) (i : nat) :
  Eigen.update v i (nth i v 0) = v.
Proof.
  revert i; induction v as [| y v IH]; intros [| i]; simpl; auto.
  now rewrite IH.
Qed.

Lemma update_twice (v : list R) (i : nat) (x y : R) :
  Eigen.update (Eigen.update v i x) i y = Eigen.update v i y.
Proof.
  revert i; induction v as [| z v IH]; intros [| i]; simpl; auto.
  now rewrite IH.
Qed.

Lemma set_segment_Ok (v v' src : Eigen.VectorXd) (start n : nat) :
  Eigen.set_segment v start n src = Ok v' ->
  (start + n <= length v)%nat /\ length src = n /\
  v' = firstn start v ++ src ++ skipn (start + n) v.
Proof.
  unfold Eigen.set_segment; intros H.
  bind_inv H. apply eigen_assert_Ok, Nat.leb_le in Hstep.
  bind_inv H. apply eigen_assert_Ok, Nat.eqb_eq in Hstep0.
  injection H as <-; auto.
Qed.

Lemma set_segment_in_range (v src : Eigen.VectorXd) (start n : nat) :
  (start + n <= length v)%nat -> length src = n ->
  Eigen.set_segment v start n src =
  Ok (firstn start v ++ src ++ skipn (start + n) v).
Proof.
  intros Hr Hs; unfold Eigen.set_segment.
  rewrite (proj2 (Nat.leb_le _ _) Hr), (proj2 (Nat.eqb_eq _ _) Hs).
  reflexivity.
Qed.

(** Assigning to a segment keeps the size of the vector. *)
Lemma set_segment_length (v src : Eigen.VectorXd) (start n : nat) :
  (start + n <= length v)%nat -> length src = n ->
  length (firstn start v ++ src ++ skipn (start + n) v) = length v.
Proof.
  intros Hr Hs.
  rewrite !length_app, length_firstn, length_skipn. lia.
Qed.

(** Reading a segment back gives what was assigned to it. *)
Lemma segment_of_set_segment (v src : Eigen.VectorXd) (start n : nat) :
  (start + n <= length v)%nat -> length src = n ->
  Eigen.segment (firstn start v ++ src ++ skipn (start + n) v) start n = Ok src.
Proof.
  intros Hr Hs; unfold Eigen.segment.
  rewrite (set_segment_length _ _ _ _ Hr Hs).
  rewrite (proj2 (Nat.leb_le _ _) Hr); simpl.
  assert (Hf : length (firstn start v) = start)
    by (rewrite length_firstn; lia).
  rewrite skipn_app, Hf, Nat.sub_diag; simpl.
  rewrite skipn_all2 by lia; simpl.
  rewrite firstn_app, Hs, Nat.sub_diag; simpl.
  rewrite firstn_all2 by lia.
  now rewrite app_nil_r.
Qed.

Lemma segment_in_range (v : Eigen.VectorXd) (start n : nat) :
  (start + n <= length v)%nat ->
  exists w, Eigen.segment v start n = Ok w /\ length w = n.
Proof.
  intros H; unfold Eigen.segment.
  rewrite (proj2 (Nat.leb_le _ _) H); cbn [eigen_assert bind].
  eexists; split; [reflexivity |].
  rewrite length_firstn, length_skipn. lia.
Qed.

(** ** Shapes of products *)

Lemma mat_vec_in_shape (m : Eigen.MatrixXd) (v : Eigen.VectorXd) :
  Eigen.cols m = length v ->
  exists w, Eigen.mat_vec m v = Ok w /\ length w = Eigen.rows m.
Proof.
  intros H; unfold Eigen.mat_vec.
  rewrite (proj2 (Nat.eqb_eq _ _) H); simpl.
  eexists; split; [reflexivity |].
  now rewrite length_map, length_seq.
Qed.

Lemma mat_vec_Ok (m : Eigen.MatrixXd) (v w : Eigen.VectorXd) :
  Eigen.mat_vec m v = Ok w ->
  Eigen.cols m = length v /\ length w = Eigen.rows m.
Proof.
  unfold Eigen.mat_vec; intros H.
  bind_inv H. apply eigen_assert_Ok, Nat.eqb_eq in Hstep.
  injection H as <-.
  now rewrite length_map, length_seq.
Qed.

Lemma transpose_vec_in_shape (m : Eigen.MatrixXd) (v : Eigen.VectorXd) :
  Eigen.rows m = length v ->
  exists w, Eigen.transpose_vec m v = Ok w /\ length w = Eigen.cols m.
Proof.
  intros H; unfold Eigen.transpose_vec.
  rewrite (proj2 (Nat.eqb_eq _ _) H); simpl.
  eexists; split; [reflexivity |].
  now rewrite length_map, length_seq.
Qed.

Lemma transpose_vec_Ok (m : Eigen.MatrixXd) (v w : Eigen.VectorXd) :
  Eigen.transpose_vec m v = Ok w -> length w = Eigen.cols m.
Proof.
  unfold Eigen.transpose_vec; intros H.
  bind_inv H. injection H as <-.
  now rewrite length_map, length_seq.
Qed.

Lemma map_scale_one (l : list R) : map (Rmult (1 - 0)) l = l.
Proof.
  induction l as [| x l IH]; simpl; [reflexivity |].
  rewrite IH. f_equal. lra.
Qed.

Lemma scale_one (m : Eigen.MatrixXd) : Eigen.scale (1 - 0) m = m.
Proof.
  destruct m as [r c d]; unfold Eigen.scale; simpl.
  now rewrite map_scale_one.
Qed.

Lemma zip_minus_zeros (a b : list R) :
  (length a <= length b)%nat ->
  (forall x, In x b -> x = 0) ->
  Eigen.zip_with Rminus a b = a.
Proof.
  revert b; induction a as [| x a IH]; intros [| y b] Hlen Hz; simpl in *;
    try reflexivity; try lia.
  rewrite IH by (try lia; auto).
  f_equal. rewrite (Hz y) by auto. lra.
Qed.

Lemma tabulate_length (r c : nat) (f : nat -> nat -> R) :
  length (Eigen.data (Eigen.tabulate r c f)) = (r * c)%nat.
Proof.
  simpl.
  assert (H : forall l : list nat,
             length (flat_map (fun j => map (fun i => f i j) (seq 0 r)) l)
             = (r * length l)%nat).
  { induction l as [| j l IH]; simpl; [lia |].
    rewrite length_app, length_map, length_seq, IH. lia. }
  now rewrite H, length_seq.
Qed.

Lemma tabulate_zeros (r c : nat) (f : nat -> nat -> R) :
  (forall i j, f i j = 0) ->
  forall x, In x (Eigen.data (Eigen.tabulate r c f)) -> x = 0.
Proof.
  intros Hf x Hin; simpl in Hin.
  apply in_flat_map in Hin as (j & _ & Hin).
  apply in_map_iff in Hin as (i & <- & _).
  apply Hf.
Qed.

Lemma nth_vtimes_zero (v : Eigen.VectorXd) (s : R) (i : nat) :
  nth i (Eigen.vtimes (Eigen.vtimes v 0) s) 0 = 0.
Proof.
  revert i; induction v as [| x v IH]; intros [| i]; simpl; auto; lra.
Qed.

Lemma vtimes_length (v : Eigen.VectorXd) (s : R) :
  length (Eigen.vtimes v s) = length v.
Proof. apply length_map. Qed.

Lemma outer_rows (u w : Eigen.VectorXd) :
  Eigen.rows (Eigen.outer u w) = length u.
Proof. reflexivity. Qed.

Lemma outer_cols (u w : Eigen.VectorXd) :
  Eigen.cols (Eigen.outer u w) = length w.
Proof. reflexivity. Qed.

(** ** The loading function *)

Lemma local_kappa_loading (eeq kappa : R) :
  eeq >= kappa -> LocalDamage.evaluate_kappa eeq kappa = (eeq, 1).
Proof.
  intros H; unfold LocalDamage.evaluate_kappa.
  destruct (Rge_dec eeq kappa); [reflexivity | contradiction].
Qed.

Lemma local_kappa_unloading (eeq kappa : R) :
  eeq < kappa -> LocalDamage.evaluate_kappa eeq kappa = (kappa, 0).
Proof.
  intros H; unfold LocalDamage.evaluate_kappa.
  destruct (Rge_dec eeq kappa); [lra | reflexivity].
Qed.

Lemma gradient_kappa_loading (eeq kappa : R) :
  eeq >= kappa -> GradientDamage.evaluate_kappa eeq kappa = (eeq, 1).
Proof.
  intros H; unfold GradientDamage.evaluate_kappa.
  destruct (Rge_dec eeq kappa); [reflexivity | contradiction].
Qed.

Lemma gradient_kappa_unloading (eeq kappa : R) :
  eeq < kappa -> GradientDamage.evaluate_kappa eeq kappa = (kappa, 0).
Proof.
  intros H; unfold GradientDamage.evaluate_kappa.
  destruct (Rge_dec eeq kappa); [lra | reflexivity].
Qed.

(** The two classes carry the same loading function. *)
Lemma evaluate_kappa_same (eeq kappa : R) :
  GradientDamage.evaluate_kappa eeq kappa = LocalDamage.evaluate_kappa eeq kappa.
Proof. reflexivity. Qed.

(** The committed value is the larger of the driving value and the history. *)
Lemma kappa_is_max (eeq kappa : R) :
  fst (LocalDamage.evaluate_kappa eeq kappa) = Rmax eeq kappa.
Proof.
  unfold LocalDamage.evaluate_kappa, Rmax.
  destruct (Rge_dec eeq kappa), (Rle_dec eeq kappa); simpl; lra.
Qed.

Lemma kappa_not_below (eeq kappa : R) :
  kappa <= fst (LocalDamage.evaluate_kappa eeq kappa).
Proof.
  unfold LocalDamage.evaluate_kappa.
  destruct (Rge_dec eeq kappa); simpl; lra.
Qed.

Lemma kappa_settled (eeq kappa : R) :
  fst (LocalDamage.evaluate_kappa eeq (fst (LocalDamage.evaluate_kappa eeq kappa)))
  = fst (LocalDamage.evaluate_kappa eeq kappa).
Proof.
  unfold LocalDamage.evaluate_kappa.
  destruct (Rge_dec eeq kappa) as [H | H]; simpl.
  - destruct (Rge_dec eeq eeq); [reflexivity | lra].
  - destruct (Rge_dec eeq kappa); [contradiction | reflexivity].
Qed.

(** C1.  For all reals [eeq] and [storedKappa], [evaluate_kappa] of either
    law returns [(eeq, 1)] when [eeq >= storedKappa] and [(storedKappa, 0)]
    when [eeq < storedKappa]; the tie [eeq = storedKappa] is loading, and
    the derivative it returns is 0 or 1. *)
Theorem evaluate_kappa_branches (eeq storedKappa : R) :
  (eeq >= storedKappa ->
     LocalDamage.evaluate_kappa eeq storedKappa = (eeq, 1) /\
     GradientDamage.evaluate_kappa eeq storedKappa = (eeq, 1)) /\
  (eeq < storedKappa ->
     LocalDamage.evaluate_kappa eeq storedKappa = (storedKappa, 0) /\
     GradientDamage.evaluate_kappa eeq storedKappa = (storedKappa, 0)) /\
  (eeq = storedKappa ->
     LocalDamage.evaluate_kappa eeq storedKappa = (eeq, 1) /\
     GradientDamage.evaluate_kappa eeq storedKappa = (eeq, 1)) /\
  (snd (LocalDamage.evaluate_kappa eeq storedKappa) = 0 \/
   snd (LocalDamage.evaluate_kappa eeq storedKappa) = 1) /\
  (snd (GradientDamage.evaluate_kappa eeq storedKappa) = 0 \/
   snd (GradientDamage.evaluate_kappa eeq storedKappa) = 1).
Proof.
  split; [| split; [| split; [| split]]].
  - intros H; split;
      [now apply local_kappa_loading | now apply gradient_kappa_loading].
  - intros H; split;
      [now apply local_kappa_unloading | now apply gradient_kappa_unloading].
  - intros H; split;
      [apply local_kappa_loading | apply gradient_kappa_loading]; lra.
  - unfold LocalDamage.evaluate_kappa;
      destruct (Rge_dec eeq storedKappa); simpl; auto.
  - unfold GradientDamage.evaluate_kappa;
      destruct (Rge_dec eeq storedKappa); simpl; auto.
Qed.

(** Loading at (2, 1), unloading at (1, 2), the tie at (1, 1). *)
Lemma evaluate_kappa_branches_witness :
  LocalDamage.evaluate_kappa 2 1 = (2, 1) /\
  GradientDamage.evaluate_kappa 1 2 = (2, 0) /\
  LocalDamage.evaluate_kappa 1 1 = (1, 1).
Proof.
  split; [| split].
  - apply (proj1 (evaluate_kappa_branches 2 1)); lra.
  - apply (proj1 (proj2 (evaluate_kappa_branches 1 2))); lra.
  - apply (proj1 (proj2 (proj2 (evaluate_kappa_branches 1 1)))); reflexivity.
Defined.

(** ** The exponential damage law *)

Lemma damage_elastic (law : DamageLawExponential.t) (k : R) :
  k <= DamageLawExponential._k0 law ->
  DamageLawExponential.evaluate law k = (0, 0).
Proof.
  intros H; unfold DamageLawExponential.evaluate.
  destruct (Rle_dec k (DamageLawExponential._k0 law));
    [reflexivity | contradiction].
Qed.

Lemma damage_softening (k0 a b k : R) :
  k0 < k ->
  fst (DamageLawExponential.evaluate (DamageLawExponential.new k0 a b) k)
  = 1 - k0 / k * (1 - a + a * exp (b * (k0 - k))).
Proof.
  intros H; unfold DamageLawExponential.evaluate; simpl.
  destruct (Rle_dec k k0); [lra | reflexivity].
Qed.

Lemma exp_le_1 (x : R) : x <= 0 -> exp x <= 1.
Proof.
  intros [H | ->].
  - left. rewrite <- exp_0. now apply exp_increasing.
  - rewrite exp_0. lra.
Qed.

Lemma exp_monotone (x y : R) : x <= y -> exp x <= exp y.
Proof.
  intros [H | ->]; [left; now apply exp_increasing | lra].
Qed.

Lemma softening_range (k0 a b k : R) :
  0 <= a <= 1 -> 0 <= b -> k0 < k -> 0 < softening k0 a b k <= 1.
Proof.
  intros Ha Hb Hk; unfold softening.
  pose proof (exp_pos (b * (k0 - k))) as Hpos.
  assert (Hle : exp (b * (k0 - k)) <= 1) by (apply exp_le_1; nra).
  split; nra.
Qed.

Lemma softening_decreasing (k0 a b k1 k2 : R) :
  0 <= a -> 0 <= b -> k1 <= k2 -> softening k0 a b k2 <= softening k0 a b k1.
Proof.
  intros Ha Hb Hk; unfold softening.
  assert (He : exp (b * (k0 - k2)) <= exp (b * (k0 - k1)))
    by (apply exp_monotone; nra).
  nra.
Qed.

Lemma ratio_range (k0 k : R) : 0 < k0 -> k0 < k -> 0 < k0 / k < 1.
Proof.
  intros H0 Hk.
  assert (Hpos : 0 < k) by lra.
  split.
  - now apply Rdiv_lt_0_compat.
  - apply (Rmult_lt_reg_r k); [exact Hpos |].
    unfold Rdiv. rewrite Rmult_assoc, Rinv_l by lra. lra.
Qed.

Lemma ratio_decreasing (k0 k1 k2 : R) :
  0 < k0 -> 0 < k1 -> k1 < k2 -> k0 / k2 < k0 / k1.
Proof.
  intros H0 H1 H12.
  unfold Rdiv. apply Rmult_lt_compat_l; [exact H0 |].
  apply Rinv_lt_contravar; [nra | exact H12].
Qed.

(** C5.  At or below the threshold the damage law returns (0, 0).  Above
    it, with a positive threshold, a residual fraction [alpha] between 0
    and 1 and a softening rate [beta] that is not negative, omega lies
    strictly between 0 and 1 and is strictly increasing in kappa, from the
    threshold on.  The laws build it with [kappa0 = ft / E] and [beta = ft / gf] (local) or
    [beta] (gradient): positive [E], [ft] and [gf] give such parameters. *)
Theorem damage_law_range_and_growth :
  (forall k0 alpha beta kappa,
      kappa <= k0 ->
      DamageLawExponential.evaluate
        (DamageLawExponential.new k0 alpha beta) kappa = (0, 0)) /\
  (forall k0 alpha beta,
      0 < k0 -> 0 <= alpha <= 1 -> 0 <= beta ->
      (forall kappa,
          k0 < kappa ->
          0 < fst (DamageLawExponential.evaluate
                     (DamageLawExponential.new k0 alpha beta) kappa) < 1) /\
      (forall kappa1 kappa2,
          k0 <= kappa1 -> kappa1 < kappa2 ->
          fst (DamageLawExponential.evaluate
                 (DamageLawExponential.new k0 alpha beta) kappa1)
          < fst (DamageLawExponential.evaluate
                   (DamageLawExponential.new k0 alpha beta) kappa2))) /\
  (forall C E nu c ft alpha gf k,
      0 < E -> 0 < ft -> 0 < gf ->
      LocalDamage._omega (LocalDamage.new C E nu c ft alpha gf k)
      = DamageLawExponential.new (ft / E) alpha (ft / gf) /\
      0 < ft / E /\ 0 <= ft / gf) /\
  (forall C E nu c ft alpha beta k,
      0 < E -> 0 < ft ->
      GradientDamage._omega (GradientDamage.new C E nu c ft alpha beta k)
      = DamageLawExponential.new (ft / E) alpha beta /\
      0 < ft / E).
Proof.
  split; [| split; [| split]].
  - intros k0 alpha beta kappa H. now apply damage_elastic.
  - intros k0 alpha beta H0 Ha Hb. split.
    + intros kappa Hk.
      rewrite damage_softening by exact Hk.
      fold (softening k0 alpha beta kappa).
      pose proof (softening_range k0 alpha beta kappa Ha Hb Hk) as Hs.
      pose proof (ratio_range k0 kappa H0 Hk) as Hr.
      split; nra.
    + intros kappa1 kappa2 [H1 | <-] H12.
      * rewrite !damage_softening by lra.
        fold (softening k0 alpha beta kappa1) (softening k0 alpha beta kappa2).
        pose proof (softening_range k0 alpha beta kappa1 Ha Hb H1) as Hs1.
        assert (Hs : softening k0 alpha beta kappa2
                     <= softening k0 alpha beta kappa1)
          by (apply softening_decreasing; lra).
        assert (Hr : k0 / kappa2 < k0 / kappa1)
          by (apply ratio_decreasing; lra).
        assert (Hr2 : 0 < k0 / kappa2) by (apply ratio_range; lra).
        nra.
      * rewrite (damage_elastic (DamageLawExponential.new k0 alpha beta) k0)
          by (simpl; lra).
        rewrite damage_softening by exact H12.
        fold (softening k0 alpha beta kappa2).
        pose proof (softening_range k0 alpha beta kappa2 Ha Hb H12) as Hs.
        pose proof (ratio_range k0 kappa2 H0 H12) as Hr.
        simpl. nra.
  - intros C E nu c ft alpha gf k HE Hft Hgf.
    split; [reflexivity |].
    split; [now apply Rdiv_lt_0_compat |].
    left. now apply Rdiv_lt_0_compat.
  - intros C E nu c ft alpha beta k HE Hft.
    split; [reflexivity | now apply Rdiv_lt_0_compat].
Qed.

(** The damage law of the scenario: kappa0 = 1/1000, alpha = 0.99 and
    beta = 1/10, at kappa = 0.0005, 0.002 and 0.01. *)
Lemma damage_law_range_and_growth_witness :
  DamageLawExponential.evaluate (LocalDamage._omega scenario_local) 0.0005
  = (0, 0) /\
  0 < fst (DamageLawExponential.evaluate (LocalDamage._omega scenario_local) 0.002)
    < 1 /\
  fst (DamageLawExponential.evaluate (LocalDamage._omega scenario_local) 0.002)
  < fst (DamageLawExponential.evaluate (LocalDamage._omega scenario_local) 0.01).
Proof.
  destruct damage_law_range_and_growth as (Helastic & Hsoft & Hlocal & _).
  destruct (Hlocal uniaxial_C 1000 0.2 UNIAXIAL_STRAIN 1 0.99 10 10)
    as (Hlaw & H0 & Hb); [lra | lra | lra |].
  assert (Ha : 0 <= 0.99 <= 1) by lra.
  destruct (Hsoft (1 / 1000) 0.99 (1 / 10) H0 Ha Hb) as [Hrange Hgrowth].
  split; [| split].
  - apply (Helastic (1 / 1000) 0.99 (1 / 10)). lra.
  - apply Hrange. lra.
  - apply Hgrowth; lra.
Defined.

(** ** The equivalent strain *)

Lemma T3D_rows (nu : R) (c : Constraint) : Eigen.rows (T3D nu c) = 6%nat.
Proof. destruct c; reflexivity. Qed.

Lemma T3D_cols (nu : R) (c : Constraint) : Eigen.cols (T3D nu c) = Dim.Q c.
Proof. destruct c; reflexivity. Qed.

(** The second invariant is a sum of squares. *)
Lemma InvariantJ2_nonneg (v : Eigen.VectorXd) : 0 <= fst (InvariantJ2 v).
Proof.
  unfold InvariantJ2; simpl.
  set (v0 := nth 0 v 0); set (v1 := nth 1 v 0); set (v2 := nth 2 v 0).
  set (v3 := nth 3 v 0); set (v4 := nth 4 v 0); set (v5 := nth 5 v 0).
  pose proof (Rle_0_sqr (v0 - v1)) as H01.
  pose proof (Rle_0_sqr (v1 - v2)) as H12.
  pose proof (Rle_0_sqr (v2 - v0)) as H20.
  pose proof (Rle_0_sqr v3) as H3.
  pose proof (Rle_0_sqr v4) as H4.
  pose proof (Rle_0_sqr v5) as H5.
  unfold Rsqr in *. lra.
Qed.

(** [K2 = 3 / (k (1 + nu)^2)] is not negative when [k > 0].  At [nu = -1]
    the denominator is zero; the proof needs the sign of the quotient only,
    which the total division of the reals also gives there. *)
Lemma K2_nonneg (k nu : R) (c : Constraint) :
  0 < k -> 0 <= ModMisesEeq._K2 (ModMisesEeq.new k nu c).
Proof.
  intros Hk; simpl.
  assert (Hd : 0 <= k * (1 + nu) * (1 + nu)).
  { pose proof (Rle_0_sqr (1 + nu)) as Hs. unfold Rsqr in Hs.
    rewrite Rmult_assoc. apply Rmult_le_pos; lra. }
  unfold Rdiv.
  destruct Hd as [Hd | Hd].
  - apply Rmult_le_pos; [lra |]. left. now apply Rinv_0_lt_compat.
  - rewrite <- Hd, Rinv_0. lra.
Qed.

(** [K1 I1 + sqrt (K1^2 I1^2 + K2 J2)] cannot be negative, so the norm is at
    least the regulariser. *)
Lemma mises_norm_lower_bound (K1 K2 I1 J2 : R) :
  0 <= K2 -> 0 <= J2 ->
  1e-14 <= K1 * I1 + (sqrt (K1 * K1 * I1 * I1 + K2 * J2) + 1e-14).
Proof.
  intros HK HJ.
  assert (Hs : Rabs (K1 * I1) <= sqrt (K1 * K1 * I1 * I1 + K2 * J2)).
  { rewrite <- sqrt_Rsqr_abs.
    apply sqrt_le_1_alt. unfold Rsqr.
    pose proof (Rmult_le_pos _ _ HK HJ). lra. }
  pose proof (Rle_abs (- (K1 * I1))) as Ha.
  rewrite Rabs_Ropp in Ha. lra.
Qed.

(** What [ModMisesEeq::evaluate] returns, when it returns. *)
Lemma ModMisesEeq_evaluate_Ok (m : ModMisesEeq.t) (strain : Eigen.VectorXd)
      (eeq : R) (deeq : Eigen.VectorXd) :
  ModMisesEeq.evaluate m strain = Ok (eeq, deeq) ->
  exists strain3D,
    Eigen.mat_vec (ModMisesEeq._T3D m) strain = Ok strain3D /\
    length deeq = Eigen.cols (ModMisesEeq._T3D m) /\
    eeq = ModMisesEeq._K1 m * fst (InvariantI1 strain3D)
          + (sqrt (ModMisesEeq._K1 m * ModMisesEeq._K1 m
                   * fst (InvariantI1 strain3D) * fst (InvariantI1 strain3D)
                   + ModMisesEeq._K2 m * fst (InvariantJ2 strain3D))
             + 1e-14).
Proof.
  unfold ModMisesEeq.evaluate; intros H.
  bind_inv H. rename a into s3.
  cbn [InvariantI1 InvariantJ2] in H.
  bind_inv H. injection H as <- <-.
  exists s3. split; [exact Hstep |].
  split; [now apply transpose_vec_Ok in Hstep0 | reflexivity].
Qed.

Lemma ModMisesEeq_evaluate_total (m : ModMisesEeq.t) (strain : Eigen.VectorXd) :
  norm_accepts m strain ->
  exists eeq deeq,
    ModMisesEeq.evaluate m strain = Ok (eeq, deeq) /\
    length deeq = length strain.
Proof.
  intros [Hrows Hcols].
  destruct (mat_vec_in_shape (ModMisesEeq._T3D m) strain Hcols) as (s3 & Hs3 & _).
  unfold ModMisesEeq.evaluate.
  rewrite Hs3. cbn [bind InvariantI1 InvariantJ2 fst snd].
  match goal with
  | |- context [Eigen.transpose_vec ?t ?v] =>
      destruct (transpose_vec_in_shape t v) as (back & Hback & Hlb)
  end.
  { now rewrite Hrows. }
  do 2 eexists. cbn zeta. rewrite Hback. cbn [bind].
  split; [reflexivity | congruence].
Qed.

Lemma norm_accepts_new (k nu : R) (c : Constraint) (strain : Eigen.VectorXd) :
  length strain = Dim.Q c -> norm_accepts (ModMisesEeq.new k nu c) strain.
Proof.
  intros H; split; simpl; [apply T3D_rows | now rewrite T3D_cols].
Qed.

(** [ModMisesEeq::evaluate] on a strain of the constraint's dimension: it
    returns, and this is the value of the norm. *)
Lemma ModMisesEeq_evaluate_in_shape (k nu : R) (c : Constraint)
      (strain : Eigen.VectorXd) :
  length strain = Dim.Q c ->
  exists strain3D deeq,
    Eigen.mat_vec (T3D nu c) strain = Ok strain3D /\
    length deeq = Dim.Q c /\
    let m := ModMisesEeq.new k nu c in
    let I1 := fst (InvariantI1 strain3D) in
    let J2 := fst (InvariantJ2 strain3D) in
    ModMisesEeq.evaluate m strain =
    Ok (ModMisesEeq._K1 m * I1
        + (sqrt (ModMisesEeq._K1 m * ModMisesEeq._K1 m * I1 * I1
                 + ModMisesEeq._K2 m * J2) + 1e-14),
        deeq).
Proof.
  intros Hlen.
  destruct (mat_vec_in_shape (T3D nu c) strain) as (s3 & Hs3 & _).
  { now rewrite T3D_cols. }
  unfold ModMisesEeq.evaluate.
  cbn [ModMisesEeq.new ModMisesEeq._T3D ModMisesEeq._K1 ModMisesEeq._K2].
  rewrite Hs3. cbn [bind InvariantI1 InvariantJ2 fst snd].
  match goal with
  | |- context [Eigen.transpose_vec ?m ?v] =>
      destruct (transpose_vec_in_shape m v) as (back & Hback & Hlb)
  end.
  { now rewrite T3D_rows. }
  exists s3, back.
  split; [reflexivity |].
  split; [now rewrite Hlb, T3D_cols |].
  cbn zeta. rewrite Hback. reflexivity.
Qed.

Lemma eeq_positive (k nu : R) (c : Constraint) (strain : Eigen.VectorXd)
      (eeq : R) (deeq : Eigen.VectorXd) :
  0 < k ->
  ModMisesEeq.evaluate (ModMisesEeq.new k nu c) strain = Ok (eeq, deeq) ->
  1e-14 <= eeq.
Proof.
  intros Hk H.
  apply ModMisesEeq_evaluate_Ok in H as (s3 & _ & _ & ->).
  apply mises_norm_lower_bound;
    [now apply K2_nonneg | apply InvariantJ2_nonneg].
Qed.



Section Binary64_instances.

Import PrimFloat.


(** Away from the singular Poisson ratios the binary64 value can still
    lose the regulariser to rounding: under a hydrostatic compression of
    size 57 (k = 10, nu = 0.2, all six components given) the sum
    [K1 * I1 + A] is exactly zero. *)
Example eeq_regulariser_absorbed :
  exists deeq,
    Binary64.ModMisesEeq.evaluate
      (Binary64.ModMisesEeq.new 10%float 0.2%float FULL)
      [(-57)%float; (-57)%float; (-57)%float; 0%float; 0%float; 0%float]
    = Ok (0%float, deeq).
Proof.
  eexists. vm_compute. reflexivity.
Qed.

End Binary64_instances.

(** ** The per-point storage *)

Lemma GetScalar_Ok (q : QValues.t) (i : nat) (x : R) :
  QValues.GetScalar q i = Ok x ->
  QValues._rows q = 1%nat /\ QValues._cols q = 1%nat /\
  (i < length (QValues.data q))%nat /\ nth i (QValues.data q) 0 = x.
Proof.
  unfold QValues.GetScalar; intros H.
  bind_inv H. apply cassert_Ok, Nat.eqb_eq in Hstep.
  bind_inv H. apply cassert_Ok, Nat.eqb_eq in Hstep0.
  apply get_Ok in H; tauto.
Qed.

Lemma GetScalar_in_range (q : QValues.t) (i : nat) :
  QValues._rows q = 1%nat -> QValues._cols q = 1%nat ->
  (i < length (QValues.data q))%nat ->
  QValues.GetScalar q i = Ok (nth i (QValues.data q) 0).
Proof.
  intros Hr Hc Hi; unfold QValues.GetScalar.
  rewrite Hr, Hc; simpl.
  now apply get_in_range.
Qed.

Lemma SetScalar_Ok (q q' : QValues.t) (x : R) (i : nat) :
  QValues.SetScalar q x i = Ok q' ->
  QValues._rows q = 1%nat /\ QValues._cols q = 1%nat /\
  (i < length (QValues.data q))%nat /\
  q' = QValues.with_data q (Eigen.update (QValues.data q) i x).
Proof.
  unfold QValues.SetScalar; intros H.
  bind_inv H. apply cassert_Ok, Nat.eqb_eq in Hstep.
  bind_inv H. apply cassert_Ok, Nat.eqb_eq in Hstep0.
  bind_inv H. apply set_Ok in Hstep1 as [Hi ->].
  injection H as <-; tauto.
Qed.

Lemma SetScalar_in_range (q : QValues.t) (x : R) (i : nat) :
  QValues._rows q = 1%nat -> QValues._cols q = 1%nat ->
  (i < length (QValues.data q))%nat ->
  QValues.SetScalar q x i =
  Ok (QValues.with_data q (Eigen.update (QValues.data q) i x)).
Proof.
  intros Hr Hc Hi; unfold QValues.SetScalar.
  rewrite Hr, Hc; simpl.
  rewrite (set_in_range _ _ _ Hi); reflexivity.
Qed.

Lemma SetMatrix_Ok (q q' : QValues.t) (value : Eigen.MatrixXd) (i : nat) :
  QValues.SetMatrix q value i = Ok q' ->
  let block := (QValues._rows q * QValues._cols q)%nat in
  Eigen.rows value = QValues._rows q /\
  Eigen.cols value = QValues._cols q /\
  (block * i + block <= length (QValues.data q))%nat /\
  length (Eigen.data value) = block /\
  q' = QValues.with_data q
         (firstn (block * i) (QValues.data q) ++ Eigen.data value
          ++ skipn (block * i + block) (QValues.data q)).
Proof.
  unfold QValues.SetMatrix; intros H.
  bind_inv H. apply cassert_Ok, Nat.eqb_eq in Hstep.
  bind_inv H. apply cassert_Ok, Nat.eqb_eq in Hstep0.
  bind_inv H. apply set_segment_Ok in Hstep1 as (Hr & Hs & ->).
  injection H as <-; auto.
Qed.

(** [Get (i)] after a successful [Set (value, i)] is [value]. *)
Lemma Get_after_SetMatrix (q q' : QValues.t) (value : Eigen.MatrixXd) (i : nat) :
  QValues.SetMatrix q value i = Ok q' -> QValues.Get q' i = Ok value.
Proof.
  intros H.
  apply SetMatrix_Ok in H as (Hr & Hc & Hrange & Hlen & ->).
  unfold QValues.Get; simpl.
  rewrite (segment_of_set_segment _ _ _ _ Hrange Hlen); simpl.
  rewrite <- Hr, <- Hc. now destruct value.
Qed.

(** C9.  [QValues::Set (value, i)] fails its assertion exactly when the
    shape of [value] differs from the declared [rows x cols]; with the
    declared shape the assertions pass, the call goes on to the segment
    assignment and, the block of point [i] being allocated (as it is for
    [i < n] after [Resize (n)]), returns with [value] stored there.  The
    scalar [Set] and [GetScalar] fail their assertion exactly when the
    declared shape is not 1 x 1. *)
Theorem QValues_Set_contract (q : QValues.t) :
  (forall value i,
      Eigen.rows value <> QValues._rows q \/ Eigen.cols value <> QValues._cols q ->
      QValues.SetMatrix q value i = Abort AssertFailed) /\
  (forall value i,
      Eigen.rows value = QValues._rows q ->
      Eigen.cols value = QValues._cols q ->
      let block := (QValues._rows q * QValues._cols q)%nat in
      QValues.SetMatrix q value i <> Abort AssertFailed /\
      QValues.SetMatrix q value i
      = (d <- Eigen.set_segment (QValues.data q) (block * i) block
                                (Eigen.data value) ;;
         Ok (QValues.with_data q d)) /\
      (Eigen.wf value ->
       (block * i + block <= length (QValues.data q))%nat ->
       exists q',
         QValues.SetMatrix q value i = Ok q' /\
         QValues.Get q' i = Ok value)) /\
  (forall value n i,
      Eigen.rows value = QValues._rows q ->
      Eigen.cols value = QValues._cols q ->
      Eigen.wf value ->
      (i < n)%nat ->
      exists q',
        QValues.SetMatrix (QValues.Resize q n) value i = Ok q' /\
        QValues.Get q' i = Ok value) /\
  (forall x i,
      QValues._rows q <> 1%nat \/ QValues._cols q <> 1%nat ->
      QValues.SetScalar q x i = Abort AssertFailed /\
      QValues.GetScalar q i = Abort AssertFailed) /\
  (forall x i,
      QValues._rows q = 1%nat ->
      QValues._cols q = 1%nat ->
      QValues.SetScalar q x i <> Abort AssertFailed /\
      QValues.GetScalar q i <> Abort AssertFailed /\
      ((i < length (QValues.data q))%nat ->
       QValues.SetScalar q x i
       = Ok (QValues.with_data q (Eigen.update (QValues.data q) i x)) /\
       QValues.GetScalar q i = Ok (nth i (QValues.data q) 0))).
Proof.
  assert (Hstored : forall p value i,
             Eigen.rows value = QValues._rows p ->
             Eigen.cols value = QValues._cols p ->
             Eigen.wf value ->
             (QValues._rows p * QValues._cols p * i
              + QValues._rows p * QValues._cols p
              <= length (QValues.data p))%nat ->
             exists p',
               QValues.SetMatrix p value i = Ok p' /\
               QValues.Get p' i = Ok value).
  { intros p value i Hr Hc Hwf Hrange.
    assert (Hlen : length (Eigen.data value)
                   = (QValues._rows p * QValues._cols p)%nat).
    { unfold Eigen.wf, Eigen.size in Hwf. now rewrite Hwf, Hr, Hc. }
    assert (Hset : QValues.SetMatrix p value i
                   = Ok (QValues.with_data p
                           (firstn (QValues._rows p * QValues._cols p * i)
                                   (QValues.data p)
                            ++ Eigen.data value
                            ++ skipn (QValues._rows p * QValues._cols p * i
                                      + QValues._rows p * QValues._cols p)
                                     (QValues.data p)))).
    { unfold QValues.SetMatrix.
      rewrite Hr, Hc, !Nat.eqb_refl; cbn [cassert bind].
      rewrite (set_segment_in_range _ _ _ _ Hrange Hlen). reflexivity. }
    eexists. split; [exact Hset |].
    exact (Get_after_SetMatrix _ _ _ _ Hset). }
  split; [| split; [| split; [| split]]].
  - intros value i H. unfold QValues.SetMatrix.
    destruct (Nat.eqb (Eigen.rows value) (QValues._rows q)) eqn:Er; simpl;
      [| reflexivity].
    destruct (Nat.eqb (Eigen.cols value) (QValues._cols q)) eqn:Ec; simpl;
      [| reflexivity].
    apply Nat.eqb_eq in Er, Ec. tauto.
  - intros value i Hr Hc block.
    assert (Hstep :
              QValues.SetMatrix q value i
              = (d <- Eigen.set_segment (QValues.data q) (block * i) block
                                        (Eigen.data value) ;;
                 Ok (QValues.with_data q d))).
    { unfold QValues.SetMatrix.
      rewrite Hr, Hc, !Nat.eqb_refl. reflexivity. }
    split; [| split; [exact Hstep |]].
    + rewrite Hstep. unfold Eigen.set_segment, eigen_assert.
      destruct (Nat.leb _ _); simpl; [| discriminate].
      destruct (Nat.eqb _ _); simpl; discriminate.
    + intros Hwf Hrange. now apply Hstored.
  - intros value n i Hr Hc Hwf Hi.
    apply Hstored; auto.
    simpl. unfold Eigen.setZero. rewrite repeat_length. nia.
  - intros x i H. unfold QValues.SetScalar, QValues.GetScalar.
    destruct (Nat.eqb (QValues._rows q) 1) eqn:Er; simpl; [| auto].
    destruct (Nat.eqb (QValues._cols q) 1) eqn:Ec; simpl; [| auto].
    apply Nat.eqb_eq in Er, Ec. tauto.
  - intros x i Hr Hc.
    unfold QValues.SetScalar, QValues.GetScalar.
    rewrite Hr, Hc; simpl.
    split; [| split].
    + unfold Eigen.set, eigen_assert.
      destruct (Nat.ltb _ _); simpl; discriminate.
    + unfold Eigen.get. destruct (nth_error _ _); discriminate.
    + intros Hi.
      rewrite (set_in_range _ _ _ Hi), (get_in_range _ _ Hi). auto.
Qed.

(** A 2 x 2 quantity sized for two points: a 2 x 1 value is refused, a
    2 x 2 value is stored in the block of point 1; a scalar is refused by
    it and accepted by a 1 x 1 quantity. *)
Lemma QValues_Set_contract_witness :
  QValues.SetMatrix (QValues.Resize (QValues.new 2 2) 2)
                    (Eigen.mkMatrix 2 1 [1; 2]) 1 = Abort AssertFailed /\
  (exists q',
      QValues.SetMatrix (QValues.Resize (QValues.new 2 2) 2)
                        (Eigen.mkMatrix 2 2 [1; 2; 3; 4]) 1 = Ok q' /\
      QValues.Get q' 1 = Ok (Eigen.mkMatrix 2 2 [1; 2; 3; 4])) /\
  QValues.SetScalar (QValues.Resize (QValues.new 2 2) 2) 5 1
  = Abort AssertFailed /\
  QValues.SetScalar (QValues.Resize (QValues.new 1 1) 2) 5 1
  = Ok (QValues.mk 1 1 [0; 5]).
Proof.
  split; [| split; [| split]].
  - apply (proj1 (QValues_Set_contract _)). right. simpl. lia.
  - apply (proj1 (proj2 (proj2 (QValues_Set_contract (QValues.new 2 2))))
             (Eigen.mkMatrix 2 2 [1; 2; 3; 4]) 2%nat 1%nat).
    + reflexivity.
    + reflexivity.
    + reflexivity.
    + lia.
  - apply (proj1 (proj2 (proj2 (proj2 (QValues_Set_contract _))))).
    left. simpl. lia.
  - apply (proj2 (proj2 (proj2 (proj2 (QValues_Set_contract
                                         (QValues.Resize (QValues.new 1 1) 2)))))
             5 1%nat).
    + reflexivity.
    + reflexivity.
    + simpl. lia.
Defined.

Lemma output_Ok (out : outputs) (what : Q) (q : QValues.t) :
  output out what = Ok q -> nth_error out (Q_index what) = Some q.
Proof.
  unfold output.
  destruct (nth_error out (Q_index what)); [congruence | discriminate].
Qed.

Lemma nth_error_replace_nth (out : outputs) (n : nat) (q : QValues.t) :
  (n < length out)%nat -> nth_error (replace_nth out n q) n = Some q.
Proof.
  revert n; induction out as [| p out IH]; intros [| n]; simpl; intros H;
    try lia; auto.
  apply IH; lia.
Qed.

Lemma nth_error_replace_nth_other (out : outputs) (n m : nat) (q : QValues.t) :
  n <> m -> nth_error (replace_nth out n q) m = nth_error out m.
Proof.
  revert n m; induction out as [| p out IH]; intros [| n] [| m] H; simpl;
    auto; try contradiction.
Qed.

Lemma output_Set_Ok (out out' : outputs) (what : Q) (value : Eigen.MatrixXd)
      (i : nat) :
  output_Set out what value i = Ok out' ->
  exists q q',
    output out what = Ok q /\
    QValues.SetMatrix q value i = Ok q' /\
    output out' what = Ok q'.
Proof.
  unfold output_Set; intros H.
  bind_inv H. bind_inv H. injection H as <-.
  exists a, a0. repeat split; auto.
  unfold output.
  rewrite nth_error_replace_nth; [reflexivity |].
  apply output_Ok in Hstep. apply nth_error_Some. congruence.
Qed.

(** Storing into one quantity keeps the shape and the size of all of them. *)
Lemma room_after_store (out : outputs) (what : Q) (q q' : QValues.t) :
  output out what = Ok q ->
  QValues._rows q' = QValues._rows q ->
  QValues._cols q' = QValues._cols q ->
  length (QValues.data q') = length (QValues.data q) ->
  forall other r c j,
    room out other r c j ->
    room (replace_nth out (Q_index what) q') other r c j.
Proof.
  intros Hq Hr Hc Hl other r c j (p & Hp & Hroom).
  destruct (Nat.eq_dec (Q_index what) (Q_index other)) as [E | E].
  - exists q'. unfold output in *. rewrite <- E in *.
    rewrite nth_error_replace_nth.
    + split; [reflexivity |].
      destruct (nth_error out (Q_index what)); [| discriminate].
      injection Hq as ->. injection Hp as ->.
      unfold has_room in *. rewrite Hr, Hc, Hl. exact Hroom.
    + apply nth_error_Some.
      destruct (nth_error out (Q_index what)); [discriminate | discriminate].
  - exists p. unfold output in *.
    rewrite nth_error_replace_nth_other by exact E.
    split; assumption.
Qed.

Lemma output_SetScalar_total (out : outputs) (what : Q) (value : R) (i : nat) :
  room out what 1 1 i ->
  exists out',
    output_SetScalar out what value i = Ok out' /\
    forall other r c j, room out other r c j -> room out' other r c j.
Proof.
  intros (q & Hq & Hr & Hc & Hi).
  unfold output_SetScalar. rewrite Hq; cbn [bind].
  rewrite SetScalar_in_range by (auto; lia); cbn [bind].
  eexists. split; [reflexivity |].
  apply (room_after_store out what q); auto.
  simpl. apply update_length.
Qed.

Lemma output_Set_total (out : outputs) (what : Q) (value : Eigen.MatrixXd)
      (i : nat) :
  Eigen.wf value ->
  room out what (Eigen.rows value) (Eigen.cols value) i ->
  exists out',
    output_Set out what value i = Ok out' /\
    forall other r c j, room out other r c j -> room out' other r c j.
Proof.
  intros Hwf (q & Hq & Hr & Hc & Hi).
  unfold output_Set. rewrite Hq; cbn [bind].
  unfold QValues.SetMatrix.
  rewrite Hr, Hc, !Nat.eqb_refl; cbn [cassert bind].
  rewrite set_segment_in_range by (auto; lia); cbn [bind].
  eexists. split; [reflexivity |].
  apply (room_after_store out what q); auto.
  simpl. apply set_segment_length; [lia | exact Hwf].
Qed.

(** ** What [update] commits *)

(** A successful [LocalDamage::update] overwrites slot [i] and nothing else. *)
Lemma local_update_Ok (law law' : LocalDamage.t) (strain : Eigen.VectorXd) (i : nat) :
  LocalDamage.update law strain i = Ok law' ->
  exists eeq deeq,
    ModMisesEeq.evaluate (LocalDamage._eeq law) strain = Ok (eeq, deeq) /\
    (i < length (LocalDamage._kappa law))%nat /\
    law' = LocalDamage.with_kappa law
             (Eigen.update (LocalDamage._kappa law) i
                (fst (LocalDamage.evaluate_kappa eeq
                        (nth i (LocalDamage._kappa law) 0)))).
Proof.
  unfold LocalDamage.update; intros H.
  bind_inv H. destruct a as [eeq deeq].
  bind_inv H. apply get_Ok in Hstep0 as [Hi <-].
  bind_inv H. apply set_Ok in Hstep0 as [_ ->].
  injection H as <-.
  exists eeq, deeq; auto.
Qed.

Lemma local_update_in_range (law : LocalDamage.t) (strain : Eigen.VectorXd)
      (i : nat) (eeq : R) (deeq : Eigen.VectorXd) :
  ModMisesEeq.evaluate (LocalDamage._eeq law) strain = Ok (eeq, deeq) ->
  (i < length (LocalDamage._kappa law))%nat ->
  LocalDamage.update law strain i =
  Ok (LocalDamage.with_kappa law
        (Eigen.update (LocalDamage._kappa law) i
           (fst (LocalDamage.evaluate_kappa eeq
                   (nth i (LocalDamage._kappa law) 0))))).
Proof.
  intros He Hi; unfold LocalDamage.update.
  rewrite He; simpl.
  rewrite (get_in_range _ _ Hi); simpl.
  rewrite (set_in_range _ _ _ Hi); reflexivity.
Qed.

Lemma local_update_total (law : LocalDamage.t) (strain : Eigen.VectorXd) (i : nat) :
  local_ready law strain i ->
  exists law', LocalDamage.update law strain i = Ok law'.
Proof.
  intros (Hi & Hn & _).
  destruct (ModMisesEeq_evaluate_total _ _ Hn) as (eeq & deeq & He & _).
  eexists. exact (local_update_in_range law strain i eeq deeq He Hi).
Qed.

(** A successful [GradientDamage::update] overwrites slot [i] and nothing
    else; the strain plays no part. *)
Lemma gradient_update_Ok (law law' : GradientDamage.t) (strain : Eigen.VectorXd)
      (neeq : R) (i : nat) :
  GradientDamage.update law strain neeq i = Ok law' ->
  let kappa := GradientDamage._kappa law in
  QValues._rows kappa = 1%nat /\ QValues._cols kappa = 1%nat /\
  (i < length (QValues.data kappa))%nat /\
  law' = GradientDamage.with_kappa law
           (QValues.with_data kappa
              (Eigen.update (QValues.data kappa) i
                 (fst (GradientDamage.evaluate_kappa neeq
                         (nth i (QValues.data kappa) 0))))).
Proof.
  unfold GradientDamage.update; intros H.
  bind_inv H. apply GetScalar_Ok in Hstep as (Hr & Hc & Hi & <-).
  bind_inv H. apply SetScalar_Ok in Hstep as (_ & _ & _ & ->).
  injection H as <-; auto.
Qed.

Lemma gradient_update_in_range (law : GradientDamage.t) (strain : Eigen.VectorXd)
      (neeq : R) (i : nat) :
  let kappa := GradientDamage._kappa law in
  QValues._rows kappa = 1%nat -> QValues._cols kappa = 1%nat ->
  (i < length (QValues.data kappa))%nat ->
  GradientDamage.update law strain neeq i =
  Ok (GradientDamage.with_kappa law
        (QValues.with_data kappa
           (Eigen.update (QValues.data kappa) i
              (fst (GradientDamage.evaluate_kappa neeq
                      (nth i (QValues.data kappa) 0)))))).
Proof.
  intros kappa Hr Hc Hi; subst kappa; unfold GradientDamage.update.
  rewrite (GetScalar_in_range _ _ Hr Hc Hi); simpl.
  rewrite (SetScalar_in_range _ _ _ Hr Hc Hi); reflexivity.
Qed.

Lemma gradient_update_total (law : GradientDamage.t) (strain : Eigen.VectorXd)
      (neeq : R) (i : nat) :
  has_room (GradientDamage._kappa law) 1 1 i ->
  exists law', GradientDamage.update law strain neeq i = Ok law'.
Proof.
  intros (Hr & Hc & Hi).
  eexists. apply gradient_update_in_range; auto; lia.
Qed.

(** One update never lowers a stored value, at the updated slot or elsewhere. *)
Lemma local_update_monotone (law law' : LocalDamage.t) (strain : Eigen.VectorXd)
      (i : nat) :
  LocalDamage.update law strain i = Ok law' ->
  forall j, nth j (LocalDamage._kappa law) 0 <= nth j (LocalDamage._kappa law') 0.
Proof.
  intros H j.
  apply local_update_Ok in H as (eeq & deeq & _ & Hi & ->); simpl.
  destruct (Nat.eq_dec i j) as [<- | Hij].
  - rewrite nth_update_same by exact Hi. apply kappa_not_below.
  - rewrite nth_update_other by exact Hij. lra.
Qed.

Lemma gradient_update_monotone (law law' : GradientDamage.t)
      (strain : Eigen.VectorXd) (neeq : R) (i : nat) :
  GradientDamage.update law strain neeq i = Ok law' ->
  forall j, nth j (QValues.data (GradientDamage._kappa law)) 0
            <= nth j (QValues.data (GradientDamage._kappa law')) 0.
Proof.
  intros H j.
  apply gradient_update_Ok in H as (_ & _ & Hi & ->); simpl.
  destruct (Nat.eq_dec i j) as [<- | Hij].
  - rewrite nth_update_same by exact Hi.
    rewrite evaluate_kappa_same. apply kappa_not_below.
  - rewrite nth_update_other by exact Hij. lra.
Qed.

(** The scenario laws with one zeroed point accept a uniaxial strain. *)
Lemma scenario_local_ready (e : R) :
  local_ready (LocalDamage.with_kappa scenario_local [0]) [e] 0.
Proof.
  split; [simpl; lia |].
  split; [split; reflexivity | reflexivity].
Qed.

Lemma scenario_gradient_room :
  has_room (GradientDamage._kappa (GradientDamage.resize scenario_gradient 1))
           1 1 0.
Proof. repeat split. simpl. lia. Qed.

(** C4.  An update of either law, with any driving value, at any point
    index, leaves every stored kappa at least as large as it was; so does
    any sequence of updates.  The update returns whenever the point is
    allocated (and, for the local law, the strain has the law's
    dimension). *)
Theorem kappa_never_decreases :
  (forall law strain i law',
      LocalDamage.update law strain i = Ok law' ->
      forall j, nth j (LocalDamage._kappa law) 0
                <= nth j (LocalDamage._kappa law') 0) /\
  (forall law strain neeq i law',
      GradientDamage.update law strain neeq i = Ok law' ->
      forall j, nth j (QValues.data (GradientDamage._kappa law)) 0
                <= nth j (QValues.data (GradientDamage._kappa law')) 0) /\
  (forall calls law law',
      local_updates law calls = Ok law' ->
      forall j, nth j (LocalDamage._kappa law) 0
                <= nth j (LocalDamage._kappa law') 0) /\
  (forall calls law law',
      gradient_updates law calls = Ok law' ->
      forall j, nth j (QValues.data (GradientDamage._kappa law)) 0
                <= nth j (QValues.data (GradientDamage._kappa law')) 0) /\
  (forall law strain i,
      local_ready law strain i ->
      exists law', LocalDamage.update law strain i = Ok law') /\
  (forall law strain neeq i,
      has_room (GradientDamage._kappa law) 1 1 i ->
      exists law', GradientDamage.update law strain neeq i = Ok law').
Proof.
  split; [| split; [| split; [| split; [| split]]]].
  - intros law strain i law'; apply local_update_monotone.
  - intros law strain neeq i law'; apply gradient_update_monotone.
  - induction calls as [| [strain i] rest IH]; simpl; intros law law' H j.
    + injection H as <-; lra.
    + bind_inv H.
      apply Rle_trans with (nth j (LocalDamage._kappa a) 0).
      * now apply (local_update_monotone law a strain i).
      * now apply IH.
  - induction calls as [| [[strain neeq] i] rest IH]; simpl; intros law law' H j.
    + injection H as <-; lra.
    + bind_inv H.
      apply Rle_trans with (nth j (QValues.data (GradientDamage._kappa a)) 0).
      * now apply (gradient_update_monotone law a strain neeq i).
      * now apply IH.
  - exact local_update_total.
  - exact gradient_update_total.
Qed.

(** One committed step of each law: the gradient law at nonlocal strain
    0.002, the local law at strain 0.01, both from a zeroed history. *)
Lemma kappa_never_decreases_witness :
  (exists law',
      GradientDamage.update (GradientDamage.resize scenario_gradient 1)
                            [0.01] 0.002 0 = Ok law' /\
      nth 0 (QValues.data (GradientDamage._kappa
                             (GradientDamage.resize scenario_gradient 1))) 0
      <= nth 0 (QValues.data (GradientDamage._kappa law')) 0) /\
  (exists law',
      LocalDamage.update (LocalDamage.with_kappa scenario_local [0])
                         [0.01] 0 = Ok law' /\
      nth 0 (LocalDamage._kappa (LocalDamage.with_kappa scenario_local [0])) 0
      <= nth 0 (LocalDamage._kappa law') 0).
Proof.
  destruct kappa_never_decreases as (Hl & Hg & _ & _ & Tl & Tg).
  split.
  - destruct (Tg _ [0.01] 0.002 0%nat scenario_gradient_room) as (law' & H).
    exists law'. split; [exact H |].
    exact (Hg _ _ _ _ _ H 0%nat).
  - destruct (Tl _ _ _ (scenario_local_ready 0.01)) as (law' & H).
    exists law'. split; [exact H |].
    exact (Hl _ _ _ _ H 0%nat).
Defined.

(** C8.  A second update with the same input, right after a first one,
    returns the state the first one left: the stored kappa is committed
    once and not accumulated.  This holds for both laws, whatever the
    history and the input, and both updates return whenever the point is
    allocated. *)
Theorem update_twice_is_update_once :
  (forall law strain i law1,
      LocalDamage.update law strain i = Ok law1 ->
      LocalDamage.update law1 strain i = Ok law1) /\
  (forall law strain neeq i law1,
      GradientDamage.update law strain neeq i = Ok law1 ->
      GradientDamage.update law1 strain neeq i = Ok law1) /\
  (forall law strain i,
      local_ready law strain i ->
      exists law1,
        LocalDamage.update law strain i = Ok law1 /\
        LocalDamage.update law1 strain i = Ok law1) /\
  (forall law strain neeq i,
      has_room (GradientDamage._kappa law) 1 1 i ->
      exists law1,
        GradientDamage.update law strain neeq i = Ok law1 /\
        GradientDamage.update law1 strain neeq i = Ok law1).
Proof.
  assert (Hlocal : forall law strain i law1,
             LocalDamage.update law strain i = Ok law1 ->
             LocalDamage.update law1 strain i = Ok law1).
  { intros law strain i law1 H.
    apply local_update_Ok in H as (eeq & deeq & He & Hi & ->).
    rewrite (local_update_in_range _ strain i eeq deeq).
    - f_equal. unfold LocalDamage.with_kappa; simpl. f_equal.
      rewrite nth_update_same by exact Hi.
      rewrite kappa_settled. apply update_twice.
    - exact He.
    - simpl. now rewrite update_length. }
  assert (Hgradient : forall law strain neeq i law1,
             GradientDamage.update law strain neeq i = Ok law1 ->
             GradientDamage.update law1 strain neeq i = Ok law1).
  { intros law strain neeq i law1 H.
    apply gradient_update_Ok in H as (Hr & Hc & Hi & ->).
    rewrite gradient_update_in_range.
    - f_equal. unfold GradientDamage.with_kappa, QValues.with_data; simpl.
      do 2 f_equal.
      rewrite nth_update_same by exact Hi.
      rewrite !evaluate_kappa_same, kappa_settled. apply update_twice.
    - exact Hr.
    - exact Hc.
    - simpl. now rewrite update_length. }
  split; [exact Hlocal | split; [exact Hgradient | split]].
  - intros law strain i Hready.
    destruct (local_update_total law strain i Hready) as (law1 & H).
    exists law1. split; [exact H | exact (Hlocal _ _ _ _ H)].
  - intros law strain neeq i Hroom.
    destruct (gradient_update_total law strain neeq i Hroom) as (law1 & H).
    exists law1. split; [exact H | exact (Hgradient _ _ _ _ _ H)].
Qed.

(** One update of each scenario law from a zeroed history, repeated. *)
Lemma update_twice_is_update_once_witness :
  (exists law1,
      GradientDamage.update (GradientDamage.resize scenario_gradient 1)
                            [0.01] 0.002 0 = Ok law1 /\
      GradientDamage.update law1 [0.01] 0.002 0 = Ok law1) /\
  (exists law1,
      LocalDamage.update (LocalDamage.with_kappa scenario_local [0])
                         [0.01] 0 = Ok law1 /\
      LocalDamage.update law1 [0.01] 0 = Ok law1).
Proof.
  destruct update_twice_is_update_once as (_ & _ & Tl & Tg).
  split.
  - exact (Tg _ [0.01] 0.002 0%nat scenario_gradient_room).
  - exact (Tl _ _ _ (scenario_local_ready 0.01)).
Defined.

(** ** Allocation of the history *)

(** The gradient law clears its history on every resize. *)
Lemma gradient_resize_zeroed (law : GradientDamage.t) (n : nat) :
  QValues._rows (GradientDamage._kappa law) = 1%nat ->
  QValues._cols (GradientDamage._kappa law) = 1%nat ->
  QValues.data (GradientDamage._kappa (GradientDamage.resize law n))
  = repeat 0 n.
Proof.
  intros Hr Hc; simpl. unfold Eigen.setZero.
  rewrite Hr, Hc. f_equal. lia.
Qed.

Lemma gradient_new_resize_zeroed (C : elasticity) (E nu : R) (c : Constraint)
      (ft alpha beta k : R) (n : nat) :
  let law := GradientDamage.resize (GradientDamage.new C E nu c ft alpha beta k) n in
  length (QValues.data (GradientDamage._kappa law)) = n /\
  forall j, nth j (QValues.data (GradientDamage._kappa law)) 0 = 0.
Proof.
  intros law; subst law.
  rewrite gradient_resize_zeroed by reflexivity.
  split; [apply repeat_length |].
  intros j. destruct (Nat.lt_ge_cases j n) as [Hj | Hj].
  - now rewrite nth_repeat_lt.
  - apply nth_overflow. now rewrite repeat_length.
Qed.

(** The local law hands the resize to Eigen: the first allocation holds
    whatever the allocator left there. *)
Lemma local_first_resize (heap : nat -> R) (law : LocalDamage.t) (n : nat) :
  length (LocalDamage._kappa law) <> n ->
  LocalDamage._kappa (LocalDamage.resize heap law n) = map heap (seq 0 n).
Proof.
  intros H; simpl. unfold Eigen.resize.
  apply Nat.eqb_neq in H. now rewrite H.
Qed.

Example local_resize_exposes_allocation :
  LocalDamage._kappa (LocalDamage.resize (fun _ => 1) scenario_local 2) = [1; 1] /\
  QValues.data (GradientDamage._kappa (GradientDamage.resize scenario_gradient 2))
  = [0; 0].
Proof. split; reflexivity. Qed.

(** C2.  [LocalDamage::resize (n)] does not clear the history.  Take the
    scenario law, [resize (1)], one [update] at strain 0.01 and [resize (1)]
    again: the array has length 1 and its entry is still the positive kappa
    that the update committed, whatever the allocator returned.  (The
    gradient law does clear it: [gradient_new_resize_zeroed].) *)
Theorem local_resize_keeps_history (heap : nat -> R) :
  exists law1,
    LocalDamage.update (LocalDamage.resize heap scenario_local 1) [0.01] 0
    = Ok law1 /\
    length (LocalDamage._kappa (LocalDamage.resize heap law1 1)) = 1%nat /\
    LocalDamage._kappa (LocalDamage.resize heap law1 1) = LocalDamage._kappa law1 /\
    0 < nth 0 (LocalDamage._kappa (LocalDamage.resize heap law1 1)) 0.
Proof.
  destruct (ModMisesEeq_evaluate_in_shape 10 0.2 UNIAXIAL_STRAIN [0.01] eq_refl)
    as (s3 & deeq & _ & _ & He).
  cbv zeta in He.
  pose proof (eeq_positive 10 0.2 UNIAXIAL_STRAIN [0.01] _ _ ltac:(lra) He)
    as Hpos.
  pose proof (local_update_in_range
                (LocalDamage.resize heap scenario_local 1) [0.01] 0 _ _
                He (le_n 1)) as H.
  eexists. split; [exact H |].
  split; [reflexivity |].
  split; [reflexivity |].
  cbn [LocalDamage.resize LocalDamage.with_kappa LocalDamage._kappa
       Eigen.resize Eigen.update scenario_local LocalDamage.new
       length Nat.eqb map seq nth].
  match goal with
  | |- 0 < fst (LocalDamage.evaluate_kappa ?e ?s) =>
      pose proof (kappa_is_max e s) as Hmax;
      pose proof (Rmax_l e s)
  end.
  lra.
Qed.

(** ** [evaluate] is a trial *)

Lemma local_evaluate_keeps_law (law law' : LocalDamage.t)
      (strain : Eigen.VectorXd) (i : nat)
      (r : Eigen.VectorXd * Eigen.MatrixXd) :
  LocalDamage.evaluate law strain i = Ok (law', r) -> law' = law.
Proof.
  unfold LocalDamage.evaluate; intros H.
  bind_inv H. destruct a as [eeq deeq].
  bind_inv H.
  destruct (LocalDamage.evaluate_kappa eeq a) as [kappa dkappa].
  destruct (DamageLawExponential.evaluate (LocalDamage._omega law) kappa)
    as [omega domega].
  do 3 bind_inv H.
  now injection H as <- _.
Qed.

Lemma gradient_evaluate_keeps_law (law law' : GradientDamage.t)
      (strain : Eigen.VectorXd) (e : R) (out out' : outputs) (i : nat) :
  GradientDamage.evaluate law strain e out i = Ok (law', out') -> law' = law.
Proof.
  unfold GradientDamage.evaluate; intros H.
  bind_inv H.
  destruct (GradientDamage.evaluate_kappa e a) as [kappa dkappa].
  destruct (DamageLawExponential.evaluate (GradientDamage._omega law) kappa)
    as [omega domega].
  bind_inv H. destruct a0 as [eeq deeq].
  do 7 bind_inv H.
  now injection H as <- _.
Qed.

Lemma evaluate_from_keeps_law (count : nat) :
  forall law q all_strains all_neeq out i law' out',
    IpLoop.evaluate_from law q all_strains all_neeq out i count = Ok (law', out') ->
    law' = law.
Proof.
  induction count as [| count IH]; simpl; intros law q s e out i law' out' H.
  - now injection H as <- _.
  - do 3 bind_inv H. destruct a1 as [law1 out1].
    apply gradient_evaluate_keeps_law in Hstep1 as ->.
    now apply IH in H.
Qed.

Lemma local_evaluate_total (law : LocalDamage.t) (strain : Eigen.VectorXd) (i : nat) :
  local_ready law strain i ->
  exists r, LocalDamage.evaluate law strain i = Ok (law, r).
Proof.
  intros (Hi & Hn & Hc).
  destruct (ModMisesEeq_evaluate_total _ _ Hn) as (eeq & deeq & He & Hld).
  unfold LocalDamage.evaluate.
  rewrite He; cbn [bind].
  rewrite (get_in_range _ _ Hi); cbn [bind].
  destruct (LocalDamage.evaluate_kappa eeq _) as [kappa dkappa].
  destruct (DamageLawExponential.evaluate _ kappa) as [omega domega].
  destruct (mat_vec_in_shape (Eigen.scale (1 - omega) (LocalDamage._C law)) strain)
    as (stress & Hs & _); [exact Hc |].
  destruct (mat_vec_in_shape (LocalDamage._C law) strain)
    as (Cs & HCs & HlCs); [exact Hc |].
  rewrite Hs, HCs; cbn [bind].
  unfold Eigen.sub.
  rewrite outer_rows, outer_cols, !vtimes_length, HlCs, Hld.
  cbn [Eigen.scale Eigen.rows Eigen.cols].
  rewrite Hc, !Nat.eqb_refl; cbn [andb eigen_assert bind].
  eexists; reflexivity.
Qed.

(** [GradientDamage::evaluate] returns when its caller has sized the law
    and the outputs; it leaves them sized. *)
Lemma gradient_evaluate_total (law : GradientDamage.t) (strain : Eigen.VectorXd)
      (e : R) (out : outputs) (i : nat) :
  gradient_ready law out strain i ->
  exists out',
    GradientDamage.evaluate law strain e out i = Ok (law, out') /\
    forall other r c j, room out other r c j -> room out' other r c j.
Proof.
  intros ((Hkr & Hkc & Hki) & Hn & Hwf & Hc & R1 & R2 & R3 & R4 & R5).
  destruct (ModMisesEeq_evaluate_total _ _ Hn) as (eeq & deeq & He & Hld).
  unfold GradientDamage.evaluate.
  rewrite GetScalar_in_range by (auto; lia); cbn [bind].
  destruct (GradientDamage.evaluate_kappa e _) as [kappa dkappa].
  destruct (DamageLawExponential.evaluate _ kappa) as [omega domega].
  rewrite He; cbn [bind].
  destruct (output_SetScalar_total out EEQ eeq i R1) as (o1 & H1 & P1).
  rewrite H1; cbn [bind].
  destruct (mat_vec_in_shape (Eigen.scale (1 - omega) (GradientDamage._C law)) strain)
    as (sigma & Hs & Hls); [exact Hc |].
  rewrite Hs; cbn [bind].
  destruct (output_Set_total o1 SIGMA (Eigen.as_matrix sigma) i) as (o2 & H2 & P2).
  { unfold Eigen.wf, Eigen.size; simpl; lia. }
  { simpl. rewrite Hls. apply P1, R2. }
  rewrite H2; cbn [bind].
  destruct (output_Set_total o2 DEEQ (Eigen.as_matrix deeq) i) as (o3 & H3 & P3).
  { unfold Eigen.wf, Eigen.size; simpl; lia. }
  { simpl. rewrite Hld. apply P2, P1, R3. }
  rewrite H3; cbn [bind].
  destruct (mat_vec_in_shape (Eigen.opp (GradientDamage._C law)) strain)
    as (mCs & Hm & Hlm); [exact Hc |].
  rewrite Hm; cbn [bind].
  destruct (output_Set_total o3 DSIGMA_DE
              (Eigen.as_matrix (Eigen.vtimes (Eigen.vtimes mCs domega) dkappa)) i)
    as (o4 & H4 & P4).
  { unfold Eigen.wf, Eigen.size; simpl; lia. }
  { simpl. rewrite !vtimes_length, Hlm. apply P3, P2, P1, R4. }
  rewrite H4; cbn [bind].
  destruct (output_Set_total o4 DSIGMA_DEPS
              (Eigen.scale (1 - omega) (GradientDamage._C law)) i)
    as (o5 & H5 & P5).
  { unfold Eigen.wf, Eigen.size in *; simpl. now rewrite length_map. }
  { simpl. apply P4, P3, P2, P1, R5. }
  rewrite H5; cbn [bind].
  exists o5. split; [reflexivity |].
  intros other r c j H. apply P5, P4, P3, P2, P1, H.
Qed.

(** ** The passes of the driver return *)

Lemma sized_ready (law : GradientDamage.t) (out : outputs) (n i : nat)
      (strain : Eigen.VectorXd) :
  driver_sized law out n -> (i < n)%nat ->
  length strain = Eigen.rows (GradientDamage._C law) ->
  gradient_ready law out strain i.
Proof.
  intros (Hwf & Hsq & Hr & Hc & Hall) Hi Hlen.
  destruct (Hall i Hi) as [Hk Hout].
  unfold gradient_ready, norm_accepts.
  rewrite Hlen.
  split; [exact Hk |].
  split; [split; assumption |].
  split; [exact Hwf |].
  split; [now symmetry | exact Hout].
Qed.

Lemma sized_after_store (law : GradientDamage.t) (out out' : outputs) (n : nat) :
  driver_sized law out n ->
  (forall other r c j, room out other r c j -> room out' other r c j) ->
  driver_sized law out' n.
Proof.
  intros (Hwf & Hsq & Hr & Hc & Hall) Hkeep.
  unfold driver_sized. do 4 (split; [assumption |]).
  intros i Hi.
  destruct (Hall i Hi) as (Hk & R1 & R2 & R3 & R4 & R5).
  split; [exact Hk |].
  unfold outputs_ready.
  do 4 (split; [now apply Hkeep |]). now apply Hkeep.
Qed.

Lemma evaluate_from_total (n : nat) (all_strains all_neeq : Eigen.VectorXd)
      (law : GradientDamage.t) :
  length all_strains = (n * Eigen.rows (GradientDamage._C law))%nat ->
  length all_neeq = n ->
  forall count i out,
    (i + count <= n)%nat ->
    driver_sized law out n ->
    exists out',
      IpLoop.evaluate_from law (GradientDamage.qdim law) all_strains all_neeq
                           out i count = Ok (law, out') /\
      driver_sized law out' n.
Proof.
  intros Hs He.
  unfold GradientDamage.qdim.
  induction count as [| count IH]; intros i out Hi Hsized; simpl.
  - exists out; auto.
  - destruct (segment_in_range all_strains
                (i * Eigen.rows (GradientDamage._C law))
                (Eigen.rows (GradientDamage._C law)))
      as (strain & Hstrain & Hlen); [nia |].
    rewrite Hstrain; cbn [bind].
    rewrite get_in_range by lia; cbn [bind].
    destruct (gradient_evaluate_total law strain (nth i all_neeq 0) out i)
      as (out1 & Hev & Hkeep).
    { apply (sized_ready law out n); [exact Hsized | lia | exact Hlen]. }
    rewrite Hev; cbn [bind].
    apply IH; [lia |].
    exact (sized_after_store law out out1 n Hsized Hkeep).
Qed.

Lemma sized_after_update (law law' : GradientDamage.t) (strain : Eigen.VectorXd)
      (neeq : R) (i n : nat) (out : outputs) :
  GradientDamage.update law strain neeq i = Ok law' ->
  driver_sized law out n -> driver_sized law' out n.
Proof.
  intros H (Hwf & Hsq & Hr & Hc & Hall).
  apply gradient_update_Ok in H as (_ & _ & _ & ->).
  unfold driver_sized; simpl. do 4 (split; [assumption |]).
  intros j Hj.
  destruct (Hall j Hj) as ((Hkr & Hkc & Hki) & Hout).
  split; [| exact Hout].
  unfold has_room; simpl.
  rewrite update_length. auto.
Qed.

Lemma update_from_total (n : nat) (all_strains all_neeq : Eigen.VectorXd)
      (out : outputs) (q : nat) :
  length all_strains = (n * q)%nat ->
  length all_neeq = n ->
  forall count i law,
    (i + count <= n)%nat ->
    driver_sized law out n ->
    exists law',
      IpLoop.update_from law q all_strains all_neeq i count = Ok law' /\
      driver_sized law' out n.
Proof.
  intros Hs He.
  induction count as [| count IH]; intros i law Hi Hsized; simpl.
  - exists law; auto.
  - destruct (segment_in_range all_strains (i * q) q)
      as (strain & Hstrain & _); [nia |].
    rewrite Hstrain; cbn [bind].
    rewrite get_in_range by lia; cbn [bind].
    destruct (gradient_update_total law strain (nth i all_neeq 0) i)
      as (law1 & Hup).
    { apply Hsized. lia. }
    rewrite Hup; cbn [bind].
    apply IH; [lia |].
    exact (sized_after_update law law1 strain _ i n out Hup Hsized).
Qed.

(** The constructor of the driver allocates the five outputs. *)
Lemma IpLoop_new_allocates (law : GradientDamage.t) :
  let q := Eigen.rows (GradientDamage._C law) in
  IpLoop.new law =
  Ok (IpLoop.mk law
        [QValues.default; QValues.new q 1; QValues.new q q;
         QValues.new 1 1; QValues.new q 1; QValues.new q 1]
        0).
Proof. reflexivity. Qed.

(** After [resize (n)] the driver is sized for [n] points. *)
Lemma IpLoop_resize_sized (law : GradientDamage.t) (loop0 : IpLoop.t) (n : nat) :
  IpLoop.new law = Ok loop0 ->
  QValues._rows (GradientDamage._kappa law) = 1%nat ->
  QValues._cols (GradientDamage._kappa law) = 1%nat ->
  Eigen.wf (GradientDamage._C law) ->
  Eigen.rows (GradientDamage._C law) = Eigen.cols (GradientDamage._C law) ->
  norm_accepts (GradientDamage._strain_norm law)
               (repeat 0 (Eigen.rows (GradientDamage._C law))) ->
  driver_sized (IpLoop._law (IpLoop.resize loop0 n))
               (IpLoop._outputs (IpLoop.resize loop0 n)) n.
Proof.
  intros Hnew Hkr Hkc Hwf Hsq [Hr Hc].
  rewrite IpLoop_new_allocates in Hnew. injection Hnew as <-.
  rewrite repeat_length in Hc.
  unfold driver_sized; simpl. do 4 (split; [assumption |]).
  intros i Hi.
  assert (Hfit : forall r c : nat,
             (r * c * i + r * c <= length (Eigen.setZero (n * r * c)))%nat).
  { intros r c. unfold Eigen.setZero. rewrite repeat_length. nia. }
  split.
  - unfold has_room.
    split; [exact Hkr | split; [exact Hkc |]].
    cbn [GradientDamage.resize GradientDamage.with_kappa GradientDamage._kappa
         QValues.Resize QValues.with_data QValues.data].
    rewrite Hkr, Hkc. apply Hfit.
  - unfold outputs_ready, room, has_room.
    cbn [GradientDamage.resize GradientDamage.with_kappa GradientDamage._C].
    rewrite <- Hsq.
    do 4 (split;
          [eexists; split;
           [reflexivity | split; [reflexivity | split; [reflexivity | apply Hfit]]] |]).
    eexists; split;
      [reflexivity | split; [reflexivity | split; [reflexivity | apply Hfit]]].
Qed.

(** Both passes of a sized driver return, on arrays of [n] strains and [n]
    nonlocal strains. *)
Lemma IpLoop_passes_total (loop : IpLoop.t)
      (all_strains all_neeq : Eigen.VectorXd) :
  driver_sized (IpLoop._law loop) (IpLoop._outputs loop) (IpLoop._n loop) ->
  length all_strains
  = (IpLoop._n loop * GradientDamage.qdim (IpLoop._law loop))%nat ->
  length all_neeq = IpLoop._n loop ->
  (exists loop', IpLoop.evaluate loop all_strains all_neeq = Ok loop') /\
  (exists loop', IpLoop.update loop all_strains all_neeq = Ok loop').
Proof.
  intros Hsized Hs He. split.
  - unfold IpLoop.evaluate.
    destruct (evaluate_from_total (IpLoop._n loop) all_strains all_neeq
                (IpLoop._law loop) Hs He (IpLoop._n loop) 0
                (IpLoop._outputs loop)) as (out' & Hev & _);
      [lia | exact Hsized |].
    rewrite Hev; cbn [bind]. eexists; reflexivity.
  - unfold IpLoop.update.
    destruct (update_from_total (IpLoop._n loop) all_strains all_neeq
                (IpLoop._outputs loop) (GradientDamage.qdim (IpLoop._law loop))
                Hs He (IpLoop._n loop) 0 (IpLoop._law loop)) as (law' & Hup & _);
      [lia | exact Hsized |].
    rewrite Hup; cbn [bind]. eexists; reflexivity.
Qed.

(** The driver of the scenario, sized for one point. *)
Lemma scenario_loop_sized :
  exists out,
    scenario_loop
    = Ok (IpLoop.mk (GradientDamage.resize scenario_gradient 1) out 1) /\
    driver_sized (GradientDamage.resize scenario_gradient 1) out 1.
Proof.
  eexists. split; [reflexivity |].
  apply (IpLoop_resize_sized scenario_gradient _ 1
           (IpLoop_new_allocates scenario_gradient));
    try reflexivity.
  split; reflexivity.
Qed.

(** ** The history across [evaluate] *)

(** C3.  [evaluate] of either law, for any strain, point index and
    nonlocal equivalent strain, returns with the history array as it found
    it, at every index, and so does a whole evaluation pass of the driver.
    It does return, with the law unchanged, whenever its caller has sized
    the law and the outputs.  [update] is the operation that writes to the
    history. *)
Theorem evaluate_leaves_history :
  (forall law strain i law' r,
      LocalDamage.evaluate law strain i = Ok (law', r) ->
      LocalDamage._kappa law' = LocalDamage._kappa law /\
      forall j, nth j (LocalDamage._kappa law') 0
                = nth j (LocalDamage._kappa law) 0) /\
  (forall law strain e out i law' out',
      GradientDamage.evaluate law strain e out i = Ok (law', out') ->
      GradientDamage._kappa law' = GradientDamage._kappa law /\
      forall j, nth j (QValues.data (GradientDamage._kappa law')) 0
                = nth j (QValues.data (GradientDamage._kappa law)) 0) /\
  (forall loop all_strains all_neeq loop',
      IpLoop.evaluate loop all_strains all_neeq = Ok loop' ->
      GradientDamage._kappa (IpLoop._law loop')
      = GradientDamage._kappa (IpLoop._law loop)) /\
  (forall law strain i,
      local_ready law strain i ->
      exists r, LocalDamage.evaluate law strain i = Ok (law, r)) /\
  (forall law strain e out i,
      gradient_ready law out strain i ->
      exists out', GradientDamage.evaluate law strain e out i = Ok (law, out')) /\
  (forall law strain neeq i law',
      GradientDamage.update law strain neeq i = Ok law' ->
      nth i (QValues.data (GradientDamage._kappa law)) 0 < neeq ->
      nth i (QValues.data (GradientDamage._kappa law')) 0 = neeq /\
      GradientDamage._kappa law' <> GradientDamage._kappa law).
Proof.
  split; [| split; [| split; [| split; [| split]]]].
  - intros law strain i law' r H.
    apply local_evaluate_keeps_law in H as ->. auto.
  - intros law strain e out i law' out' H.
    apply gradient_evaluate_keeps_law in H as ->. auto.
  - intros loop s e loop' H.
    unfold IpLoop.evaluate in H.
    bind_inv H. destruct a as [law out].
    apply evaluate_from_keeps_law in Hstep as ->.
    now injection H as <-.
  - exact local_evaluate_total.
  - intros law strain e out i Hready.
    destruct (gradient_evaluate_total law strain e out i Hready) as (out' & H & _).
    now exists out'.
  - intros law strain neeq i law' H Hlt.
    apply gradient_update_Ok in H as (_ & _ & Hi & ->); simpl.
    rewrite nth_update_same by exact Hi.
    rewrite gradient_kappa_loading by lra; simpl.
    split; [reflexivity |].
    intros Heq.
    apply (f_equal (fun q => nth i (QValues.data q) 0)) in Heq.
    simpl in Heq. rewrite nth_update_same in Heq by exact Hi. lra.
Qed.

(** A trial evaluation of the local scenario law, and one of the gradient
    scenario law writing into the outputs of its driver. *)
Lemma evaluate_leaves_history_witness :
  (exists law' r,
      LocalDamage.evaluate (LocalDamage.with_kappa scenario_local [0]) [0.0005] 0
      = Ok (law', r) /\
      LocalDamage._kappa law' = [0]) /\
  (exists out law' out',
      scenario_loop
      = Ok (IpLoop.mk (GradientDamage.resize scenario_gradient 1) out 1) /\
      GradientDamage.evaluate (GradientDamage.resize scenario_gradient 1)
                              [0.01] 0.002 out 0 = Ok (law', out') /\
      GradientDamage._kappa law'
      = GradientDamage._kappa (GradientDamage.resize scenario_gradient 1)).
Proof.
  destruct evaluate_leaves_history as (Fl & Fg & _ & Tl & Tg & _).
  split.
  - destruct (Tl _ _ _ (scenario_local_ready 0.0005)) as (r & H).
    eexists; exists r. split; [exact H |].
    exact (proj1 (Fl _ _ _ _ _ H)).
  - destruct scenario_loop_sized as (out & Hl & Hs).
    destruct (Tg _ [0.01] 0.002 out 0%nat
                 (sized_ready _ _ 1 0 [0.01] Hs (le_n 1) eq_refl))
      as (out' & H).
    exists out; eexists; exists out'.
    split; [exact Hl | split; [exact H |]].
    exact (proj1 (Fg _ _ _ _ _ _ _ H)).
Defined.

(** ** The tangent of the gradient law *)

(** C6.  The gradient law's [evaluate] writes, in the block of point [i]
    of the output DSIGMA_DEPS, exactly [(1 - omega) * C], with [omega] the
    damage at the kappa that the nonlocal strain [e] and the stored history
    give: the secant stiffness, with no term in the local strain.  This is
    what the output holds whenever [evaluate] returns, and it returns
    whenever its caller has sized the law and the outputs. *)
Theorem gradient_tangent_is_secant :
  (forall law law' strain e out out' i,
      GradientDamage.evaluate law strain e out i = Ok (law', out') ->
      exists stored q,
        QValues.GetScalar (GradientDamage._kappa law) i = Ok stored /\
        output out' DSIGMA_DEPS = Ok q /\
        let kappa := fst (GradientDamage.evaluate_kappa e stored) in
        let omega := fst (DamageLawExponential.evaluate
                            (GradientDamage._omega law) kappa) in
        QValues.Get q i = Ok (Eigen.scale (1 - omega) (GradientDamage._C law))) /\
  (forall law strain e out i,
      gradient_ready law out strain i ->
      exists out' q,
        GradientDamage.evaluate law strain e out i = Ok (law, out') /\
        output out' DSIGMA_DEPS = Ok q /\
        let stored := nth i (QValues.data (GradientDamage._kappa law)) 0 in
        let kappa := fst (GradientDamage.evaluate_kappa e stored) in
        let omega := fst (DamageLawExponential.evaluate
                            (GradientDamage._omega law) kappa) in
        QValues.Get q i = Ok (Eigen.scale (1 - omega) (GradientDamage._C law))).
Proof.
  assert (Hwritten : forall law law' strain e out out' i,
             GradientDamage.evaluate law strain e out i = Ok (law', out') ->
             exists stored q,
               QValues.GetScalar (GradientDamage._kappa law) i = Ok stored /\
               output out' DSIGMA_DEPS = Ok q /\
               QValues.Get q i =
               Ok (Eigen.scale
                     (1 - fst (DamageLawExponential.evaluate
                                 (GradientDamage._omega law)
                                 (fst (GradientDamage.evaluate_kappa e stored))))
                     (GradientDamage._C law))).
  { intros law law' strain e out out' i H.
    unfold GradientDamage.evaluate in H.
    bind_inv H. rename a into stored.
    exists stored.
    destruct (GradientDamage.evaluate_kappa e stored) as [kappa dkappa].
    cbn [fst].
    destruct (DamageLawExponential.evaluate (GradientDamage._omega law) kappa)
      as [omega domega].
    bind_inv H. destruct a as [eeq deeq].
    do 6 bind_inv H.
    bind_inv H. injection H as _ <-.
    apply output_Set_Ok in Hstep7 as (q & q' & _ & Hset & Hout).
    exists q'. simpl.
    repeat split; auto.
    now apply Get_after_SetMatrix in Hset. }
  split; [exact Hwritten |].
  intros law strain e out i Hready.
  destruct (gradient_evaluate_total law strain e out i Hready) as (out' & H & _).
  destruct (Hwritten _ _ _ _ _ _ _ H) as (stored & q & Hs & Hq & Hget).
  apply GetScalar_Ok in Hs as (_ & _ & _ & <-).
  exists out', q. auto.
Qed.

(** The gradient scenario law at strain 0.01 and nonlocal strain 0.002,
    writing into the outputs of its driver. *)
Lemma gradient_tangent_is_secant_witness :
  exists out out' q,
    scenario_loop
    = Ok (IpLoop.mk (GradientDamage.resize scenario_gradient 1) out 1) /\
    GradientDamage.evaluate (GradientDamage.resize scenario_gradient 1)
                            [0.01] 0.002 out 0
    = Ok (GradientDamage.resize scenario_gradient 1, out') /\
    output out' DSIGMA_DEPS = Ok q /\
    QValues.Get q 0 =
    Ok (Eigen.scale
          (1 - fst (DamageLawExponential.evaluate
                      (DamageLawExponential.new (1 / 1000) 0.99 0.1)
                      (fst (GradientDamage.evaluate_kappa 0.002 0))))
          (Eigen.mkMatrix 1 1 [1000])).
Proof.
  destruct scenario_loop_sized as (out & Hl & Hs).
  destruct (proj2 gradient_tangent_is_secant
              (GradientDamage.resize scenario_gradient 1) [0.01] 0.002 out 0%nat
              (sized_ready _ _ 1 0 [0.01] Hs (le_n 1) eq_refl))
    as (out' & q & H & Hq & Hget).
  exists out, out', q.
  split; [exact Hl | split; [exact H | split; [exact Hq | exact Hget]]].
Defined.

(** ** The elastic branch of the local law *)

Lemma sqrt_below (x y : R) : 0 < y -> x < y * y -> sqrt x < y.
Proof.
  intros Hy Hx.
  destruct (Rle_lt_dec x 0) as [Hn | Hp].
  - rewrite sqrt_neg_0 by lra. exact Hy.
  - rewrite <- (sqrt_square y) by lra.
    apply sqrt_lt_1_alt. lra.
Qed.

(** The equivalent strain of the scenario at strain 0.0005 is below the
    threshold 1/1000. *)
Lemma scenario_eeq_below_threshold :
  exists eeq deeq,
    ModMisesEeq.evaluate (ModMisesEeq.new 10 0.2 UNIAXIAL_STRAIN) [0.0005]
    = Ok (eeq, deeq) /\
    eeq < 1 / 1000.
Proof.
  eexists. eexists. split.
  - run. reflexivity.
  - match goal with
    | |- _ + (sqrt ?x + _) < _ => assert (Hs : sqrt x < 5 / 10000)
    end.
    { apply sqrt_below; lra. }
    lra.
Qed.

(** C7.  At a fresh point (stored kappa 0), for a strain whose equivalent
    strain is strictly below the threshold kappa0, [LocalDamage::evaluate]
    returns the stress [C * strain] and the tangent [C], both exactly:
    omega is 0 and the correction term is the zero matrix.  [C] is a dense
    matrix with as many columns as the transformation of the norm.  The
    threshold is not negative, which [eeq < kappa0] already implies when
    the norm is the one the constructor builds with [k > 0]. *)
Theorem local_elastic_branch :
  (forall law strain i eeq deeq,
      Eigen.wf (LocalDamage._C law) ->
      Eigen.cols (LocalDamage._C law)
      = Eigen.cols (ModMisesEeq._T3D (LocalDamage._eeq law)) ->
      0 <= DamageLawExponential._k0 (LocalDamage._omega law) ->
      Eigen.get (LocalDamage._kappa law) i = Ok 0 ->
      ModMisesEeq.evaluate (LocalDamage._eeq law) strain = Ok (eeq, deeq) ->
      eeq < DamageLawExponential._k0 (LocalDamage._omega law) ->
      exists Cstrain,
        Eigen.mat_vec (LocalDamage._C law) strain = Ok Cstrain /\
        LocalDamage.evaluate law strain i
        = Ok (law, (Cstrain, LocalDamage._C law))) /\
  (forall law k nu c strain i eeq deeq,
      LocalDamage._eeq law = ModMisesEeq.new k nu c ->
      0 < k ->
      Eigen.wf (LocalDamage._C law) ->
      Eigen.cols (LocalDamage._C law) = Dim.Q c ->
      Eigen.get (LocalDamage._kappa law) i = Ok 0 ->
      ModMisesEeq.evaluate (LocalDamage._eeq law) strain = Ok (eeq, deeq) ->
      eeq < DamageLawExponential._k0 (LocalDamage._omega law) ->
      exists Cstrain,
        Eigen.mat_vec (LocalDamage._C law) strain = Ok Cstrain /\
        LocalDamage.evaluate law strain i
        = Ok (law, (Cstrain, LocalDamage._C law))).
Proof.
  assert (Hgeneral : forall law strain i eeq deeq,
             Eigen.wf (LocalDamage._C law) ->
             Eigen.cols (LocalDamage._C law)
             = Eigen.cols (ModMisesEeq._T3D (LocalDamage._eeq law)) ->
             0 <= DamageLawExponential._k0 (LocalDamage._omega law) ->
             Eigen.get (LocalDamage._kappa law) i = Ok 0 ->
             ModMisesEeq.evaluate (LocalDamage._eeq law) strain = Ok (eeq, deeq) ->
             eeq < DamageLawExponential._k0 (LocalDamage._omega law) ->
             exists Cstrain,
               Eigen.mat_vec (LocalDamage._C law) strain = Ok Cstrain /\
               LocalDamage.evaluate law strain i
               = Ok (law, (Cstrain, LocalDamage._C law))).
  { intros law strain i eeq deeq Hwf Hcols Hk0 Hfresh Heeq Hbelow.
    pose proof Heeq as Hshape.
    apply ModMisesEeq_evaluate_Ok in Hshape as (s3 & Hs3 & Hdeeq & _).
    apply mat_vec_Ok in Hs3 as [Hstrain _].
    destruct (mat_vec_in_shape (LocalDamage._C law) strain)
      as (Cs & HCs & HlenCs); [congruence |].
    exists Cs. split; [exact HCs |].
    unfold LocalDamage.evaluate.
    rewrite Heeq; cbn [bind].
    rewrite Hfresh; cbn [bind].
    assert (Hbranch :
              exists kappa dkappa,
                LocalDamage.evaluate_kappa eeq 0 = (kappa, dkappa) /\
                kappa <= DamageLawExponential._k0 (LocalDamage._omega law)).
    { destruct (Rge_dec eeq 0) as [Hload | Hunload].
      - exists eeq, 1. split; [now apply local_kappa_loading | lra].
      - exists 0, 0. split; [apply local_kappa_unloading; lra | exact Hk0]. }
    destruct Hbranch as (kappa & dkappa & -> & Hkappa).
    rewrite (damage_elastic _ _ Hkappa).
    rewrite scale_one, HCs; cbn [bind].
    unfold Eigen.sub.
    rewrite outer_rows, outer_cols, !vtimes_length, HlenCs, Hdeeq, <- Hcols,
      !Nat.eqb_refl; cbn [andb eigen_assert bind].
    rewrite zip_minus_zeros.
    - now destruct (LocalDamage._C law).
    - unfold Eigen.outer.
      rewrite tabulate_length, !vtimes_length, HlenCs, Hdeeq, <- Hcols.
      unfold Eigen.wf, Eigen.size in Hwf. lia.
    - unfold Eigen.outer.
      apply tabulate_zeros. intros i0 j. rewrite nth_vtimes_zero. lra. }
  split; [exact Hgeneral |].
  intros law k nu c strain i eeq deeq Hnorm Hk Hwf Hcols Hfresh Heeq Hbelow.
  apply (Hgeneral law strain i eeq deeq); auto.
  - rewrite Hnorm; simpl. now rewrite T3D_cols.
  - rewrite Hnorm in Heeq.
    pose proof (eeq_positive _ _ _ _ _ _ Hk Heeq). lra.
Qed.

(** The first step of the end-to-end scenario: a fresh point at strain
    0.0005 answers with the stress [C * strain] and the tangent [C]. *)
Lemma local_elastic_branch_witness :
  exists eeq deeq Cstrain,
    ModMisesEeq.evaluate (ModMisesEeq.new 10 0.2 UNIAXIAL_STRAIN) [0.0005]
    = Ok (eeq, deeq) /\
    eeq < 1 / 1000 /\
    Eigen.mat_vec (Eigen.mkMatrix 1 1 [1000]) [0.0005] = Ok Cstrain /\
    LocalDamage.evaluate (LocalDamage.with_kappa scenario_local [0]) [0.0005] 0
    = Ok (LocalDamage.with_kappa scenario_local [0],
          (Cstrain, Eigen.mkMatrix 1 1 [1000])).
Proof.
  destruct scenario_eeq_below_threshold as (eeq & deeq & He & Hlt).
  destruct (proj2 local_elastic_branch
              (LocalDamage.with_kappa scenario_local [0])
              10 0.2 UNIAXIAL_STRAIN [0.0005] 0%nat eeq deeq)
    as (Cstrain & HC & Hev).
  - reflexivity.
  - lra.
  - reflexivity.
  - reflexivity.
  - reflexivity.
  - exact He.
  - exact Hlt.
  - exists eeq, deeq, Cstrain. repeat split; assumption.
Defined.

(** ** The embedding on small inputs *)

Example T3D_uniaxial_stress (nu e : R) :
  exists v, Eigen.mat_vec (T3D nu UNIAXIAL_STRESS) [e] = Ok v /\
            nth 0 v 0 = e /\ nth 1 v 0 = - nu * e /\ nth 2 v 0 = - nu * e /\
            nth 5 v 0 = 0.
Proof.
  eexists. split; [run; reflexivity |].
  simpl. repeat split; lra.
Qed.

Example T3D_plane_stress (nu exx eyy gxy : R) :
  exists v, Eigen.mat_vec (T3D nu PLANE_STRESS) [exx; eyy; gxy] = Ok v /\
            nth 0 v 0 = exx /\ nth 1 v 0 = eyy /\
            nth 2 v 0 = nu / (nu - 1) * exx + nu / (nu - 1) * eyy /\
            nth 5 v 0 = gxy.
Proof.
  eexists. split; [run; reflexivity |].
  simpl. repeat split; lra.
Qed.

Example T3D_full_is_identity (nu : R) (a b c d e f : R) :
  exists v, Eigen.mat_vec (T3D nu FULL) [a; b; c; d; e; f] = Ok v /\
            nth 0 v 0 = a /\ nth 1 v 0 = b /\ nth 2 v 0 = c /\
            nth 3 v 0 = d /\ nth 4 v 0 = e /\ nth 5 v 0 = f.
Proof.
  eexists. split; [run; reflexivity |].
  simpl. repeat split; lra.
Qed.

Example T3D_rejects_wrong_dimension (nu : R) :
  Eigen.mat_vec (T3D nu PLANE_STRAIN) [1; 2] = Abort EigenAssert.
Proof. reflexivity. Qed.

Example invariants_of_pure_shear :
  fst (InvariantI1 [0; 0; 0; 2; 0; 0]) = 0 /\
  fst (InvariantJ2 [0; 0; 0; 2; 0; 0]) = 1.
Proof. simpl. split; lra. Qed.

Example invariants_of_hydrostatic :
  fst (InvariantI1 [1; 1; 1; 0; 0; 0]) = 3 /\
  fst (InvariantJ2 [1; 1; 1; 0; 0; 0]) = 0.
Proof. simpl. split; lra. Qed.

Example QValues_blocks_are_column_major :
  exists q,
    QValues.SetMatrix (QValues.Resize (QValues.new 2 2) 2)
                      (Eigen.mkMatrix 2 2 [1; 2; 3; 4]) 1 = Ok q /\
    QValues.data q = [0; 0; 0; 0; 1; 2; 3; 4] /\
    Eigen.coeff (Eigen.mkMatrix 2 2 [1; 2; 3; 4]) 1 0 = 2.
Proof.
  eexists. split; [reflexivity |]. split; reflexivity.
Qed.

Example driver_allocates_outputs :
  exists loop,
    scenario_loop = Ok loop /\
    IpLoop._n loop = 1%nat /\
    output (IpLoop._outputs loop) DSIGMA_DEPS = Ok (QValues.mk 1 1 [0]) /\
    QValues.data (GradientDamage._kappa (IpLoop._law loop)) = [0].
Proof.
  eexists. split; [run; reflexivity |].
  repeat split; reflexivity.
Qed.

Example scenario_passes_return :
  exists loop,
    scenario_loop = Ok loop /\
    (exists loop', IpLoop.evaluate loop [0.01] [0.002] = Ok loop') /\
    (exists loop', IpLoop.update loop [0.01] [0.002] = Ok loop').
Proof.
  destruct scenario_loop_sized as (out & Hl & Hs).
  eexists. split; [exact Hl |].
  apply IpLoop_passes_total; [exact Hs | reflexivity | reflexivity].
Qed.

Example scenario_stress :
  exists Cstrain,
    Eigen.mat_vec (Eigen.mkMatrix 1 1 [1000]) [0.0005] = Ok Cstrain /\
    nth 0 Cstrain 0 = 0.5.
Proof.
  eexists. split; [run; reflexivity |].
  simpl. lra.
Qed.

(** * Further properties of the code *)

(** ** The scenario, for the instances below *)

(** The gradient law of the scenario, sized for one point by its driver,
    answers every strain [s] and nonlocal strain [e]. *)
Lemma scenario_gradient_evaluates (s e : R) :
  exists out out',
    driver_sized (GradientDamage.resize scenario_gradient 1) out 1 /\
    GradientDamage.evaluate (GradientDamage.resize scenario_gradient 1)
                            [s] e out 0
    = Ok (GradientDamage.resize scenario_gradient 1, out').
Proof.
  destruct scenario_loop_sized as (out & _ & Hs).
  destruct (gradient_evaluate_total _ [s] e out 0
              (sized_ready _ _ 1 0 [s] Hs (le_n 1) eq_refl))
    as (out' & H & _).
  exists out, out'. split; assumption.
Qed.

Lemma gradient_update_keeps_room (law law' : GradientDamage.t)
      (strain : Eigen.VectorXd) (neeq : R) (i j : nat) :
  GradientDamage.update law strain neeq i = Ok law' ->
  has_room (GradientDamage._kappa law) 1 1 j ->
  has_room (GradientDamage._kappa law') 1 1 j.
Proof.
  intros H (Hr & Hc & Hj).
  apply gradient_update_Ok in H as (_ & _ & _ & ->).
  repeat split; simpl; try assumption.
  now rewrite update_length.
Qed.

Lemma scenario_two_updates (e1 e2 : R) :
  exists law',
    gradient_updates (GradientDamage.resize scenario_gradient 1)
                     [([0.01], e1, 0%nat); ([0.01], e2, 0%nat)] = Ok law'.
Proof.
  destruct (gradient_update_total (GradientDamage.resize scenario_gradient 1)
              [0.01] e1 0 scenario_gradient_room) as (law1 & H1).
  destruct (gradient_update_total law1 [0.01] e2 0
              (gradient_update_keeps_room _ _ _ _ _ _ H1 scenario_gradient_room))
    as (law2 & H2).
  exists law2. cbn [gradient_updates]. rewrite H1; cbn [bind].
  rewrite H2; reflexivity.
Qed.

Lemma scenario_local_unloading_ready :
  local_ready (LocalDamage.with_kappa scenario_local [0.5]) [0.0005] 0.
Proof.
  split; [simpl; lia |].
  split; [split; reflexivity | reflexivity].
Qed.

(** ** Blocks of the per-point storage *)

Lemma nth_segment_written (v src : list R) (start n k : nat) :
  (start + n <= length v)%nat -> length src = n ->
  nth k (firstn start v ++ src ++ skipn (start + n) v) 0
  = if (Nat.leb start k && Nat.ltb k (start + n))%bool
    then nth (k - start) src 0
    else nth k v 0.
Proof.
  intros Hr Hs.
  assert (Hf : length (firstn start v) = start)
    by (rewrite length_firstn; lia).
  destruct (Nat.leb start k) eqn:E1; simpl.
  - apply Nat.leb_le in E1.
    rewrite app_nth2 by lia. rewrite Hf.
    destruct (Nat.ltb k (start + n)) eqn:E2.
    + apply Nat.ltb_lt in E2. rewrite app_nth1 by lia. reflexivity.
    + apply Nat.ltb_ge in E2. rewrite app_nth2 by lia.
      rewrite nth_skipn, Hs. f_equal. lia.
  - apply Nat.leb_gt in E1.
    rewrite app_nth1 by lia.
    rewrite nth_firstn.
    apply Nat.ltb_lt in E1. now rewrite E1.
Qed.

Lemma nth_segment_read (v : list R) (start n k : nat) :
  (k < n)%nat -> nth k (firstn n (skipn start v)) 0 = nth (start + k) v 0.
Proof.
  intros Hk. rewrite nth_firstn.
  apply Nat.ltb_lt in Hk. rewrite Hk. apply nth_skipn.
Qed.

Lemma list_eq_by_nth (u v : list R) :
  length u = length v -> (forall k, (k < length u)%nat -> nth k u 0 = nth k v 0) ->
  u = v.
Proof.
  revert v; induction u as [| x u IH]; intros [| y v] Hl Hn; simpl in *;
    try reflexivity; try discriminate.
  f_equal.
  - apply (Hn 0%nat). lia.
  - apply IH; [lia |]. intros k Hk. apply (Hn (S k)). lia.
Qed.

(** Two vectors of one size that agree on a window give the same segment. *)
Lemma segment_agree (u v : Eigen.VectorXd) (start n : nat) :
  length u = length v ->
  (forall k, (start <= k < start + n)%nat -> nth k u 0 = nth k v 0) ->
  Eigen.segment u start n = Eigen.segment v start n.
Proof.
  intros Hl Hn. unfold Eigen.segment. rewrite Hl.
  destruct (Nat.leb (start + n) (length v)) eqn:E; simpl; [| reflexivity].
  apply Nat.leb_le in E.
  f_equal. apply list_eq_by_nth.
  - rewrite !length_firstn, !length_skipn. lia.
  - intros k Hk.
    rewrite length_firstn, length_skipn in Hk.
    rewrite !nth_segment_read by lia. apply Hn. lia.
Qed.

(** X1.  A successful [Set (value, i)] keeps the declared shape and the size
    of the storage, and leaves the block of every other point as it was:
    [Get (j)] answers the same before and after, for all [j <> i]. *)
Theorem QValues_Set_frame (q q' : QValues.t) (value : Eigen.MatrixXd) (i : nat) :
  QValues.SetMatrix q value i = Ok q' ->
  QValues._rows q' = QValues._rows q /\
  QValues._cols q' = QValues._cols q /\
  length (QValues.data q') = length (QValues.data q) /\
  forall j, j <> i -> QValues.Get q' j = QValues.Get q j.
Proof.
  intros H.
  apply SetMatrix_Ok in H as (Hr & Hc & Hrange & Hlen & ->).
  cbv zeta in *.
  set (b := (QValues._rows q * QValues._cols q)%nat) in *.
  split; [reflexivity | split; [reflexivity | split]].
  - simpl. now apply set_segment_length.
  - intros j Hj. unfold QValues.Get; simpl. fold b.
    rewrite (segment_agree _ (QValues.data q) (b * j) b); [reflexivity | |].
    + now apply set_segment_length.
    + intros k Hk.
      rewrite nth_segment_written by assumption.
      destruct (Nat.leb (b * i) k && Nat.ltb k (b * i + b))%bool eqn:E;
        [| reflexivity].
      apply andb_true_iff in E as [E1 E2].
      apply Nat.leb_le in E1. apply Nat.ltb_lt in E2.
      exfalso. nia.
Qed.

(** A 2 x 2 quantity sized for two points, written at point 1 and read at
    point 0. *)
Lemma QValues_Set_frame_witness :
  exists q',
    QValues.SetMatrix (QValues.Resize (QValues.new 2 2) 2)
                      (Eigen.mkMatrix 2 2 [1; 2; 3; 4]) 1 = Ok q' /\
    QValues.Get q' 0 = QValues.Get (QValues.Resize (QValues.new 2 2) 2) 0.
Proof.
  exists (QValues.mk 2 2 [0; 0; 0; 0; 1; 2; 3; 4]).
  split; [reflexivity |].
  apply (QValues_Set_frame (QValues.Resize (QValues.new 2 2) 2)
           (QValues.mk 2 2 [0; 0; 0; 0; 1; 2; 3; 4])
           (Eigen.mkMatrix 2 2 [1; 2; 3; 4]) 1%nat);
    [reflexivity | lia].
Defined.

(** X2.  The last write wins: a second [Set] at the same point, after a
    successful first one, gives the state that this second [Set] alone gives. *)
Theorem QValues_Set_overwrites (q q1 : QValues.t) (v w : Eigen.MatrixXd) (i : nat) :
  QValues.SetMatrix q v i = Ok q1 ->
  QValues.SetMatrix q1 w i = QValues.SetMatrix q w i.
Proof.
  intros H.
  apply SetMatrix_Ok in H as (Hr & Hc & Hrange & Hlen & ->).
  cbv zeta in *.
  set (b := (QValues._rows q * QValues._cols q)%nat) in *.
  unfold QValues.SetMatrix; simpl. fold b.
  destruct (Nat.eqb (Eigen.rows w) (QValues._rows q)); simpl; [| reflexivity].
  destruct (Nat.eqb (Eigen.cols w) (QValues._cols q)); simpl; [| reflexivity].
  unfold Eigen.set_segment.
  rewrite (set_segment_length _ _ _ _ Hrange Hlen).
  destruct (Nat.leb (b * i + b) (length (QValues.data q))); simpl;
    [| reflexivity].
  destruct (Nat.eqb (length (Eigen.data w)) b) eqn:Ew; simpl; [| reflexivity].
  apply Nat.eqb_eq in Ew.
  unfold QValues.with_data; simpl. do 2 f_equal.
  assert (Hf : length (firstn (b * i) (QValues.data q)) = (b * i)%nat)
    by (rewrite length_firstn; lia).
  rewrite firstn_app, Hf, Nat.sub_diag, firstn_O, app_nil_r.
  rewrite firstn_firstn, Nat.min_id.
  f_equal. f_equal.
  rewrite skipn_app, Hf.
  replace (b * i + b - b * i)%nat with b by lia.
  rewrite (skipn_all2 (firstn _ _)) by lia. simpl.
  rewrite skipn_app, Hlen, Nat.sub_diag.
  rewrite (skipn_all2 (Eigen.data v)) by lia. simpl.
  reflexivity.
Qed.

Lemma QValues_Set_overwrites_witness :
  exists q1,
    QValues.SetMatrix (QValues.Resize (QValues.new 2 1) 2)
                      (Eigen.mkMatrix 2 1 [1; 2]) 1 = Ok q1 /\
    QValues.SetMatrix q1 (Eigen.mkMatrix 2 1 [3; 4]) 1
    = QValues.SetMatrix (QValues.Resize (QValues.new 2 1) 2)
                        (Eigen.mkMatrix 2 1 [3; 4]) 1.
Proof.
  exists (QValues.mk 2 1 [0; 0; 1; 2]).
  split; [reflexivity |].
  apply (QValues_Set_overwrites (QValues.Resize (QValues.new 2 1) 2)
           (QValues.mk 2 1 [0; 0; 1; 2]) (Eigen.mkMatrix 2 1 [1; 2])).
  reflexivity.
Defined.

(** X3.  After [Resize (n)] the block of every point [i < n] is the zero
    matrix of the declared shape, whatever was stored before; a point
    [i >= n] of a quantity with a non-empty shape is out of bounds. *)
Theorem QValues_Resize_blocks (q : QValues.t) (n i : nat) :
  ((i < n)%nat ->
   QValues.Get (QValues.Resize q n) i
   = Ok (Eigen.Zero (QValues._rows q) (QValues._cols q))) /\
  ((n <= i)%nat -> (0 < QValues._rows q * QValues._cols q)%nat ->
   QValues.Get (QValues.Resize q n) i = Abort EigenAssert) /\
  (forall d, QValues.Resize (QValues.with_data q d) n = QValues.Resize q n).
Proof.
  set (b := (QValues._rows q * QValues._cols q)%nat).
  split; [| split].
  - intros Hi. unfold QValues.Get, Eigen.segment; simpl. fold b.
    unfold Eigen.setZero. rewrite repeat_length.
    replace (n * QValues._rows q * QValues._cols q)%nat with (n * b)%nat
      by (unfold b; lia).
    assert (Hfit : (b * i + b <= n * b)%nat) by nia.
    rewrite (proj2 (Nat.leb_le _ _) Hfit); simpl.
    unfold Eigen.Zero. do 2 f_equal. fold b.
    apply list_eq_by_nth.
    + rewrite length_firstn, length_skipn, !repeat_length. lia.
    + intros k Hk.
      rewrite length_firstn, length_skipn, repeat_length in Hk.
      rewrite nth_segment_read by lia.
      now rewrite !nth_repeat.
  - intros Hi Hb. unfold QValues.Get, Eigen.segment; simpl. fold b.
    unfold Eigen.setZero. rewrite repeat_length.
    replace (n * QValues._rows q * QValues._cols q)%nat with (n * b)%nat
      by (unfold b; lia).
    assert (Hout : (n * b < b * i + b)%nat) by nia.
    rewrite (proj2 (Nat.leb_gt _ _) Hout). reflexivity.
  - reflexivity.
Qed.

(** A 2 x 1 quantity holding values, resized to two points. *)
Lemma QValues_Resize_blocks_witness :
  QValues.Get (QValues.Resize (QValues.mk 2 1 [1; 2; 3; 4]) 2) 1
  = Ok (Eigen.mkMatrix 2 1 [0; 0]) /\
  QValues.Get (QValues.Resize (QValues.mk 2 1 [1; 2; 3; 4]) 2) 2
  = Abort EigenAssert.
Proof.
  split.
  - apply (proj1 (QValues_Resize_blocks (QValues.mk 2 1 [1; 2; 3; 4]) 2 1)). lia.
  - apply (proj1 (proj2 (QValues_Resize_blocks (QValues.mk 2 1 [1; 2; 3; 4]) 2 2)));
      simpl; lia.
Defined.

Lemma update_as_segment (d : list R) (i : nat) (x : R) :
  (i < length d)%nat ->
  Eigen.update d i x = firstn i d ++ [x] ++ skipn (i + 1) d.
Proof.
  revert i; induction d as [| y d IH]; intros [| i] H; simpl in *; try lia.
  - reflexivity.
  - f_equal. apply IH. lia.
Qed.

(** X4.  On a 1 x 1 quantity the scalar [Set] stores what [GetScalar] then
    reads at that point, leaves every other point as it was, and is the
    matrix [Set] of the 1 x 1 matrix holding the scalar. *)
Theorem QValues_scalar_access (q q' : QValues.t) (x : R) (i : nat) :
  QValues.SetScalar q x i = Ok q' ->
  QValues.GetScalar q' i = Ok x /\
  (forall j, j <> i -> QValues.GetScalar q' j = QValues.GetScalar q j) /\
  QValues.SetMatrix q (Eigen.mkMatrix 1 1 [x]) i = Ok q' /\
  QValues.Get q' i = Ok (Eigen.mkMatrix 1 1 [x]).
Proof.
  intros H.
  apply SetScalar_Ok in H as (Hr & Hc & Hi & ->).
  assert (Hset : QValues.SetMatrix q (Eigen.mkMatrix 1 1 [x]) i
                 = Ok (QValues.with_data q (Eigen.update (QValues.data q) i x))).
  { unfold QValues.SetMatrix; simpl.
    rewrite Hr, Hc; simpl.
    rewrite set_segment_in_range by (simpl; lia).
    cbn [bind]. do 2 f_equal.
    rewrite (update_as_segment _ _ _ Hi).
    replace (i + 0 + 1)%nat with (i + 1)%nat by lia.
    now replace (i + 0)%nat with i by lia. }
  split; [| split; [| split]].
  - unfold QValues.GetScalar; simpl. rewrite Hr, Hc; simpl.
    rewrite get_in_range by (now rewrite update_length).
    now rewrite nth_update_same.
  - intros j Hj. unfold QValues.GetScalar, Eigen.get; simpl.
    rewrite Hr, Hc; simpl.
    destruct (Nat.lt_ge_cases j (length (QValues.data q))) as [Hlt | Hge].
    + rewrite (nth_error_nth' _ 0) by (now rewrite update_length).
      rewrite (nth_error_nth' _ 0 Hlt).
      rewrite nth_update_other by congruence. reflexivity.
    + rewrite (proj2 (nth_error_None _ _)) by (now rewrite update_length).
      now rewrite (proj2 (nth_error_None _ _)).
  - exact Hset.
  - exact (Get_after_SetMatrix _ _ _ _ Hset).
Qed.

Lemma QValues_scalar_access_witness :
  QValues.GetScalar (QValues.mk 1 1 [0; 5]) 1 = Ok 5 /\
  QValues.GetScalar (QValues.mk 1 1 [0; 5]) 0
  = QValues.GetScalar (QValues.Resize (QValues.new 1 1) 2) 0.
Proof.
  assert (H : QValues.SetScalar (QValues.Resize (QValues.new 1 1) 2) 5 1
              = Ok (QValues.mk 1 1 [0; 5])) by reflexivity.
  split.
  - exact (proj1 (QValues_scalar_access _ _ _ _ H)).
  - apply (proj1 (proj2 (QValues_scalar_access _ _ _ _ H))). lia.
Defined.

(** ** What [evaluate] writes and what it leaves *)

Lemma SetScalar_is_SetMatrix (q : QValues.t) (x : R) (i : nat) :
  QValues.SetScalar q x i = QValues.SetMatrix q (Eigen.mkMatrix 1 1 [x]) i.
Proof.
  unfold QValues.SetScalar, QValues.SetMatrix.
  cbn [Eigen.rows Eigen.cols Eigen.data].
  rewrite (Nat.eqb_sym 1 (QValues._rows q)), (Nat.eqb_sym 1 (QValues._cols q)).
  destruct (Nat.eqb (QValues._rows q) 1) eqn:Er; simpl; [| reflexivity].
  destruct (Nat.eqb (QValues._cols q) 1) eqn:Ec; simpl; [| reflexivity].
  apply Nat.eqb_eq in Er, Ec. rewrite Er, Ec.
  unfold Eigen.set, Eigen.set_segment.
  destruct (Nat.lt_ge_cases i (length (QValues.data q))) as [Hi | Hi].
  - rewrite (proj2 (Nat.ltb_lt _ _) Hi).
    assert (Hfit : (1 * 1 * i + 1 * 1 <= length (QValues.data q))%nat) by lia.
    rewrite (proj2 (Nat.leb_le _ _) Hfit). simpl.
    do 2 f_equal.
    rewrite (update_as_segment _ _ _ Hi).
    replace (i + 0 + 1)%nat with (i + 1)%nat by lia.
    now replace (i + 0)%nat with i by lia.
  - rewrite (proj2 (Nat.ltb_ge _ _) Hi).
    assert (Hout : (length (QValues.data q) < 1 * 1 * i + 1 * 1)%nat) by lia.
    rewrite (proj2 (Nat.leb_gt _ _) Hout). reflexivity.
Qed.

Lemma output_SetScalar_is_Set (out : outputs) (what : Q) (x : R) (i : nat) :
  output_SetScalar out what x i
  = output_Set out what (Eigen.mkMatrix 1 1 [x]) i.
Proof.
  unfold output_SetScalar, output_Set.
  destruct (output out what); simpl; [| reflexivity].
  now rewrite SetScalar_is_SetMatrix.
Qed.

Lemma SetMatrix_keeps_others (q q' : QValues.t) (value : Eigen.MatrixXd)
      (i j : nat) :
  QValues.SetMatrix q value i = Ok q' -> j <> i ->
  QValues.Get q' j = QValues.Get q j.
Proof.
  intros H Hj.
  apply SetMatrix_Ok in H as (Hr & Hc & Hrange & Hlen & ->).
  cbv zeta in *.
  set (b := (QValues._rows q * QValues._cols q)%nat) in *.
  unfold QValues.Get; simpl. fold b.
  rewrite (segment_agree _ (QValues.data q) (b * j) b); [reflexivity | |].
  - now apply set_segment_length.
  - intros k Hk.
    rewrite nth_segment_written by assumption.
    destruct (Nat.leb (b * i) k && Nat.ltb k (b * i + b))%bool eqn:E;
      [| reflexivity].
    apply andb_true_iff in E as [E1 E2].
    apply Nat.leb_le in E1. apply Nat.ltb_lt in E2.
    exfalso. nia.
Qed.

Lemma Q_index_inj (a b : Q) : Q_index a = Q_index b -> a = b.
Proof. destruct a, b; simpl; intros H; try reflexivity; discriminate. Qed.

(** One [out[what].Set (value, i)]: the block written, and every other
    block of every quantity kept. *)
Lemma block_after_Set (out out' : outputs) (what : Q) (value : Eigen.MatrixXd)
      (i : nat) :
  output_Set out what value i = Ok out' ->
  block out' what i = Ok value /\
  forall other j, other <> what \/ j <> i ->
                  block out' other j = block out other j.
Proof.
  unfold output_Set; intros H.
  bind_inv H. bind_inv H. injection H as <-.
  rename a into q, a0 into q'.
  assert (Hlt : (Q_index what < length out)%nat).
  { apply output_Ok in Hstep. apply nth_error_Some. congruence. }
  split.
  - unfold block, output. rewrite nth_error_replace_nth by exact Hlt.
    cbn [bind]. exact (Get_after_SetMatrix _ _ _ _ Hstep0).
  - intros other j Hneq. unfold block, output.
    destruct (Nat.eq_dec (Q_index what) (Q_index other)) as [E | E].
    + rewrite <- E. rewrite nth_error_replace_nth by exact Hlt.
      apply output_Ok in Hstep. rewrite Hstep. cbn [bind].
      apply (SetMatrix_keeps_others q q' value i j Hstep0).
      destruct Hneq as [Hneq | Hneq]; [| exact Hneq].
      exfalso. apply Hneq. symmetry. now apply Q_index_inj.
    + now rewrite nth_error_replace_nth_other by exact E.
Qed.

(** All that a returning [GradientDamage::evaluate] has done to the
    outputs. *)
Lemma gradient_evaluate_blocks (law law' : GradientDamage.t)
      (strain : Eigen.VectorXd) (e : R) (out out' : outputs) (i : nat) :
  GradientDamage.evaluate law strain e out i = Ok (law', out') ->
  exists stored eeq deeq sigma mCstrain,
    QValues.GetScalar (GradientDamage._kappa law) i = Ok stored /\
    ModMisesEeq.evaluate (GradientDamage._strain_norm law) strain = Ok (eeq, deeq) /\
    let kd := GradientDamage.evaluate_kappa e stored in
    let od := DamageLawExponential.evaluate (GradientDamage._omega law) (fst kd) in
    Eigen.mat_vec (Eigen.scale (1 - fst od) (GradientDamage._C law)) strain
    = Ok sigma /\
    Eigen.mat_vec (Eigen.opp (GradientDamage._C law)) strain = Ok mCstrain /\
    block out' EEQ i = Ok (Eigen.mkMatrix 1 1 [eeq]) /\
    block out' SIGMA i = Ok (Eigen.as_matrix sigma) /\
    block out' DEEQ i = Ok (Eigen.as_matrix deeq) /\
    block out' DSIGMA_DE i
    = Ok (Eigen.as_matrix (Eigen.vtimes (Eigen.vtimes mCstrain (snd od)) (snd kd))) /\
    block out' DSIGMA_DEPS i
    = Ok (Eigen.scale (1 - fst od) (GradientDamage._C law)) /\
    forall what j, j <> i -> block out' what j = block out what j.
Proof.
  unfold GradientDamage.evaluate; intros H.
  bind_inv H. rename a into stored. exists stored.
  destruct (GradientDamage.evaluate_kappa e stored) as [kappa dkappa].
  cbn [fst snd].
  destruct (DamageLawExponential.evaluate (GradientDamage._omega law) kappa)
    as [omega domega].
  cbn [fst snd].
  bind_inv H. destruct a as [eeq deeq].
  bind_inv H. rename a into o1.
  bind_inv H. rename a into sigma.
  bind_inv H. rename a into o2.
  bind_inv H. rename a into o3.
  bind_inv H. rename a into mCs.
  bind_inv H. rename a into o4.
  bind_inv H. rename a into o5.
  injection H as _ <-.
  rewrite output_SetScalar_is_Set in Hstep1.
  apply block_after_Set in Hstep1 as [W1 F1].
  apply block_after_Set in Hstep3 as [W2 F2].
  apply block_after_Set in Hstep4 as [W3 F3].
  apply block_after_Set in Hstep6 as [W4 F4].
  apply block_after_Set in Hstep7 as [W5 F5].
  exists eeq, deeq, sigma, mCs.
  repeat (split; [assumption |]).
  split.
  { rewrite F5, F4, F3, F2 by (left; discriminate). exact W1. }
  split.
  { rewrite F5, F4, F3 by (left; discriminate). exact W2. }
  split.
  { rewrite F5, F4 by (left; discriminate). exact W3. }
  split.
  { rewrite F5 by (left; discriminate). exact W4. }
  split; [exact W5 |].
  intros what j Hj.
  rewrite F5, F4, F3, F2, F1 by (right; exact Hj). reflexivity.
Qed.

Lemma kappa_pair_settled (e stored : R) :
  GradientDamage.evaluate_kappa e (fst (GradientDamage.evaluate_kappa e stored))
  = GradientDamage.evaluate_kappa e stored.
Proof.
  unfold GradientDamage.evaluate_kappa.
  destruct (Rge_dec e stored) as [H | H]; simpl.
  - destruct (Rge_dec e e); [reflexivity | lra].
  - destruct (Rge_dec e stored); [contradiction | reflexivity].
Qed.

Lemma vtimes_zero (v : Eigen.VectorXd) :
  Eigen.vtimes v 0 = repeat 0 (length v).
Proof.
  induction v as [| x v IH]; simpl; [reflexivity |].
  rewrite <- IH. f_equal. lra.
Qed.

Lemma vtimes_of_zeros (n : nat) (s : R) :
  Eigen.vtimes (repeat 0 n) s = repeat 0 n.
Proof.
  induction n as [| n IH]; simpl; [reflexivity |].
  rewrite IH. f_equal. lra.
Qed.

(** Steps through the binds of a hypothesis and of the goal together. *)
Ltac step_both H :=
  repeat match type of H with
         | bind ?e _ = Ok _ =>
             let E := fresh "E" in
             destruct e eqn:E; cbn [bind] in H |- *; [| discriminate H]
         | (let '(_, _) := ?p in _) = Ok _ =>
             destruct p; cbn [bind] in H |- *
         end.

(** X5.  When [GradientDamage::evaluate] returns, the block of point [i]
    holds: in EEQ the local equivalent strain, in DEEQ its gradient, in
    SIGMA the stress [(1 - omega) * C * strain] and in DSIGMA_DE the vector
    [-C * strain * domega * dkappa], with omega, domega and dkappa from the
    nonlocal strain [e] and the stored kappa. *)
Theorem gradient_evaluate_outputs (law law' : GradientDamage.t)
        (strain : Eigen.VectorXd) (e : R) (out out' : outputs) (i : nat) :
  GradientDamage.evaluate law strain e out i = Ok (law', out') ->
  exists stored eeq deeq sigma mCstrain,
    QValues.GetScalar (GradientDamage._kappa law) i = Ok stored /\
    ModMisesEeq.evaluate (GradientDamage._strain_norm law) strain = Ok (eeq, deeq) /\
    let kd := GradientDamage.evaluate_kappa e stored in
    let od := DamageLawExponential.evaluate (GradientDamage._omega law) (fst kd) in
    Eigen.mat_vec (Eigen.scale (1 - fst od) (GradientDamage._C law)) strain
    = Ok sigma /\
    Eigen.mat_vec (Eigen.opp (GradientDamage._C law)) strain = Ok mCstrain /\
    block out' EEQ i = Ok (Eigen.mkMatrix 1 1 [eeq]) /\
    block out' DEEQ i = Ok (Eigen.as_matrix deeq) /\
    block out' SIGMA i = Ok (Eigen.as_matrix sigma) /\
    block out' DSIGMA_DE i
    = Ok (Eigen.as_matrix (Eigen.vtimes (Eigen.vtimes mCstrain (snd od)) (snd kd))).
Proof.
  intros H.
  destruct (gradient_evaluate_blocks _ _ _ _ _ _ _ H)
    as (stored & eeq & deeq & sigma & mCs & Hs & He & Hsig & Hm
        & B1 & B2 & B3 & B4 & _ & _).
  exists stored, eeq, deeq, sigma, mCs.
  cbv zeta. repeat split; assumption.
Qed.

Lemma gradient_evaluate_outputs_witness :
  exists out out' eeq,
    GradientDamage.evaluate (GradientDamage.resize scenario_gradient 1)
                            [0.01] 0.002 out 0
    = Ok (GradientDamage.resize scenario_gradient 1, out') /\
    block out' EEQ 0 = Ok (Eigen.mkMatrix 1 1 [eeq]).
Proof.
  destruct (scenario_gradient_evaluates 0.01 0.002) as (out & out' & _ & H).
  destruct (gradient_evaluate_outputs _ _ _ _ _ _ _ H)
    as (stored & eeq & deeq & sigma & mCs & _ & _ & _ & _ & B & _).
  exists out, out', eeq. split; [exact H | exact B].
Defined.

(** X6.  [GradientDamage::evaluate] at point [i] leaves the block of every
    other point, in every output quantity, as it found it. *)
Theorem gradient_evaluate_frame (law law' : GradientDamage.t)
        (strain : Eigen.VectorXd) (e : R) (out out' : outputs) (i : nat) :
  GradientDamage.evaluate law strain e out i = Ok (law', out') ->
  forall what j, j <> i -> block out' what j = block out what j.
Proof.
  intros H.
  destruct (gradient_evaluate_blocks _ _ _ _ _ _ _ H)
    as (stored & eeq & deeq & sigma & mCs & _ & _ & _ & _
        & _ & _ & _ & _ & _ & F).
  exact F.
Qed.

(** Two points: the response to the strain 0.02 is written at point 1,
    then the strain 0.01 is evaluated at point 0. *)
Lemma scenario_two_points :
  exists out out1 out2 sigma,
    GradientDamage.evaluate (GradientDamage.resize scenario_gradient 2)
                            [0.02] 0.002 out 1
    = Ok (GradientDamage.resize scenario_gradient 2, out1) /\
    GradientDamage.evaluate (GradientDamage.resize scenario_gradient 2)
                            [0.01] 0.002 out1 0
    = Ok (GradientDamage.resize scenario_gradient 2, out2) /\
    block out1 SIGMA 1 = Ok (Eigen.as_matrix sigma).
Proof.
  assert (Hs : driver_sized
                 (IpLoop._law
                    (IpLoop.resize
                       (IpLoop.mk scenario_gradient
                          [QValues.default; QValues.new 1 1; QValues.new 1 1;
                           QValues.new 1 1; QValues.new 1 1; QValues.new 1 1] 0)
                       2))
                 (IpLoop._outputs
                    (IpLoop.resize
                       (IpLoop.mk scenario_gradient
                          [QValues.default; QValues.new 1 1; QValues.new 1 1;
                           QValues.new 1 1; QValues.new 1 1; QValues.new 1 1] 0)
                       2))
                 2).
  { apply (IpLoop_resize_sized scenario_gradient _ 2
             (IpLoop_new_allocates scenario_gradient));
      try reflexivity.
    split; reflexivity. }
  cbn [IpLoop.resize IpLoop._law IpLoop._outputs] in Hs.
  match type of Hs with
  | driver_sized _ ?o _ => set (out := o) in *
  end.
  destruct (gradient_evaluate_total _ [0.02] 0.002 out 1
              (sized_ready _ _ 2 1 [0.02] Hs (le_n 2) eq_refl))
    as (out1 & H1 & Hkeep).
  pose proof (sized_after_store _ _ _ _ Hs Hkeep) as Hs1.
  destruct (gradient_evaluate_total _ [0.01] 0.002 out1 0
              (sized_ready _ _ 2 0 [0.01] Hs1 (le_S _ _ (le_n 1)) eq_refl))
    as (out2 & H2 & _).
  destruct (gradient_evaluate_blocks _ _ _ _ _ _ _ H1)
    as (stored & eeq & deeq & sigma & mCs & _ & _ & _ & _ & _ & B & _).
  exists out, out1, out2, sigma.
  split; [exact H1 | split; [exact H2 | exact B]].
Qed.

(** Point 1 of a two-point driver keeps its stress while point 0 is
    evaluated. *)
Lemma gradient_evaluate_frame_witness :
  exists out out1 out2 sigma,
    GradientDamage.evaluate (GradientDamage.resize scenario_gradient 2)
                            [0.02] 0.002 out 1
    = Ok (GradientDamage.resize scenario_gradient 2, out1) /\
    GradientDamage.evaluate (GradientDamage.resize scenario_gradient 2)
                            [0.01] 0.002 out1 0
    = Ok (GradientDamage.resize scenario_gradient 2, out2) /\
    block out1 SIGMA 1 = Ok (Eigen.as_matrix sigma) /\
    block out2 SIGMA 1 = Ok (Eigen.as_matrix sigma).
Proof.
  destruct scenario_two_points as (out & out1 & out2 & sigma & H1 & H2 & B).
  exists out, out1, out2, sigma.
  split; [exact H1 | split; [exact H2 | split; [exact B |]]].
  rewrite (gradient_evaluate_frame _ _ _ _ _ _ _ H2 SIGMA 1%nat); [exact B | lia].
Defined.

(** X7.  Where the gradient law is elastic (nonlocal strain and stored
    kappa both at or below the threshold) [evaluate] writes the stress
    [C * strain], the tangent [C] and a zero DSIGMA_DE; on unloading
    ([e] below the stored kappa) DSIGMA_DE is zero as well. *)
Theorem gradient_elastic_and_unloading (law law' : GradientDamage.t)
        (strain : Eigen.VectorXd) (e : R) (out out' : outputs) (i : nat) :
  GradientDamage.evaluate law strain e out i = Ok (law', out') ->
  exists stored Cstrain,
    QValues.GetScalar (GradientDamage._kappa law) i = Ok stored /\
    Eigen.mat_vec (GradientDamage._C law) strain = Ok Cstrain /\
    (e < stored ->
     block out' DSIGMA_DE i
     = Ok (Eigen.as_matrix (repeat 0 (Eigen.rows (GradientDamage._C law))))) /\
    (e <= DamageLawExponential._k0 (GradientDamage._omega law) ->
     stored <= DamageLawExponential._k0 (GradientDamage._omega law) ->
     block out' SIGMA i = Ok (Eigen.as_matrix Cstrain) /\
     block out' DSIGMA_DEPS i = Ok (GradientDamage._C law) /\
     block out' DSIGMA_DE i
     = Ok (Eigen.as_matrix (repeat 0 (Eigen.rows (GradientDamage._C law))))).
Proof.
  intros H.
  destruct (gradient_evaluate_blocks _ _ _ _ _ _ _ H)
    as (stored & eeq & deeq & sigma & mCs & Hs & He & Hsig & Hm
        & _ & B2 & _ & B4 & B5 & _).
  cbv zeta in *.
  apply mat_vec_Ok in Hm as Hshape. destruct Hshape as [Hcols Hlen].
  simpl in Hcols, Hlen.
  destruct (mat_vec_in_shape (GradientDamage._C law) strain Hcols)
    as (Cs & HCs & _).
  exists stored, Cs.
  split; [exact Hs | split; [exact HCs | split]].
  - intros Hun. rewrite B4.
    rewrite gradient_kappa_unloading by exact Hun. cbn [snd].
    now rewrite vtimes_zero, vtimes_length, Hlen.
  - intros He0 Hs0.
    assert (Hk : fst (GradientDamage.evaluate_kappa e stored)
                 <= DamageLawExponential._k0 (GradientDamage._omega law)).
    { unfold GradientDamage.evaluate_kappa.
      destruct (Rge_dec e stored); simpl; assumption. }
    rewrite (damage_elastic _ _ Hk) in *. cbn [fst snd] in *.
    rewrite scale_one in *.
    split; [| split].
    + rewrite B2. congruence.
    + exact B5.
    + rewrite B4. now rewrite vtimes_zero, vtimes_of_zeros, Hlen.
Qed.

Lemma gradient_elastic_and_unloading_witness :
  exists out out',
    GradientDamage.evaluate (GradientDamage.resize scenario_gradient 1)
                            [0.0005] 0.0005 out 0
    = Ok (GradientDamage.resize scenario_gradient 1, out') /\
    block out' DSIGMA_DEPS 0 = Ok (Eigen.mkMatrix 1 1 [1000]).
Proof.
  destruct (scenario_gradient_evaluates 0.0005 0.0005) as (out & out' & _ & H).
  exists out, out'. split; [exact H |].
  destruct (gradient_elastic_and_unloading _ _ _ _ _ _ _ H)
    as (stored & Cs & Hs & _ & _ & Hel).
  apply GetScalar_Ok in Hs as (_ & _ & _ & Hst). simpl in Hst.
  destruct Hel as (_ & B & _); [simpl; lra | simpl; lra |].
  exact B.
Defined.

(** X8.  Committing the history does not change the answer: if [evaluate]
    returns for an input and [update] then commits the same input,
    [evaluate] on the updated law writes the very same outputs. *)
Theorem gradient_response_survives_update (law law2 : GradientDamage.t)
        (strain : Eigen.VectorXd) (e : R) (out out1 : outputs) (i : nat) :
  GradientDamage.evaluate law strain e out i = Ok (law, out1) ->
  GradientDamage.update law strain e i = Ok law2 ->
  GradientDamage.evaluate law2 strain e out i = Ok (law2, out1).
Proof.
  intros Hev Hup.
  apply gradient_update_Ok in Hup as (Hr & Hc & Hi & ->).
  unfold GradientDamage.evaluate in *.
  rewrite (GetScalar_in_range _ _ Hr Hc Hi) in Hev. cbn [bind] in Hev.
  rewrite GetScalar_in_range;
    [| exact Hr | exact Hc | simpl; now rewrite update_length].
  cbn [bind GradientDamage.with_kappa GradientDamage._kappa GradientDamage._omega
       GradientDamage._C GradientDamage._strain_norm QValues.with_data
       QValues.data].
  rewrite nth_update_same by exact Hi.
  rewrite kappa_pair_settled.
  destruct (GradientDamage.evaluate_kappa e _) as [kappa dkappa].
  destruct (DamageLawExponential.evaluate _ kappa) as [omega domega].
  step_both Hev.
  now injection Hev as ->.
Qed.

Lemma gradient_response_survives_update_witness :
  exists out out' law2,
    GradientDamage.update (GradientDamage.resize scenario_gradient 1)
                          [0.01] 0.002 0 = Ok law2 /\
    GradientDamage.evaluate law2 [0.01] 0.002 out 0 = Ok (law2, out').
Proof.
  destruct (scenario_gradient_evaluates 0.01 0.002) as (out & out' & _ & H).
  destruct (gradient_update_total (GradientDamage.resize scenario_gradient 1)
              [0.01] 0.002 0 scenario_gradient_room) as (law2 & Hup).
  exists out, out', law2. split; [exact Hup |].
  exact (gradient_response_survives_update _ _ _ _ _ _ _ H Hup).
Defined.

(** ** The passes of the driver, point by point *)

Lemma holds_response_transfer (law : GradientDamage.t) (strain : Eigen.VectorXd)
      (e : R) (out out' : outputs) (i : nat) :
  (forall what, block out' what i = block out what i) ->
  holds_response law strain e out i -> holds_response law strain e out' i.
Proof.
  intros Hsame (stored & eeq & deeq & sigma & mCs & Hs & He & Hsig & Hm
                & B1 & B2 & B3 & B4 & B5).
  exists stored, eeq, deeq, sigma, mCs.
  cbv zeta in *. rewrite !Hsame. repeat split; assumption.
Qed.

Lemma evaluate_from_blocks (q : nat) (all_strains all_neeq : Eigen.VectorXd)
      (count : nat) :
  forall i0 law out law' out',
    IpLoop.evaluate_from law q all_strains all_neeq out i0 count = Ok (law', out') ->
    (forall j, (i0 <= j < i0 + count)%nat ->
               exists strain,
                 Eigen.segment all_strains (j * q) q = Ok strain /\
                 holds_response law strain (nth j all_neeq 0) out' j) /\
    (forall what j, (j < i0 \/ i0 + count <= j)%nat ->
                    block out' what j = block out what j).
Proof.
  induction count as [| count IH]; simpl; intros i0 law out law' out' H.
  - injection H as _ <-. split; [intros j Hj; lia | intros; reflexivity].
  - bind_inv H. rename a into strain.
    bind_inv H. rename a into neeq.
    bind_inv H. destruct a as [law1 out1].
    apply get_Ok in Hstep0 as [_ <-].
    pose proof (gradient_evaluate_keeps_law _ _ _ _ _ _ _ Hstep1) as ->.
    destruct (gradient_evaluate_blocks _ _ _ _ _ _ _ Hstep1)
      as (stored & eeq & deeq & sigma & mCs & Hs & He & Hsig & Hm
          & B1 & B2 & B3 & B4 & B5 & F1).
    destruct (IH _ _ _ _ _ H) as [Hnew Hold].
    split.
    + intros j Hj.
      destruct (Nat.eq_dec j i0) as [-> | Hne].
      * exists strain. split; [exact Hstep |].
        apply (holds_response_transfer law strain _ out1).
        { intros what. apply Hold. lia. }
        exists stored, eeq, deeq, sigma, mCs.
        cbv zeta in *. repeat split; assumption.
      * apply Hnew. lia.
    + intros what j Hj.
      rewrite Hold by lia. apply F1. lia.
Qed.

(** X10.  A returning evaluation pass has written, for every point
    [i < n], the response of the law to the [i]-th window of the strain
    array and the [i]-th nonlocal strain, in all five outputs; blocks past
    [n] are as they were. *)
Theorem IpLoop_evaluate_pointwise (loop loop' : IpLoop.t)
        (all_strains all_neeq : Eigen.VectorXd) :
  IpLoop.evaluate loop all_strains all_neeq = Ok loop' ->
  let q := GradientDamage.qdim (IpLoop._law loop) in
  (forall i, (i < IpLoop._n loop)%nat ->
             exists strain,
               Eigen.segment all_strains (i * q) q = Ok strain /\
               holds_response (IpLoop._law loop) strain (nth i all_neeq 0)
                              (IpLoop._outputs loop') i) /\
  (forall what j, (IpLoop._n loop <= j)%nat ->
                  block (IpLoop._outputs loop') what j
                  = block (IpLoop._outputs loop) what j).
Proof.
  intros H. cbv zeta. unfold IpLoop.evaluate in H.
  bind_inv H. destruct a as [law out]. injection H as <-. simpl.
  destruct (evaluate_from_blocks _ _ _ _ _ _ _ _ _ Hstep) as [Hnew Hold].
  split.
  - intros i Hi. apply Hnew. lia.
  - intros what j Hj. apply Hold. lia.
Qed.

Lemma IpLoop_evaluate_pointwise_witness :
  exists out loop' strain,
    IpLoop.evaluate (IpLoop.mk (GradientDamage.resize scenario_gradient 1) out 1)
                    [0.01] [0.002] = Ok loop' /\
    Eigen.segment [0.01] 0 1 = Ok strain /\
    holds_response (GradientDamage.resize scenario_gradient 1) strain 0.002
                   (IpLoop._outputs loop') 0.
Proof.
  destruct scenario_loop_sized as (out & _ & Hs).
  destruct (IpLoop_passes_total
              (IpLoop.mk (GradientDamage.resize scenario_gradient 1) out 1)
              [0.01] [0.002] Hs eq_refl eq_refl) as [[loop' H] _].
  destruct (proj1 (IpLoop_evaluate_pointwise _ _ _ _ H) 0%nat (le_n 1))
    as (strain & Hseg & Hresp).
  exists out, loop', strain. split; [exact H | split; [exact Hseg | exact Hresp]].
Defined.

Lemma update_from_values (q : nat) (all_strains all_neeq : Eigen.VectorXd)
      (count : nat) :
  forall i0 law law',
    IpLoop.update_from law q all_strains all_neeq i0 count = Ok law' ->
    exists d,
      law' = GradientDamage.with_kappa law
               (QValues.with_data (GradientDamage._kappa law) d) /\
      (count = 0%nat -> d = QValues.data (GradientDamage._kappa law)) /\
      length d = length (QValues.data (GradientDamage._kappa law)) /\
      (forall j, (i0 <= j < i0 + count)%nat ->
                 nth j d 0
                 = Rmax (nth j all_neeq 0)
                        (nth j (QValues.data (GradientDamage._kappa law)) 0)) /\
      (forall j, (j < i0 \/ i0 + count <= j)%nat ->
                 nth j d 0 = nth j (QValues.data (GradientDamage._kappa law)) 0).
Proof.
  induction count as [| count IH]; simpl; intros i0 law law' H.
  - injection H as <-.
    exists (QValues.data (GradientDamage._kappa law)).
    split; [now destruct law as [C o s [r c d]] |].
    repeat split; auto. intros j Hj; lia.
  - bind_inv H. bind_inv H. rename a0 into neeq.
    bind_inv H. rename a0 into law1.
    apply get_Ok in Hstep0 as [_ <-].
    apply gradient_update_Ok in Hstep1 as (Hr & Hc & Hi & ->).
    destruct (IH _ _ _ H) as (d & -> & _ & Hlen & Hnew & Hold).
    cbn [GradientDamage.with_kappa GradientDamage._kappa GradientDamage._C
         GradientDamage._omega GradientDamage._strain_norm
         QValues.with_data QValues.data QValues._rows QValues._cols] in *.
    rewrite update_length in Hlen.
    exists d. split; [reflexivity |].
    split; [discriminate |].
    split; [exact Hlen |].
    split.
    + intros j Hj.
      destruct (Nat.eq_dec j i0) as [-> | Hne].
      * rewrite Hold by lia.
        rewrite nth_update_same by exact Hi.
        rewrite evaluate_kappa_same. apply kappa_is_max.
      * rewrite Hnew by lia.
        now rewrite nth_update_other by congruence.
    + intros j Hj.
      rewrite Hold by lia.
      apply nth_update_other. lia.
Qed.

(** X11.  A returning update pass leaves the outputs, the point count and
    the law's parameters alone and commits, for every point [i < n], the
    larger of the [i]-th nonlocal strain and the stored kappa; the strain
    array plays no part in the values, and entries past [n] are kept. *)
Theorem IpLoop_update_pointwise (loop loop' : IpLoop.t)
        (all_strains all_neeq : Eigen.VectorXd) :
  IpLoop.update loop all_strains all_neeq = Ok loop' ->
  let kappa := QValues.data (GradientDamage._kappa (IpLoop._law loop)) in
  let kappa' := QValues.data (GradientDamage._kappa (IpLoop._law loop')) in
  IpLoop._outputs loop' = IpLoop._outputs loop /\
  IpLoop._n loop' = IpLoop._n loop /\
  GradientDamage._C (IpLoop._law loop') = GradientDamage._C (IpLoop._law loop) /\
  GradientDamage._omega (IpLoop._law loop')
  = GradientDamage._omega (IpLoop._law loop) /\
  GradientDamage._strain_norm (IpLoop._law loop')
  = GradientDamage._strain_norm (IpLoop._law loop) /\
  length kappa' = length kappa /\
  (forall i, (i < IpLoop._n loop)%nat ->
             nth i kappa' 0 = Rmax (nth i all_neeq 0) (nth i kappa 0)) /\
  (forall i, (IpLoop._n loop <= i)%nat -> nth i kappa' 0 = nth i kappa 0).
Proof.
  intros H. cbv zeta. unfold IpLoop.update in H.
  bind_inv H. injection H as <-.
  destruct (update_from_values _ _ _ _ _ _ _ Hstep)
    as (d & -> & _ & Hlen & Hnew & Hold).
  simpl. repeat split; auto;
    intros i Hi; first [apply Hnew | apply Hold]; lia.
Qed.

Lemma IpLoop_update_pointwise_witness :
  exists out loop',
    IpLoop.update (IpLoop.mk (GradientDamage.resize scenario_gradient 1) out 1)
                  [0.01] [0.002] = Ok loop' /\
    nth 0 (QValues.data (GradientDamage._kappa (IpLoop._law loop'))) 0
    = Rmax 0.002 0.
Proof.
  destruct scenario_loop_sized as (out & _ & Hs).
  destruct (IpLoop_passes_total
              (IpLoop.mk (GradientDamage.resize scenario_gradient 1) out 1)
              [0.01] [0.002] Hs eq_refl eq_refl) as [_ [loop' H]].
  exists out, loop'. split; [exact H |].
  destruct (IpLoop_update_pointwise _ _ _ _ H)
    as (_ & _ & _ & _ & _ & _ & Hnew & _).
  exact (Hnew 0%nat (le_n 1)).
Defined.

(** ** Sizes of the outputs *)

Lemma replace_nth_sizes (out : outputs) (k : nat) (q q' : QValues.t) :
  nth_error out k = Some q ->
  QValues._rows q' = QValues._rows q ->
  QValues._cols q' = QValues._cols q ->
  length (QValues.data q') = length (QValues.data q) ->
  sizes (replace_nth out k q') = sizes out.
Proof.
  revert k; induction out as [| p out IH]; intros [| k] H Hr Hc Hl; simpl in *;
    try discriminate.
  - injection H as ->. unfold sizes; simpl. now rewrite Hr, Hc, Hl.
  - unfold sizes in *; simpl. f_equal. now apply IH.
Qed.

Lemma output_Set_sizes (out out' : outputs) (what : Q) (value : Eigen.MatrixXd)
      (i : nat) :
  output_Set out what value i = Ok out' -> sizes out' = sizes out.
Proof.
  unfold output_Set; intros H.
  bind_inv H. bind_inv H. injection H as <-.
  apply output_Ok in Hstep.
  apply SetMatrix_Ok in Hstep0 as (Hr & Hc & Hrange & Hlen & ->).
  apply (replace_nth_sizes out _ a); auto.
  simpl. now apply set_segment_length.
Qed.

Lemma gradient_evaluate_sizes (law law' : GradientDamage.t)
      (strain : Eigen.VectorXd) (e : R) (out out' : outputs) (i : nat) :
  GradientDamage.evaluate law strain e out i = Ok (law', out') ->
  sizes out' = sizes out.
Proof.
  unfold GradientDamage.evaluate; intros H.
  bind_inv H.
  destruct (GradientDamage.evaluate_kappa e a) as [kappa dkappa].
  destruct (DamageLawExponential.evaluate _ kappa) as [omega domega].
  bind_inv H. destruct a0 as [eeq deeq].
  do 7 bind_inv H. injection H as _ <-.
  rewrite output_SetScalar_is_Set in Hstep1.
  apply output_Set_sizes in Hstep1, Hstep3, Hstep4, Hstep6, Hstep7.
  congruence.
Qed.

Lemma evaluate_from_sizes (q : nat) (all_strains all_neeq : Eigen.VectorXd)
      (count : nat) :
  forall i0 law out law' out',
    IpLoop.evaluate_from law q all_strains all_neeq out i0 count = Ok (law', out') ->
    sizes out' = sizes out.
Proof.
  induction count as [| count IH]; simpl; intros i0 law out law' out' H.
  - now injection H as _ <-.
  - do 3 bind_inv H. destruct a1 as [law1 out1].
    apply gradient_evaluate_sizes in Hstep1.
    apply IH in H. congruence.
Qed.

Lemma Resize_by_sizes (out out' : outputs) (m : nat) :
  sizes out' = sizes out ->
  map (fun q => QValues.Resize q m) out' = map (fun q => QValues.Resize q m) out.
Proof.
  revert out; induction out' as [| p' out' IH]; intros [| p out] H;
    unfold sizes in H; simpl in *; try discriminate; [reflexivity |].
  injection H as Hr Hc _ H.
  f_equal; [| now apply IH].
  unfold QValues.Resize, QValues.with_data. now rewrite Hr, Hc.
Qed.

(** X9.  The driver built for a law and resized to [n] points hands out
    zeroed flat arrays: [n] values for EEQ, [n * q] for SIGMA, DEEQ and
    DSIGMA_DE, [n * q * q] for DSIGMA_DEPS, with [q] the rows of [C];
    [Get (LAST)] is past the vector and throws. *)
Theorem IpLoop_Get_after_resize (law : GradientDamage.t) (loop0 : IpLoop.t)
        (n : nat) :
  IpLoop.new law = Ok loop0 ->
  let q := Eigen.rows (GradientDamage._C law) in
  let loop := IpLoop.resize loop0 n in
  IpLoop_Get loop EEQ = Some (repeat 0 n) /\
  IpLoop_Get loop SIGMA = Some (repeat 0 (n * q)) /\
  IpLoop_Get loop DEEQ = Some (repeat 0 (n * q)) /\
  IpLoop_Get loop DSIGMA_DE = Some (repeat 0 (n * q)) /\
  IpLoop_Get loop DSIGMA_DEPS = Some (repeat 0 (n * q * q)) /\
  IpLoop_Get loop LAST = None.
Proof.
  intros H. rewrite IpLoop_new_allocates in H. injection H as <-.
  cbv zeta. unfold IpLoop_Get; simpl. unfold Eigen.setZero.
  repeat split; do 2 f_equal; lia.
Qed.

Lemma IpLoop_Get_after_resize_witness :
  IpLoop_Get (IpLoop.resize
                (IpLoop.mk scenario_gradient
                   [QValues.default; QValues.new 1 1; QValues.new 1 1;
                    QValues.new 1 1; QValues.new 1 1; QValues.new 1 1] 0) 3)
             SIGMA
  = Some [0; 0; 0].
Proof.
  exact (proj1 (proj2 (IpLoop_Get_after_resize scenario_gradient _ 3
                         (IpLoop_new_allocates scenario_gradient)))).
Defined.

(** X13.  Neither pass changes the shape or the length of any output
    array, and whatever the passes have computed or committed is forgotten
    by the next [resize]: it gives the state that resizing before the pass
    gives. *)
Theorem IpLoop_resize_forgets (loop loop' : IpLoop.t)
        (all_strains all_neeq : Eigen.VectorXd) :
  IpLoop.evaluate loop all_strains all_neeq = Ok loop' \/
  IpLoop.update loop all_strains all_neeq = Ok loop' ->
  sizes (IpLoop._outputs loop') = sizes (IpLoop._outputs loop) /\
  (forall what,
      option_map (@length R) (IpLoop_Get loop' what)
      = option_map (@length R) (IpLoop_Get loop what)) /\
  forall m, IpLoop.resize loop' m = IpLoop.resize loop m.
Proof.
  intros H.
  assert (Hparts : sizes (IpLoop._outputs loop') = sizes (IpLoop._outputs loop) /\
                   forall m, GradientDamage.resize (IpLoop._law loop') m
                             = GradientDamage.resize (IpLoop._law loop) m).
  { destruct H as [H | H].
    - unfold IpLoop.evaluate in H.
      bind_inv H. destruct a as [law out]. injection H as <-. simpl.
      pose proof (evaluate_from_keeps_law _ _ _ _ _ _ _ _ _ Hstep) as ->.
      split; [exact (evaluate_from_sizes _ _ _ _ _ _ _ _ _ Hstep) | reflexivity].
    - unfold IpLoop.update in H.
      bind_inv H. injection H as <-. simpl.
      destruct (update_from_values _ _ _ _ _ _ _ Hstep) as (d & -> & _).
      split; reflexivity. }
  destruct Hparts as [Hs Hlaw].
  split; [exact Hs | split].
  - intros what. unfold IpLoop_Get.
    assert (Hn : forall (a b : outputs) k,
               sizes a = sizes b ->
               option_map (@length R) (option_map QValues.data (nth_error a k))
               = option_map (@length R) (option_map QValues.data (nth_error b k))).
    { induction a as [| x a IHa]; intros [| y b] k Hab; unfold sizes in Hab;
        simpl in Hab; try discriminate; [reflexivity |].
      injection Hab as _ _ Hl Hab.
      destruct k as [| k]; simpl; [now rewrite Hl | now apply IHa]. }
    now apply Hn.
  - intros m. unfold IpLoop.resize.
    rewrite Hlaw, (Resize_by_sizes _ _ m Hs). reflexivity.
Qed.

Lemma IpLoop_resize_forgets_witness :
  exists out loop',
    IpLoop.update (IpLoop.mk (GradientDamage.resize scenario_gradient 1) out 1)
                  [0.01] [0.002] = Ok loop' /\
    IpLoop.resize loop' 3
    = IpLoop.resize
        (IpLoop.mk (GradientDamage.resize scenario_gradient 1) out 1) 3.
Proof.
  destruct scenario_loop_sized as (out & _ & Hs).
  destruct (IpLoop_passes_total
              (IpLoop.mk (GradientDamage.resize scenario_gradient 1) out 1)
              [0.01] [0.002] Hs eq_refl eq_refl) as [_ [loop' H]].
  exists out, loop'. split; [exact H |].
  exact (proj2 (proj2 (IpLoop_resize_forgets _ _ _ _ (or_intror H))) 3%nat).
Defined.

(** ** How long the input arrays must be *)

Lemma segment_out_of_range (v : Eigen.VectorXd) (start n : nat) :
  (length v < start + n)%nat -> Eigen.segment v start n = Abort EigenAssert.
Proof.
  intros H; unfold Eigen.segment.
  now rewrite (proj2 (Nat.leb_gt _ _) H).
Qed.

Lemma get_out_of_range (v : Eigen.VectorXd) (i : nat) :
  (length v <= i)%nat -> Eigen.get v i = Abort EigenAssert.
Proof.
  intros H; unfold Eigen.get.
  now rewrite (proj2 (nth_error_None _ _) H).
Qed.

Lemma evaluate_from_enough (n : nat) (all_strains all_neeq : Eigen.VectorXd)
      (law : GradientDamage.t) :
  (n * Eigen.rows (GradientDamage._C law) <= length all_strains)%nat ->
  (n <= length all_neeq)%nat ->
  forall count i out,
    (i + count <= n)%nat ->
    driver_sized law out n ->
    exists out',
      IpLoop.evaluate_from law (GradientDamage.qdim law) all_strains all_neeq
                           out i count = Ok (law, out') /\
      driver_sized law out' n.
Proof.
  intros Hs He.
  unfold GradientDamage.qdim.
  induction count as [| count IH]; intros i out Hi Hsized; simpl.
  - exists out; auto.
  - destruct (segment_in_range all_strains
                (i * Eigen.rows (GradientDamage._C law))
                (Eigen.rows (GradientDamage._C law)))
      as (strain & Hstrain & Hlen); [nia |].
    rewrite Hstrain; cbn [bind].
    rewrite get_in_range by lia; cbn [bind].
    destruct (gradient_evaluate_total law strain (nth i all_neeq 0) out i)
      as (out1 & Hev & Hkeep).
    { apply (sized_ready law out n); [exact Hsized | lia | exact Hlen]. }
    rewrite Hev; cbn [bind].
    apply IH; [lia |].
    exact (sized_after_store law out out1 n Hsized Hkeep).
Qed.

Lemma update_from_enough (n : nat) (all_strains all_neeq : Eigen.VectorXd)
      (out : outputs) (q : nat) :
  (n * q <= length all_strains)%nat ->
  (n <= length all_neeq)%nat ->
  forall count i law,
    (i + count <= n)%nat ->
    driver_sized law out n ->
    exists law',
      IpLoop.update_from law q all_strains all_neeq i count = Ok law' /\
      driver_sized law' out n.
Proof.
  intros Hs He.
  induction count as [| count IH]; intros i law Hi Hsized; simpl.
  - exists law; auto.
  - destruct (segment_in_range all_strains (i * q) q)
      as (strain & Hstrain & _); [nia |].
    rewrite Hstrain; cbn [bind].
    rewrite get_in_range by lia; cbn [bind].
    destruct (gradient_update_total law strain (nth i all_neeq 0) i)
      as (law1 & Hup).
    { apply Hsized. lia. }
    rewrite Hup; cbn [bind].
    apply IH; [lia |].
    exact (sized_after_update law law1 strain _ i n out Hup Hsized).
Qed.

Lemma evaluate_from_short (n : nat) (all_strains all_neeq : Eigen.VectorXd)
      (law : GradientDamage.t) :
  forall count i out,
    (i + count <= n)%nat ->
    driver_sized law out n ->
    (i * Eigen.rows (GradientDamage._C law) <= length all_strains)%nat ->
    (i <= length all_neeq)%nat ->
    (length all_neeq < i + count)%nat \/
    (length all_strains < (i + count) * Eigen.rows (GradientDamage._C law))%nat ->
    IpLoop.evaluate_from law (GradientDamage.qdim law) all_strains all_neeq
                         out i count = Abort EigenAssert.
Proof.
  unfold GradientDamage.qdim.
  induction count as [| count IH]; intros i out Hi Hsized Hsi Hei Hshort; simpl.
  - exfalso. rewrite Nat.add_0_r in Hshort. lia.
  - set (q := Eigen.rows (GradientDamage._C law)) in *.
    destruct (Nat.lt_ge_cases (length all_strains) (i * q + q)) as [Hs | Hs].
    { now rewrite segment_out_of_range. }
    destruct (segment_in_range all_strains (i * q) q Hs)
      as (strain & Hstrain & Hlen).
    rewrite Hstrain; cbn [bind].
    destruct (Nat.lt_ge_cases i (length all_neeq)) as [He | He].
    2: { now rewrite get_out_of_range. }
    rewrite get_in_range by exact He; cbn [bind].
    destruct (gradient_evaluate_total law strain (nth i all_neeq 0) out i)
      as (out1 & Hev & Hkeep).
    { apply (sized_ready law out n); [exact Hsized | lia | exact Hlen]. }
    rewrite Hev; cbn [bind].
    apply IH.
    + lia.
    + exact (sized_after_store law out out1 n Hsized Hkeep).
    + simpl. lia.
    + lia.
    + replace (S i + count)%nat with (i + S count)%nat by lia. exact Hshort.
Qed.

Lemma update_from_short (n : nat) (all_strains all_neeq : Eigen.VectorXd)
      (out : outputs) (q : nat) :
  forall count i law,
    (i + count <= n)%nat ->
    driver_sized law out n ->
    (i * q <= length all_strains)%nat ->
    (i <= length all_neeq)%nat ->
    (length all_neeq < i + count)%nat \/
    (length all_strains < (i + count) * q)%nat ->
    IpLoop.update_from law q all_strains all_neeq i count = Abort EigenAssert.
Proof.
  induction count as [| count IH]; intros i law Hi Hsized Hsi Hei Hshort; simpl.
  - exfalso. rewrite Nat.add_0_r in Hshort. lia.
  - destruct (Nat.lt_ge_cases (length all_strains) (i * q + q)) as [Hs | Hs].
    { now rewrite segment_out_of_range. }
    destruct (segment_in_range all_strains (i * q) q Hs)
      as (strain & Hstrain & Hlen).
    rewrite Hstrain; cbn [bind].
    destruct (Nat.lt_ge_cases i (length all_neeq)) as [He | He].
    2: { now rewrite get_out_of_range. }
    rewrite get_in_range by exact He; cbn [bind].
    destruct (gradient_update_total law strain (nth i all_neeq 0) i)
      as (law1 & Hup).
    { apply Hsized. lia. }
    rewrite Hup; cbn [bind].
    apply IH.
    + lia.
    + exact (sized_after_update law law1 strain _ i n out Hup Hsized).
    + simpl. lia.
    + lia.
    + replace (S i + count)%nat with (i + S count)%nat by lia. exact Hshort.
Qed.

(** X12.  On a driver sized for [n] points both passes return when the
    arrays hold at least [n] nonlocal strains and [n * q] strain
    components (none are needed for [n = 0]); with a shorter array both
    passes stop at Eigen's bounds check. *)
Theorem IpLoop_passes_bounds (loop : IpLoop.t)
        (all_strains all_neeq : Eigen.VectorXd) :
  driver_sized (IpLoop._law loop) (IpLoop._outputs loop) (IpLoop._n loop) ->
  let n := IpLoop._n loop in
  let q := GradientDamage.qdim (IpLoop._law loop) in
  ((n <= length all_neeq)%nat -> (n * q <= length all_strains)%nat ->
   (exists loop', IpLoop.evaluate loop all_strains all_neeq = Ok loop') /\
   (exists loop', IpLoop.update loop all_strains all_neeq = Ok loop')) /\
  ((length all_neeq < n)%nat \/ (length all_strains < n * q)%nat ->
   IpLoop.evaluate loop all_strains all_neeq = Abort EigenAssert /\
   IpLoop.update loop all_strains all_neeq = Abort EigenAssert).
Proof.
  intros Hsized. cbv zeta. split.
  - intros He Hs. split.
    + unfold IpLoop.evaluate.
      destruct (evaluate_from_enough (IpLoop._n loop) all_strains all_neeq
                  (IpLoop._law loop) Hs He (IpLoop._n loop) 0
                  (IpLoop._outputs loop)) as (out' & Hev & _);
        [lia | exact Hsized |].
      rewrite Hev; cbn [bind]. eexists; reflexivity.
    + unfold IpLoop.update.
      destruct (update_from_enough (IpLoop._n loop) all_strains all_neeq
                  (IpLoop._outputs loop) (GradientDamage.qdim (IpLoop._law loop))
                  Hs He (IpLoop._n loop) 0 (IpLoop._law loop)) as (law' & Hup & _);
        [lia | exact Hsized |].
      rewrite Hup; cbn [bind]. eexists; reflexivity.
  - intros Hshort. split.
    + unfold IpLoop.evaluate.
      rewrite (evaluate_from_short (IpLoop._n loop)); auto; simpl; lia.
    + unfold IpLoop.update.
      rewrite (update_from_short (IpLoop._n loop) _ _ (IpLoop._outputs loop));
        auto; simpl; lia.
Qed.

Lemma IpLoop_passes_bounds_witness :
  exists out,
    (exists loop',
        IpLoop.evaluate
          (IpLoop.mk (GradientDamage.resize scenario_gradient 1) out 1)
          [0.01; 0.02] [0.002] = Ok loop') /\
    IpLoop.evaluate
      (IpLoop.mk (GradientDamage.resize scenario_gradient 1) out 1)
      [] [0.002] = Abort EigenAssert.
Proof.
  destruct scenario_loop_sized as (out & _ & Hs).
  exists out. split.
  - apply (proj1 (IpLoop_passes_bounds
                    (IpLoop.mk (GradientDamage.resize scenario_gradient 1) out 1)
                    [0.01; 0.02] [0.002] Hs)); simpl; lia.
  - apply (proj2 (IpLoop_passes_bounds
                    (IpLoop.mk (GradientDamage.resize scenario_gradient 1) out 1)
                    [] [0.002] Hs)).
    right. simpl. lia.
Defined.

(** ** The damage curve *)

Lemma omega_above (k0 a b k : R) :
  0 < k0 -> 0 <= a <= 1 -> 0 <= b -> k0 < k ->
  let omega := fst (DamageLawExponential.evaluate
                      (DamageLawExponential.new k0 a b) k) in
  1 - k0 / k <= omega /\ omega <= 1 - (1 - a) * (k0 / k) /\ 0 < omega < 1.
Proof.
  intros H0 Ha Hb Hk. cbv zeta.
  rewrite damage_softening by exact Hk.
  fold (softening k0 a b k).
  pose proof (softening_range k0 a b k Ha Hb Hk) as Hs.
  pose proof (ratio_range k0 k H0 Hk) as Hr.
  assert (Hlow : 1 - a <= softening k0 a b k).
  { unfold softening. pose proof (exp_pos (b * (k0 - k))). nra. }
  repeat split; nra.
Qed.

Lemma omega_monotone (k0 a b k1 k2 : R) :
  0 < k0 -> 0 <= a <= 1 -> 0 <= b -> k1 <= k2 ->
  fst (DamageLawExponential.evaluate (DamageLawExponential.new k0 a b) k1)
  <= fst (DamageLawExponential.evaluate (DamageLawExponential.new k0 a b) k2).
Proof.
  intros H0 Ha Hb H12.
  destruct (Rle_lt_dec k1 k0) as [H1 | H1].
  - rewrite (damage_elastic (DamageLawExponential.new k0 a b) k1) by exact H1.
    destruct (Rle_lt_dec k2 k0) as [H2 | H2].
    + rewrite (damage_elastic (DamageLawExponential.new k0 a b) k2) by exact H2.
      simpl. lra.
    + pose proof (omega_above k0 a b k2 H0 Ha Hb H2) as Hb2.
      cbv zeta in Hb2. simpl. lra.
  - rewrite !damage_softening by lra.
    fold (softening k0 a b k1) (softening k0 a b k2).
    pose proof (softening_range k0 a b k1 Ha Hb H1) as Hs1.
    assert (Hs : softening k0 a b k2 <= softening k0 a b k1)
      by (apply softening_decreasing; lra).
    destruct H12 as [H12 | ->]; [| lra].
    assert (Hr : k0 / k2 < k0 / k1) by (apply ratio_decreasing; lra).
    assert (Hr2 : 0 < k0 / k2) by (apply ratio_range; lra).
    nra.
Qed.

(** The closed form of the softening branch. *)
Lemma softening_branch_derivative (k0 a b k : R) :
  k <> 0 ->
  derivable_pt_lim (fun x => 1 - k0 / x * (1 - a + a * exp (b * (k0 - x)))) k
    (k0 / k * ((1 / k + b) * a * exp (b * (k0 - k)) + (1 - a) / k)).
Proof.
  intros Hk.
  apply (derivable_pt_lim_ext
           (fct_cte 1
            - (fct_cte k0 / id)
              * (fct_cte (1 - a)
                 + mult_real_fct a (comp exp (mult_real_fct b (fct_cte k0 - id)))))%F).
  { intros z. reflexivity. }
  replace (k0 / k * ((1 / k + b) * a * exp (b * (k0 - k)) + (1 - a) / k))
    with (0 - ((0 * id k - 1 * fct_cte k0 k) / (id k)²
               * (fct_cte (1 - a)
                  + mult_real_fct a
                      (comp exp (mult_real_fct b (fct_cte k0 - id))))%F k
               + (fct_cte k0 / id)%F k
                 * (0 + a * (exp (mult_real_fct b (fct_cte k0 - id)%F k)
                             * (b * (0 - 1)))))).
  2: { unfold id, fct_cte, mult_real_fct, comp, plus_fct, minus_fct, div_fct,
         Rsqr.
       field. exact Hk. }
  apply derivable_pt_lim_minus; [apply derivable_pt_lim_const |].
  apply derivable_pt_lim_mult.
  - apply derivable_pt_lim_div;
      [apply derivable_pt_lim_const | apply derivable_pt_lim_id | exact Hk].
  - apply derivable_pt_lim_plus; [apply derivable_pt_lim_const |].
    apply derivable_pt_lim_scal.
    apply derivable_pt_lim_comp; [| apply derivable_pt_lim_exp].
    apply derivable_pt_lim_scal.
    apply derivable_pt_lim_minus;
      [apply derivable_pt_lim_const | apply derivable_pt_lim_id].
Qed.

(** X14.  The second component that [DamageLawExponential::evaluate] returns
    is the derivative of the first: 0 below the threshold, and the
    derivative of the softening curve above it (at a kappa other than 0,
    where the curve divides by kappa). *)
Theorem domega_is_the_derivative (k0 a b kappa : R) :
  let law := DamageLawExponential.new k0 a b in
  (kappa < k0 \/ (k0 < kappa /\ kappa <> 0)) ->
  derivable_pt_lim (fun x => fst (DamageLawExponential.evaluate law x)) kappa
                   (snd (DamageLawExponential.evaluate law kappa)).
Proof.
  intros law [Hlow | [Hhigh Hne]]; subst law.
  - apply (derivable_pt_lim_locally_ext (fct_cte 0) _ kappa (kappa - 1) k0);
      [lra | |].
    + intros z Hz.
      rewrite (damage_elastic (DamageLawExponential.new k0 a b) z)
        by (simpl; lra).
      reflexivity.
    + rewrite (damage_elastic (DamageLawExponential.new k0 a b) kappa)
        by (simpl; lra).
      apply derivable_pt_lim_const.
  - apply (derivable_pt_lim_locally_ext
             (fun x => 1 - k0 / x * (1 - a + a * exp (b * (k0 - x))))
             _ kappa k0 (kappa + 1));
      [lra | |].
    + intros z Hz. symmetry. apply damage_softening. lra.
    + unfold DamageLawExponential.evaluate; simpl.
      destruct (Rle_dec kappa k0); [lra |]. simpl.
      now apply softening_branch_derivative.
Qed.

Lemma domega_is_the_derivative_witness :
  derivable_pt_lim
    (fun x => fst (DamageLawExponential.evaluate
                     (DamageLawExponential.new (1 / 1000) 0.99 (1 / 10)) x))
    0.002
    (snd (DamageLawExponential.evaluate
            (DamageLawExponential.new (1 / 1000) 0.99 (1 / 10)) 0.002)).
Proof.
  apply (domega_is_the_derivative (1 / 1000) 0.99 (1 / 10) 0.002).
  right. split; lra.
Defined.

(** X15.  Above a positive threshold, with [alpha] between 0 and 1 and
    [beta] not negative, the damage lies between [1 - kappa0 / kappa] and
    [1 - (1 - alpha) * kappa0 / kappa]: the stiffness left is at least the
    fraction [(1 - alpha) * kappa0 / kappa], and the derivative returned is
    positive. *)
Theorem damage_residual_bounds (k0 alpha beta kappa : R) :
  0 < k0 -> 0 <= alpha <= 1 -> 0 <= beta -> k0 < kappa ->
  let law := DamageLawExponential.new k0 alpha beta in
  1 - k0 / kappa <= fst (DamageLawExponential.evaluate law kappa) /\
  fst (DamageLawExponential.evaluate law kappa) <= 1 - (1 - alpha) * (k0 / kappa) /\
  0 < snd (DamageLawExponential.evaluate law kappa).
Proof.
  intros H0 Ha Hb Hk law; subst law.
  destruct (omega_above k0 alpha beta kappa H0 Ha Hb Hk) as (Hl & Hu & _).
  split; [exact Hl | split; [exact Hu |]].
  unfold DamageLawExponential.evaluate; simpl.
  destruct (Rle_dec kappa k0); [lra |]. simpl.
  pose proof (exp_pos (beta * (k0 - kappa))) as He.
  pose proof (ratio_range k0 kappa H0 Hk) as Hr.
  assert (Hk' : 0 < / kappa) by (apply Rinv_0_lt_compat; lra).
  assert (H1 : 0 <= (1 / kappa + beta) * alpha * exp (beta * (k0 - kappa))).
  { apply Rmult_le_pos; [| lra].
    apply Rmult_le_pos; [| lra]. unfold Rdiv. lra. }
  assert (H2 : 0 <= (1 - alpha) / kappa).
  { unfold Rdiv. apply Rmult_le_pos; lra. }
  apply Rmult_lt_0_compat; [lra |].
  destruct (Req_dec alpha 0) as [-> | Hane].
  - unfold Rdiv in *. nra.
  - assert (0 < (1 / kappa + beta) * alpha * exp (beta * (k0 - kappa))).
    { apply Rmult_lt_0_compat; [| exact He].
      apply Rmult_lt_0_compat; [unfold Rdiv; lra | lra]. }
    lra.
Qed.

Lemma damage_residual_bounds_witness :
  1 - (1 / 1000) / 0.002
  <= fst (DamageLawExponential.evaluate
            (DamageLawExponential.new (1 / 1000) 0.99 (1 / 10)) 0.002)
  <= 1 - (1 - 0.99) * ((1 / 1000) / 0.002).
Proof.
  destruct (damage_residual_bounds (1 / 1000) 0.99 (1 / 10) 0.002)
    as (Hl & Hu & _); try lra.
Defined.

(** X16.  With such parameters the damage is in [0, 1) at every kappa,
    never decreases as kappa grows, and leaves the threshold without a
    jump: it is at most [(kappa - kappa0) * (1 / kappa0 + alpha * beta)]. *)
Theorem damage_range_everywhere (k0 alpha beta : R) :
  0 < k0 -> 0 <= alpha <= 1 -> 0 <= beta ->
  let omega := fun kappa =>
                 fst (DamageLawExponential.evaluate
                        (DamageLawExponential.new k0 alpha beta) kappa) in
  (forall kappa, 0 <= omega kappa < 1) /\
  (forall kappa1 kappa2, kappa1 <= kappa2 -> omega kappa1 <= omega kappa2) /\
  (forall kappa, k0 <= kappa ->
                 omega kappa <= (kappa - k0) * (1 / k0 + alpha * beta)).
Proof.
  intros H0 Ha Hb omega; subst omega; cbv beta.
  split; [| split].
  - intros kappa.
    destruct (Rle_lt_dec kappa k0) as [H | H].
    + rewrite (damage_elastic (DamageLawExponential.new k0 alpha beta) kappa)
        by exact H.
      simpl. lra.
    + pose proof (omega_above k0 alpha beta kappa H0 Ha Hb H) as Hb2.
      cbv zeta in Hb2. lra.
  - intros kappa1 kappa2. now apply omega_monotone.
  - intros kappa [Hk | <-].
    + rewrite damage_softening by exact Hk.
      pose proof (exp_ineq1_le (beta * (k0 - kappa))) as He.
      pose proof (ratio_range k0 kappa H0 Hk) as Hr.
      assert (Hs : 1 - alpha * beta * (kappa - k0)
                   <= 1 - alpha + alpha * exp (beta * (k0 - kappa))) by nra.
      assert (Hq : k0 / kappa * (1 - alpha + alpha * exp (beta * (k0 - kappa)))
                   >= k0 / kappa * (1 - alpha * beta * (kappa - k0))) by nra.
      assert (Hdiv : k0 / kappa = 1 - (kappa - k0) / kappa)
        by (field; lra).
      assert (Hfrac : 0 < (kappa - k0) / kappa <= (kappa - k0) / k0).
      { split.
        - apply Rdiv_lt_0_compat; lra.
        - unfold Rdiv. apply Rmult_le_compat_l; [lra |].
          apply Rinv_le_contravar; lra. }
      assert (Hexp : (kappa - k0) * (1 / k0 + alpha * beta)
                     = (kappa - k0) / k0 + alpha * beta * (kappa - k0))
        by (field; lra).
      rewrite Hexp.
      assert (Hab : 0 <= alpha * beta * (kappa - k0)).
      { apply Rmult_le_pos; [apply Rmult_le_pos |]; lra. }
      nra.
    + rewrite (damage_elastic (DamageLawExponential.new k0 alpha beta) k0)
        by (simpl; lra).
      simpl. lra.
Qed.

Lemma damage_range_everywhere_witness :
  0 <= fst (DamageLawExponential.evaluate
              (DamageLawExponential.new (1 / 1000) 0.99 (1 / 10)) 0.002) < 1.
Proof.
  apply (proj1 (damage_range_everywhere (1 / 1000) 0.99 (1 / 10)
                  ltac:(lra) ltac:(lra) ltac:(lra))).
Defined.

Lemma damage_law_eta (law : DamageLawExponential.t) :
  law = DamageLawExponential.new (DamageLawExponential._k0 law)
          (DamageLawExponential._a law) (DamageLawExponential._b law).
Proof. now destruct law. Qed.

Lemma damage_monotone (law : DamageLawExponential.t) (k1 k2 : R) :
  admissible law -> k1 <= k2 ->
  fst (DamageLawExponential.evaluate law k1)
  <= fst (DamageLawExponential.evaluate law k2).
Proof.
  intros (H0 & Ha & Hb) H12.
  rewrite (damage_law_eta law). now apply omega_monotone.
Qed.

(** X17.  Damage never heals: with admissible parameters, an update of
    either law leaves, at every point, a damage (omega at the stored kappa)
    at least as large as before. *)
Theorem damage_never_heals :
  (forall law strain i law',
      admissible (LocalDamage._omega law) ->
      LocalDamage.update law strain i = Ok law' ->
      LocalDamage._omega law' = LocalDamage._omega law /\
      forall j,
        fst (DamageLawExponential.evaluate (LocalDamage._omega law)
               (nth j (LocalDamage._kappa law) 0))
        <= fst (DamageLawExponential.evaluate (LocalDamage._omega law')
                  (nth j (LocalDamage._kappa law') 0))) /\
  (forall law strain neeq i law',
      admissible (GradientDamage._omega law) ->
      GradientDamage.update law strain neeq i = Ok law' ->
      GradientDamage._omega law' = GradientDamage._omega law /\
      forall j,
        fst (DamageLawExponential.evaluate (GradientDamage._omega law)
               (nth j (QValues.data (GradientDamage._kappa law)) 0))
        <= fst (DamageLawExponential.evaluate (GradientDamage._omega law')
                  (nth j (QValues.data (GradientDamage._kappa law')) 0))).
Proof.
  split.
  - intros law strain i law' Hadm H.
    pose proof (local_update_monotone _ _ _ _ H) as Hmono.
    apply local_update_Ok in H as (eeq & deeq & _ & _ & ->).
    split; [reflexivity |].
    intros j. apply damage_monotone; [exact Hadm | apply Hmono].
  - intros law strain neeq i law' Hadm H.
    pose proof (gradient_update_monotone _ _ _ _ _ H) as Hmono.
    apply gradient_update_Ok in H as (_ & _ & _ & ->).
    split; [reflexivity |].
    intros j. apply damage_monotone; [exact Hadm | apply Hmono].
Qed.

Lemma scenario_admissible : admissible (GradientDamage._omega scenario_gradient).
Proof. unfold admissible; simpl. lra. Qed.

Lemma damage_never_heals_witness :
  exists law',
    GradientDamage.update (GradientDamage.resize scenario_gradient 1)
                          [0.01] 0.002 0 = Ok law' /\
    fst (DamageLawExponential.evaluate
           (GradientDamage._omega scenario_gradient) 0)
    <= fst (DamageLawExponential.evaluate (GradientDamage._omega law')
              (nth 0 (QValues.data (GradientDamage._kappa law')) 0)).
Proof.
  destruct (gradient_update_total (GradientDamage.resize scenario_gradient 1)
              [0.01] 0.002 0 scenario_gradient_room) as (law' & H).
  exists law'. split; [exact H |].
  exact (proj2 (proj2 damage_never_heals
                  (GradientDamage.resize scenario_gradient 1) [0.01] 0.002 0%nat
                  law' scenario_admissible H) 0%nat).
Defined.

(** ** The invariants and the norm *)

(** X18.  The gradients that [InvariantI1] and [InvariantJ2] return are
    exact: I1 is linear, [I1 (v + h) = I1 v + dI1 . h], and J2 is
    quadratic, [J2 (v + h) = J2 v + dJ2 (v) . h + J2 h]. *)
Theorem invariant_gradients_exact (v0 v1 v2 v3 v4 v5 h0 h1 h2 h3 h4 h5 : R) :
  let v := [v0; v1; v2; v3; v4; v5] in
  let h := [h0; h1; h2; h3; h4; h5] in
  fst (InvariantI1 (Eigen.vadd v h))
  = fst (InvariantI1 v) + dot (snd (InvariantI1 v)) h /\
  fst (InvariantJ2 (Eigen.vadd v h))
  = fst (InvariantJ2 v) + dot (snd (InvariantJ2 v)) h + fst (InvariantJ2 h).
Proof.
  intros v h. subst v h.
  unfold dot, InvariantI1, InvariantJ2, Eigen.vadd.
  cbn [Eigen.zip_with nth fst snd fold_right]. split; [lra | nra].
Qed.

(** X19.  The second invariant is never negative and vanishes exactly on
    the hydrostatic states: equal normal strains and no shear. *)
Theorem J2_vanishes_on_hydrostatic (v0 v1 v2 v3 v4 v5 : R) :
  0 <= fst (InvariantJ2 [v0; v1; v2; v3; v4; v5]) /\
  (fst (InvariantJ2 [v0; v1; v2; v3; v4; v5]) = 0 <->
   v0 = v1 /\ v1 = v2 /\ v3 = 0 /\ v4 = 0 /\ v5 = 0).
Proof.
  split; [apply InvariantJ2_nonneg |].
  unfold InvariantJ2. cbn [nth fst].
  pose proof (Rle_0_sqr (v0 - v1)) as H01.
  pose proof (Rle_0_sqr (v1 - v2)) as H12.
  pose proof (Rle_0_sqr (v2 - v0)) as H20.
  pose proof (Rle_0_sqr v3) as H3.
  pose proof (Rle_0_sqr v4) as H4.
  pose proof (Rle_0_sqr v5) as H5.
  unfold Rsqr in *.
  split.
  - intros H.
    assert (E01 : (v0 - v1) * (v0 - v1) = 0) by lra.
    assert (E12 : (v1 - v2) * (v1 - v2) = 0) by lra.
    assert (E3 : v3 * v3 = 0) by lra.
    assert (E4 : v4 * v4 = 0) by lra.
    assert (E5 : v5 * v5 = 0) by lra.
    apply Rsqr_0_uniq in E01, E12, E3, E4, E5.
    repeat split; lra.
  - intros (-> & -> & -> & -> & ->). lra.
Qed.

(** X20.  [ModMisesEeq::evaluate] returns exactly on strains of the
    constraint's dimension, with a gradient of that dimension; on any other
    strain the product with the 6 x Q transformation trips Eigen's size
    assertion. *)
Theorem ModMisesEeq_dimension_check (k nu : R) (c : Constraint)
        (strain : Eigen.VectorXd) :
  ((exists eeq deeq,
       ModMisesEeq.evaluate (ModMisesEeq.new k nu c) strain = Ok (eeq, deeq) /\
       length deeq = Dim.Q c)
   <-> length strain = Dim.Q c) /\
  (ModMisesEeq.evaluate (ModMisesEeq.new k nu c) strain = Abort EigenAssert
   <-> length strain <> Dim.Q c).
Proof.
  assert (Hyes : length strain = Dim.Q c ->
                 exists eeq deeq,
                   ModMisesEeq.evaluate (ModMisesEeq.new k nu c) strain
                   = Ok (eeq, deeq) /\ length deeq = Dim.Q c).
  { intros H.
    destruct (ModMisesEeq_evaluate_total (ModMisesEeq.new k nu c) strain
                (norm_accepts_new k nu c strain H)) as (eeq & deeq & Hev & Hl).
    exists eeq, deeq. split; [exact Hev | now rewrite Hl]. }
  assert (Hno : length strain <> Dim.Q c ->
                ModMisesEeq.evaluate (ModMisesEeq.new k nu c) strain
                = Abort EigenAssert).
  { intros H. unfold ModMisesEeq.evaluate, Eigen.mat_vec.
    cbn [ModMisesEeq._T3D ModMisesEeq.new]. rewrite T3D_cols.
    destruct (Nat.eqb_spec (Dim.Q c) (length strain)) as [E | E];
      [now symmetry in E | reflexivity]. }
  split; split.
  - intros (eeq & deeq & Hev & _).
    destruct (Nat.eq_dec (length strain) (Dim.Q c)) as [E | E]; [exact E |].
    rewrite (Hno E) in Hev. discriminate.
  - exact Hyes.
  - intros Hab E. destruct (Hyes E) as (eeq & deeq & Hev & _).
    rewrite Hev in Hab. discriminate.
  - exact Hno.
Qed.

Lemma nth_vscale (t : R) (v : Eigen.VectorXd) (j : nat) :
  nth j (Eigen.vscale t v) 0 = t * nth j v 0.
Proof.
  revert j; induction v as [| x v IH]; intros [| j]; simpl;
    try lra; try reflexivity.
  apply IH.
Qed.

Lemma sum_upto_scaled (n : nat) (t : R) (f g : nat -> R) :
  (forall j, f j = t * g j) ->
  Eigen.sum_upto n f = t * Eigen.sum_upto n g.
Proof.
  intros H. unfold Eigen.sum_upto.
  induction (seq 0 n) as [| j l IH]; simpl; [lra |].
  rewrite IH, H. lra.
Qed.

(** The product with a matrix is linear in the vector. *)
Lemma mat_vec_vscale (m : Eigen.MatrixXd) (t : R) (v w : Eigen.VectorXd) :
  Eigen.mat_vec m v = Ok w ->
  Eigen.mat_vec m (Eigen.vscale t v) = Ok (Eigen.vscale t w).
Proof.
  unfold Eigen.mat_vec. intros H. bind_inv H.
  apply eigen_assert_Ok in Hstep. injection H as <-.
  unfold Eigen.vscale at 1. rewrite length_map, Hstep. cbn [eigen_assert bind].
  unfold Eigen.vscale at 2. rewrite map_map.
  apply (f_equal Ok). apply map_ext. intros i.
  apply sum_upto_scaled. intros j. rewrite nth_vscale. lra.
Qed.

(** X21.  Up to the regulariser the modified von Mises norm is positively
    homogeneous: scaling an accepted strain by [t >= 0] scales
    [eeq - 1e-14] by [t]. *)
Theorem eeq_positively_homogeneous (m : ModMisesEeq.t)
        (strain : Eigen.VectorXd) (t eeq : R) (deeq : Eigen.VectorXd) :
  0 <= t ->
  ModMisesEeq.evaluate m strain = Ok (eeq, deeq) ->
  exists deeq',
    ModMisesEeq.evaluate m (Eigen.vscale t strain)
    = Ok (t * (eeq - 1e-14) + 1e-14, deeq').
Proof.
  intros Ht H.
  pose proof H as Hshape.
  apply ModMisesEeq_evaluate_Ok in H as (s3 & Hs3 & Hl & ->).
  assert (Hacc : norm_accepts m (Eigen.vscale t strain)).
  { unfold ModMisesEeq.evaluate in Hshape. rewrite Hs3 in Hshape.
    cbn [bind InvariantI1 InvariantJ2] in Hshape.
    bind_inv Hshape. unfold Eigen.transpose_vec in Hstep.
    bind_inv Hstep. apply eigen_assert_Ok, Nat.eqb_eq in Hstep0.
    unfold Eigen.vadd, Eigen.vscale in Hstep0. simpl in Hstep0.
    apply mat_vec_Ok in Hs3 as [Hc _].
    split; [exact Hstep0 |].
    unfold Eigen.vscale. now rewrite length_map. }
  destruct (ModMisesEeq_evaluate_total m _ Hacc) as (eeq' & deeq' & Hev & _).
  exists deeq'. rewrite Hev. do 2 f_equal.
  apply ModMisesEeq_evaluate_Ok in Hev as (s3' & Hs3' & _ & ->).
  rewrite (mat_vec_vscale _ t _ _ Hs3) in Hs3'. injection Hs3' as <-.
  unfold InvariantI1, InvariantJ2. cbn [fst].
  rewrite !nth_vscale.
  set (K1 := ModMisesEeq._K1 m). set (K2 := ModMisesEeq._K2 m).
  set (v0 := nth 0 s3 0); set (v1 := nth 1 s3 0); set (v2 := nth 2 s3 0).
  set (v3 := nth 3 s3 0); set (v4 := nth 4 s3 0); set (v5 := nth 5 s3 0).
  assert (Hq : 0.25 = 1 / 4) by lra. rewrite Hq.
  match goal with
  | |- _ = t * (_ + (sqrt ?r + _) - _) + _ =>
      match goal with
      | |- context [sqrt ?r'] =>
          assert (Er : r' = Rsqr t * r) by (unfold Rsqr; field)
      end
  end.
  rewrite Er, sqrt_mult_alt by apply Rle_0_sqr.
  rewrite sqrt_Rsqr by exact Ht. lra.
Qed.

Lemma eeq_positively_homogeneous_witness :
  exists eeq deeq deeq',
    ModMisesEeq.evaluate (ModMisesEeq.new 10 0.2 UNIAXIAL_STRAIN) [0.001]
    = Ok (eeq, deeq) /\
    ModMisesEeq.evaluate (ModMisesEeq.new 10 0.2 UNIAXIAL_STRAIN)
      (Eigen.vscale 3 [0.001])
    = Ok (3 * (eeq - 1e-14) + 1e-14, deeq').
Proof.
  destruct (ModMisesEeq_evaluate_total
              (ModMisesEeq.new 10 0.2 UNIAXIAL_STRAIN) [0.001]
              (norm_accepts_new 10 0.2 UNIAXIAL_STRAIN [0.001] eq_refl))
    as (eeq & deeq & Hev & _).
  destruct (eeq_positively_homogeneous _ [0.001] 3 eeq deeq
              ltac:(lra) Hev) as (deeq' & H').
  exists eeq, deeq, deeq'. split; [exact Hev | exact H'].
Defined.

(** X22.  Calibration of the norm: under uniaxial stress, with [k > 0] and
    a Poisson ratio other than 1/2 and -1, a tensile strain [e] has the
    equivalent strain [e] and a compressive one [-e / k], each plus the
    regulariser. *)
Theorem eeq_uniaxial_stress_calibration (k nu e : R) :
  0 < k -> 1 - 2 * nu <> 0 -> 1 + nu <> 0 ->
  exists eeq deeq,
    ModMisesEeq.evaluate (ModMisesEeq.new k nu UNIAXIAL_STRESS) [e]
    = Ok (eeq, deeq) /\
    (0 <= e -> eeq = e + 1e-14) /\
    (e <= 0 -> eeq = - e / k + 1e-14).
Proof.
  intros Hk Hnu1 Hnu2.
  destruct (ModMisesEeq_evaluate_in_shape k nu UNIAXIAL_STRESS [e] eq_refl)
    as (s3 & deeq & Hs3 & _ & Hev).
  cbv zeta in Hev.
  eexists; exists deeq. split; [exact Hev |].
  unfold Eigen.mat_vec in Hs3.
  cbn in Hs3. injection Hs3 as <-.
  unfold InvariantI1, InvariantJ2.
  cbn [nth fst snd ModMisesEeq._K1 ModMisesEeq._K2 ModMisesEeq.new].
  assert (Hq : 0.25 = 1 / 4) by lra. rewrite Hq.
  match goal with
  | |- context [sqrt ?r] =>
      assert (Er : r = Rsqr ((k + 1) * e / (2 * k)))
        by (unfold Rsqr; field; repeat split; lra)
  end.
  rewrite Er, sqrt_Rsqr_abs.
  match goal with
  | |- context [?a * ?b + (Rabs _ + _)] =>
      assert (E1 : a * b = (k - 1) * e / (2 * k)) by (field; split; lra)
  end.
  rewrite E1.
  assert (Hpos : 0 < (k + 1) / (2 * k)).
  { apply Rdiv_lt_0_compat; lra. }
  assert (Es : (k + 1) * e / (2 * k) = (k + 1) / (2 * k) * e) by (field; lra).
  rewrite Es, Rabs_mult, (Rabs_pos_eq ((k + 1) / (2 * k))) by lra.
  split; intros He.
  - rewrite (Rabs_pos_eq e) by lra. field; lra.
  - rewrite (Rabs_left1 e) by lra. field; lra.
Qed.

Lemma eeq_uniaxial_stress_calibration_witness :
  exists eeq deeq,
    ModMisesEeq.evaluate (ModMisesEeq.new 10 0.2 UNIAXIAL_STRESS) [-0.002]
    = Ok (eeq, deeq) /\
    (0 <= -0.002 -> eeq = -0.002 + 1e-14) /\
    (-0.002 <= 0 -> eeq = - -0.002 / 10 + 1e-14).
Proof.
  apply (eeq_uniaxial_stress_calibration 10 0.2 (-0.002)); lra.
Defined.

(** ** The local law: unloading and committed history *)

Lemma local_kappa_pair_settled (e stored : R) :
  LocalDamage.evaluate_kappa e (fst (LocalDamage.evaluate_kappa e stored))
  = LocalDamage.evaluate_kappa e stored.
Proof.
  unfold LocalDamage.evaluate_kappa.
  destruct (Rge_dec e stored) as [H | H]; simpl.
  - destruct (Rge_dec e e); [reflexivity | lra].
  - destruct (Rge_dec e stored); [contradiction | reflexivity].
Qed.

(** X23.  On unloading (equivalent strain below the stored kappa) the
    tangent that [LocalDamage::evaluate] returns is the secant stiffness
    [(1 - omega) * C] at the stored kappa, with no correction term, and the
    stress is that stiffness times the strain. *)
Theorem local_unloading_tangent_is_secant (law law' : LocalDamage.t)
        (strain stress : Eigen.VectorXd) (tangent : Eigen.MatrixXd) (i : nat) :
  Eigen.wf (LocalDamage._C law) ->
  LocalDamage.evaluate law strain i = Ok (law', (stress, tangent)) ->
  exists eeq deeq stored,
    ModMisesEeq.evaluate (LocalDamage._eeq law) strain = Ok (eeq, deeq) /\
    Eigen.get (LocalDamage._kappa law) i = Ok stored /\
    (eeq < stored ->
     let omega := fst (DamageLawExponential.evaluate
                         (LocalDamage._omega law) stored) in
     tangent = Eigen.scale (1 - omega) (LocalDamage._C law) /\
     Eigen.mat_vec (Eigen.scale (1 - omega) (LocalDamage._C law)) strain
     = Ok stress).
Proof.
  intros Hwf H. unfold LocalDamage.evaluate in H.
  bind_inv H. destruct a as [eeq deeq].
  bind_inv H. rename a into stored.
  exists eeq, deeq, stored.
  split; [exact Hstep | split; [exact Hstep0 |]].
  intros Hun. cbv zeta.
  rewrite (local_kappa_unloading _ _ Hun) in H.
  destruct (DamageLawExponential.evaluate (LocalDamage._omega law) stored)
    as [omega domega].
  cbn [fst].
  bind_inv H. rename a into sigma.
  bind_inv H. rename a into Cs.
  bind_inv H. injection H as _ <- <-.
  split; [| exact Hstep1].
  unfold Eigen.sub in Hstep3. bind_inv Hstep3.
  apply eigen_assert_Ok, andb_true_iff in Hstep4 as [Hr Hc].
  apply Nat.eqb_eq in Hr, Hc.
  rewrite outer_rows in Hr. rewrite outer_cols in Hc.
  rewrite !vtimes_length in Hr.
  injection Hstep3 as <-.
  rewrite zip_minus_zeros.
  - reflexivity.
  - pose proof (tabulate_length
                  (length (Eigen.vtimes (Eigen.vtimes Cs domega) 0))
                  (length deeq)
                  (fun i0 j =>
                     nth i0 (Eigen.vtimes (Eigen.vtimes Cs domega) 0) 0
                     * nth j deeq 0)) as HT.
    cbn [Eigen.tabulate Eigen.data] in HT. rewrite HT.
    rewrite !vtimes_length, length_map.
    cbn [Eigen.scale Eigen.rows Eigen.cols] in Hr, Hc.
    unfold Eigen.wf, Eigen.size in Hwf. rewrite Hwf, Hr, Hc. lia.
  - intros x Hin.
    apply in_flat_map in Hin as (j & _ & Hin).
    apply in_map_iff in Hin as (i0 & <- & _).
    rewrite vtimes_zero, nth_repeat. lra.
Qed.

Lemma local_unloading_tangent_is_secant_witness :
  exists stress tangent eeq deeq,
    LocalDamage.evaluate (LocalDamage.with_kappa scenario_local [0.5])
                         [0.0005] 0
    = Ok (LocalDamage.with_kappa scenario_local [0.5], (stress, tangent)) /\
    ModMisesEeq.evaluate (ModMisesEeq.new 10 0.2 UNIAXIAL_STRAIN) [0.0005]
    = Ok (eeq, deeq) /\
    (eeq < 0.5 ->
     tangent
     = Eigen.scale
         (1 - fst (DamageLawExponential.evaluate
                     (LocalDamage._omega scenario_local) 0.5))
         (Eigen.mkMatrix 1 1 [1000])).
Proof.
  destruct (local_evaluate_total _ _ _ scenario_local_unloading_ready)
    as ([stress tangent] & H).
  destruct (local_unloading_tangent_is_secant
              (LocalDamage.with_kappa scenario_local [0.5]) _ _ _ _ _
              eq_refl H)
    as (eeq & deeq & stored & He & Hget & Hun).
  exists stress, tangent, eeq, deeq.
  split; [exact H | split; [exact He |]].
  intros Hlt. injection Hget as <-.
  exact (proj1 (Hun Hlt)).
Defined.

(** X24.  Committing the history does not change the answer of the local
    law either: after [update] with the same strain at the same point,
    [evaluate] returns the very same stress and tangent. *)
Theorem local_response_survives_update (law law2 : LocalDamage.t)
        (strain : Eigen.VectorXd) (i : nat)
        (r : Eigen.VectorXd * Eigen.MatrixXd) :
  LocalDamage.evaluate law strain i = Ok (law, r) ->
  LocalDamage.update law strain i = Ok law2 ->
  LocalDamage.evaluate law2 strain i = Ok (law2, r).
Proof.
  intros Hev Hup.
  apply local_update_Ok in Hup as (eeq & deeq & He & Hi & ->).
  unfold LocalDamage.evaluate in *.
  cbn [LocalDamage.with_kappa LocalDamage._kappa LocalDamage._omega
       LocalDamage._C LocalDamage._eeq].
  rewrite He in *. cbn [bind] in *.
  rewrite (get_in_range _ _ Hi) in Hev. cbn [bind] in Hev.
  rewrite get_in_range by now rewrite update_length.
  cbn [bind].
  rewrite nth_update_same by exact Hi.
  rewrite local_kappa_pair_settled.
  destruct (LocalDamage.evaluate_kappa eeq _) as [kappa dkappa].
  destruct (DamageLawExponential.evaluate _ kappa) as [omega domega].
  step_both Hev.
  now injection Hev as ->.
Qed.

Lemma local_response_survives_update_witness :
  exists r law2,
    LocalDamage.update (LocalDamage.with_kappa scenario_local [0]) [0.01] 0
    = Ok law2 /\
    LocalDamage.evaluate law2 [0.01] 0 = Ok (law2, r).
Proof.
  destruct (local_evaluate_total _ _ _ (scenario_local_ready 0.01)) as (r & H).
  destruct (local_update_total _ _ _ (scenario_local_ready 0.01)) as (law2 & Hup).
  exists r, law2. split; [exact Hup |].
  exact (local_response_survives_update _ _ _ _ _ H Hup).
Defined.

(** ** Sequences of updates *)

Lemma gradient_kappa_is_max (e stored : R) :
  fst (GradientDamage.evaluate_kappa e stored) = Rmax e stored.
Proof.
  unfold GradientDamage.evaluate_kappa, Rmax.
  destruct (Rge_dec e stored), (Rle_dec e stored); simpl; lra.
Qed.

(** X25.  After a sequence of [GradientDamage::update] calls the kappa of
    every point is the largest of its starting value and the nonlocal
    strains of the calls made at that point; calls at other points and the
    strains passed along play no part. *)
Theorem gradient_history_is_running_max
        (calls : list (Eigen.VectorXd * R * nat)) :
  forall law law',
    gradient_updates law calls = Ok law' ->
    length (QValues.data (GradientDamage._kappa law'))
    = length (QValues.data (GradientDamage._kappa law)) /\
    forall j,
      nth j (QValues.data (GradientDamage._kappa law')) 0
      = driven calls j (nth j (QValues.data (GradientDamage._kappa law)) 0).
Proof.
  induction calls as [| [[strain neeq] i] rest IH]; intros law law' H.
  - injection H as <-. split; reflexivity.
  - cbn [gradient_updates] in H. bind_inv H. rename a into law1.
    apply IH in H as [Hlen Hnth].
    apply gradient_update_Ok in Hstep as (_ & _ & Hi & ->).
    cbn [GradientDamage.with_kappa GradientDamage._kappa QValues.with_data
         QValues.data] in Hlen, Hnth.
    rewrite update_length in Hlen.
    split; [exact Hlen |].
    intros j. rewrite Hnth. cbn [driven]. f_equal.
    destruct (Nat.eqb_spec i j) as [<- | Hne].
    + rewrite nth_update_same by exact Hi. apply gradient_kappa_is_max.
    + now apply nth_update_other.
Qed.

Lemma gradient_history_is_running_max_witness :
  exists law',
    gradient_updates (GradientDamage.resize scenario_gradient 1)
                     [([0.01], 0.002, 0%nat); ([0.01], 0.001, 0%nat)] = Ok law' /\
    nth 0 (QValues.data (GradientDamage._kappa law')) 0
    = Rmax 0.001 (Rmax 0.002 0).
Proof.
  destruct (scenario_two_updates 0.002 0.001) as (law' & H).
  exists law'. split; [exact H |].
  exact (proj2 (gradient_history_is_running_max _ _ _ H) 0%nat).
Defined.

Lemma update_commute (v : list R) (i j : nat) (x y : R) :
  i <> j ->
  Eigen.update (Eigen.update v i x) j y = Eigen.update (Eigen.update v j y) i x.
Proof.
  revert i j; induction v as [| z v IH]; intros [| i] [| j] H; simpl; auto;
    try contradiction.
  f_equal. apply IH. lia.
Qed.

(** Two updates of the gradient law can be made in either order. *)
Lemma gradient_update_commute (law la lb : GradientDamage.t)
      (s1 s2 : Eigen.VectorXd) (e1 e2 : R) (i1 i2 : nat) :
  GradientDamage.update law s1 e1 i1 = Ok la ->
  GradientDamage.update la s2 e2 i2 = Ok lb ->
  exists la',
    GradientDamage.update law s2 e2 i2 = Ok la' /\
    GradientDamage.update la' s1 e1 i1 = Ok lb.
Proof.
  intros H1 H2.
  apply gradient_update_Ok in H1 as (Hr & Hc & Hi1 & ->).
  apply gradient_update_Ok in H2 as (_ & _ & Hi2 & ->).
  cbn [GradientDamage.with_kappa GradientDamage._kappa QValues.with_data
       QValues.data GradientDamage._C GradientDamage._omega
       GradientDamage._strain_norm QValues._rows QValues._cols] in *.
  rewrite update_length in Hi2.
  eexists. split.
  - apply gradient_update_in_range; assumption.
  - rewrite gradient_update_in_range;
      cbn [GradientDamage.with_kappa GradientDamage._kappa QValues.with_data
           QValues.data QValues._rows QValues._cols];
      [| assumption | assumption | now rewrite update_length].
    unfold GradientDamage.with_kappa, QValues.with_data.
    cbn [GradientDamage._C GradientDamage._omega GradientDamage._strain_norm
         GradientDamage._kappa QValues._rows QValues._cols QValues.data].
    do 3 f_equal.
    destruct (Nat.eq_dec i1 i2) as [<- | Hne].
    + rewrite !update_twice, !nth_update_same by assumption.
      f_equal. rewrite !gradient_kappa_is_max.
      now rewrite !Rmax_assoc, (Rmax_comm e2 e1).
    + rewrite (nth_update_other _ i2 i1) by lia.
      rewrite (nth_update_other _ i1 i2) by lia.
      apply update_commute. lia.
Qed.

(** X26.  The committed history does not depend on the order of the
    updates: a sequence of [GradientDamage::update] calls that returns
    gives, in any other order, the same law. *)
Theorem gradient_updates_any_order
        (calls calls' : list (Eigen.VectorXd * R * nat)) :
  Permutation calls calls' ->
  forall law law',
    gradient_updates law calls = Ok law' ->
    gradient_updates law calls' = Ok law'.
Proof.
  induction 1 as [| [[s e] i] l l' Hp IH
                  | [[s1 e1] i1] [[s2 e2] i2] l
                  | l l' l'' Hp1 IH1 Hp2 IH2]; intros law law' H.
  - exact H.
  - cbn [gradient_updates] in *. bind_inv H.
    rewrite Hstep; cbn [bind]. now apply IH.
  - cbn [gradient_updates] in *.
    bind_inv H. rename a into la. bind_inv H. rename a into lb.
    destruct (gradient_update_commute _ _ _ _ _ _ _ _ _ Hstep Hstep0)
      as (la' & Ha & Hb).
    rewrite Ha; cbn [bind]. rewrite Hb; cbn [bind]. exact H.
  - apply IH2, IH1, H.
Qed.

Lemma gradient_updates_any_order_witness :
  exists law',
    gradient_updates (GradientDamage.resize scenario_gradient 1)
                     [([0.01], 0.002, 0%nat); ([0.01], 0.001, 0%nat)] = Ok law' /\
    gradient_updates (GradientDamage.resize scenario_gradient 1)
                     [([0.01], 0.001, 0%nat); ([0.01], 0.002, 0%nat)] = Ok law'.
Proof.
  destruct (scenario_two_updates 0.002 0.001) as (law' & H).
  exists law'. split; [exact H |].
  exact (gradient_updates_any_order _ _ (perm_swap _ _ []) _ _ H).
Defined.

(** ** The 3D strain of each constraint *)


(** ** Where the history can be committed *)

(** X28.  After [resize (n)] of a freshly built law, [update] returns
    exactly at the points [i < n] (for the local law, with a strain of the
    constraint's dimension); anywhere else it stops at an Eigen
    assertion.  The gradient law takes a strain of any size. *)
Theorem update_returns_exactly_in_range :
  (forall C E nu c ft alpha beta k n strain neeq i,
      let law := GradientDamage.resize
                   (GradientDamage.new C E nu c ft alpha beta k) n in
      ((exists law', GradientDamage.update law strain neeq i = Ok law')
       <-> (i < n)%nat) /\
      (GradientDamage.update law strain neeq i = Abort EigenAssert
       <-> (n <= i)%nat)) /\
  (forall heap C E nu c ft alpha gf k n strain i,
      let law := LocalDamage.resize heap
                   (LocalDamage.new C E nu c ft alpha gf k) n in
      ((exists law', LocalDamage.update law strain i = Ok law')
       <-> (i < n)%nat /\ length strain = Dim.Q c) /\
      (LocalDamage.update law strain i = Abort EigenAssert
       <-> ~ ((i < n)%nat /\ length strain = Dim.Q c))).
Proof.
  split.
  - intros C E nu c ft alpha beta k n strain neeq i law.
    assert (Hlen : length (QValues.data (GradientDamage._kappa law)) = n).
    { subst law. simpl. unfold Eigen.setZero. rewrite repeat_length. lia. }
    assert (Hin : (i < n)%nat ->
                  exists law', GradientDamage.update law strain neeq i = Ok law').
    { intros Hi. apply gradient_update_total.
      repeat split. rewrite Hlen. lia. }
    assert (Hout : (n <= i)%nat ->
                   GradientDamage.update law strain neeq i = Abort EigenAssert).
    { intros Hi. unfold GradientDamage.update, QValues.GetScalar, Eigen.get.
      cbn [bind cassert].
      destruct (nth_error (QValues.data (GradientDamage._kappa law)) i) eqn:En.
      - assert (i < n)%nat; [| lia].
        rewrite <- Hlen. apply nth_error_Some. congruence.
      - reflexivity. }
    split; split.
    + intros [law' H]. destruct (Nat.lt_ge_cases i n) as [Hi | Hi]; [exact Hi |].
      rewrite (Hout Hi) in H. discriminate.
    + exact Hin.
    + intros H. destruct (Nat.lt_ge_cases i n) as [Hi | Hi]; [| exact Hi].
      destruct (Hin Hi) as [law' H']. rewrite H' in H. discriminate.
    + exact Hout.
  - intros heap C E nu c ft alpha gf k n strain i law.
    assert (Hlen : length (LocalDamage._kappa law) = n).
    { subst law. simpl. unfold Eigen.resize. simpl.
      destruct n as [| n]; [reflexivity |].
      cbn [Nat.eqb]. now rewrite length_map, length_seq. }
    assert (Hin : (i < n)%nat /\ length strain = Dim.Q c ->
                  exists law', LocalDamage.update law strain i = Ok law').
    { intros [Hi Hs].
      destruct (ModMisesEeq_evaluate_total (ModMisesEeq.new k nu c) strain
                  (norm_accepts_new k nu c strain Hs)) as (eeq & deeq & He & _).
      eexists. apply (local_update_in_range law strain i eeq deeq He).
      now rewrite Hlen. }
    assert (Hout : ~ ((i < n)%nat /\ length strain = Dim.Q c) ->
                   LocalDamage.update law strain i = Abort EigenAssert).
    { intros Hno. unfold LocalDamage.update.
      destruct (Nat.eq_dec (length strain) (Dim.Q c)) as [Hs | Hs].
      - destruct (ModMisesEeq_evaluate_total (ModMisesEeq.new k nu c) strain
                    (norm_accepts_new k nu c strain Hs)) as (eeq & deeq & He & _).
        change (LocalDamage._eeq law) with (ModMisesEeq.new k nu c).
        rewrite He; cbn [bind].
        unfold Eigen.get.
        destruct (nth_error (LocalDamage._kappa law) i) eqn:En; [| reflexivity].
        exfalso. apply Hno. split; [| exact Hs].
        rewrite <- Hlen. apply nth_error_Some. congruence.
      - change (LocalDamage._eeq law) with (ModMisesEeq.new k nu c).
        unfold ModMisesEeq.evaluate, Eigen.mat_vec.
        cbn [ModMisesEeq._T3D ModMisesEeq.new]. rewrite T3D_cols.
        destruct (Nat.eqb_spec (Dim.Q c) (length strain)) as [E' | E'];
          [now symmetry in E' | reflexivity]. }
    split; split.
    + intros [law' H].
      destruct (Nat.lt_ge_cases i n) as [Hi | Hi];
        destruct (Nat.eq_dec (length strain) (Dim.Q c)) as [Hs | Hs];
        try (split; assumption);
        rewrite Hout in H by lia; discriminate.
    + exact Hin.
    + intros H Hyes. destruct (Hin Hyes) as [law' H'].
      rewrite H' in H. discriminate.
    + exact Hout.
Qed.
